(** * RapidQuest: the search core, embedded in Rocq

    The repository holds two generations of the same backend.

    - The document backend: [SearchService] (backend/src/search-service.js)
      over the [Database] of documents, served by [GET /search].  Its
      lexical path is [textSearch], its semantic path [semanticSearch].
    - The chunk backend: the chunk [SearchService] (search, basicContentSearch,
      calculateRelevanceScore, createExcerpt) over the [DatabaseService] of
      chunks (backend/src/database.js), fed by the [DocumentProcessor]
      (splitIntoChunks) and served by [POST /api/search].
    - The tables behind them: the documents and the search history of
      [Database] (addDocument, getDocumentById, deleteDocument, getStats,
      logSearch, getSearchHistory), and the chunks of [DatabaseService]
      (storeDocument, storeChunksWithEmbeddings, searchBySimilarity), as
      states that the calls pass on.

    Conventions of the embedding.

    - A JavaScript string is a [string]: a sequence of code units below 256.
      White space, case mapping and word characters follow ECMAScript on
      that range.
    - Integer-valued numbers (lengths, indices, limits, match counts) are
      [Z] or [nat]; the half-integers of [createExcerpt] are [Q]; scores
      that go through [Math.sqrt] or a division are real numbers [R]:
      rounding, overflow and NaN of IEEE doubles are not modelled there.
      The laws of [cosineSimilarity] depend on them: [Binary64] embeds
      that function on binary64 numbers, and its laws are settled there.
    - A promise that rejects and a [throw] are the [Throw] outcome.
    - [RegExp] patterns built from a query word are evaluated here when the
      word has no syntax character; otherwise the host engine decides
      (a match count or a SyntaxError), see [RegExpEngine]. *)

From Stdlib Require Import List String Ascii Bool Arith ZArith Lia.
From Stdlib Require Import QArith Qround Qminmax.
From Stdlib Require Import Reals Lra.
From Stdlib Require Import Permutation Sorted RelationClasses.
From Stdlib Require OrdersEx.
From Stdlib Require SpecFloat.
Import ListNotations.

Local Open Scope string_scope.
Local Open Scope list_scope.
Local Open Scope nat_scope.

(* ================================================================== *)
(** * The host language *)
(* ================================================================== *)

Module JS.

(** ** Exceptions *)

Inductive Exception : Type :=
| SyntaxError (message : string)
| TypeError (message : string)
| Error (message : string).

Inductive Outcome (A : Type) : Type :=
| Return (a : A)
| Throw (e : Exception).

Arguments Return {A} a.
Arguments Throw {A} e.

Definition bind {A B : Type} (m : Outcome A) (k : A -> Outcome B) : Outcome B :=
  match m with
  | Return a => k a
  | Throw e => Throw e
  end.

(** [try { m } catch (error) { handler error }] *)
Definition try_catch {A : Type} (m : Outcome A) (handler : Exception -> Outcome A)
  : Outcome A :=
  match m with
  | Return a => Return a
  | Throw e => handler e
  end.

(** [for (const x of xs) { ... }] with an accumulator and a body that may throw. *)
Fixpoint for_of {A S : Type} (xs : list A) (body : S -> A -> Outcome S) (s : S)
  : Outcome S :=
  match xs with
  | [] => Return s
  | x :: rest => bind (body s x) (for_of rest body)
  end.

(** ** Characters *)

Definition code (c : ascii) : nat := nat_of_ascii c.

Definition between (lo hi n : nat) : bool := (lo <=? n) && (n <=? hi).

(** White space and line terminators below 256: TAB, LF, VT, FF, CR, SP, NBSP.
    It is the class [\s] and what [trim] removes. *)
Definition isWhiteSpace (c : ascii) : bool :=
  let n := code c in between 9 13 n || (n =? 32) || (n =? 160).

(** The class [\w] without the unicode flag. *)
Definition isWordChar (c : ascii) : bool :=
  let n := code c in
  between 48 57 n || between 65 90 n || (n =? 95) || between 97 122 n.

(** [toLowerCase] on one code unit: A-Z, and the Latin-1 capitals. *)
Definition lowerChar (c : ascii) : ascii :=
  let n := code c in
  if between 65 90 n || between 192 214 n || between 216 222 n
  then ascii_of_nat (n + 32)
  else c.

(** ** Strings *)

Fixpoint toLowerCase (s : string) : string :=
  match s with
  | EmptyString => EmptyString
  | String c rest => String (lowerChar c) (toLowerCase rest)
  end.

Fixpoint trimStart (s : string) : string :=
  match s with
  | EmptyString => EmptyString
  | String c rest => if isWhiteSpace c then trimStart rest else s
  end.

Fixpoint trimEnd (s : string) : string :=
  match s with
  | EmptyString => EmptyString
  | String c rest =>
      match trimEnd rest with
      | EmptyString => if isWhiteSpace c then EmptyString else String c EmptyString
      | kept => String c kept
      end
  end.

Definition trim (s : string) : string := trimEnd (trimStart s).

(** A string is truthy when it is not empty. *)
Definition truthy (s : string) : bool :=
  match s with
  | EmptyString => false
  | String _ _ => true
  end.

Definition length (s : string) : Z := Z.of_nat (String.length s).

(** [s[i]]: [None] is [undefined]. *)
Definition charAt (s : string) (i : Z) : option ascii :=
  if (i <? 0)%Z then None else String.get (Z.to_nat i) s.

(** [s.substring(start, end)] with integer arguments: both are clamped to
    [0, s.length] and swapped when start > end. *)
Definition substring (s : string) (start end_ : Z) : string :=
  let len := length s in
  let a := Z.min (Z.max start 0) len in
  let b := Z.min (Z.max end_ 0) len in
  let from := Z.min a b in
  let to := Z.max a b in
  String.substring (Z.to_nat from) (Z.to_nat (to - from)) s.

(** ToIntegerOrInfinity on a rational: truncation toward zero. *)
Definition toInteger (q : Q) : Z :=
  if Qle_bool 0 q then Qfloor q else Qceiling q.

(** [s.substring(start, end)] with fractional arguments. *)
Definition substringQ (s : string) (start end_ : Q) : string :=
  substring s (toInteger start) (toInteger end_).

Fixpoint indexOfFrom (needle hay : string) (i : nat) : option nat :=
  if String.prefix needle hay then Some i
  else match hay with
       | EmptyString => None
       | String _ rest => indexOfFrom needle rest (S i)
       end.

(** [hay.indexOf(needle)], -1 when absent. *)
Definition indexOf (hay needle : string) : Z :=
  match indexOfFrom needle hay 0 with
  | Some i => Z.of_nat i
  | None => (-1)%Z
  end.

Definition includes (hay needle : string) : bool :=
  match indexOfFrom needle hay 0 with
  | Some _ => true
  | None => false
  end.

(** [s.split(/\s+/)]: the pieces between maximal runs of white space; a run
    at either end leaves an empty piece there, and the empty string splits
    into one empty piece.  [cur] is the piece being read, reversed;
    [inRun] says the last unit read was white space. *)
Fixpoint splitLoop (cur : list ascii) (inRun : bool) (s : string) : list string :=
  match s with
  | EmptyString => [string_of_list_ascii (rev cur)]
  | String c rest =>
      if isWhiteSpace c then
        if inRun then splitLoop cur true rest
        else string_of_list_ascii (rev cur) :: splitLoop [] true rest
      else splitLoop (c :: cur) false rest
  end.

Definition splitWhiteSpace (s : string) : list string := splitLoop [] false s.

(** [pieces.join(sep)] *)
Definition join (pieces : list string) (sep : string) : string :=
  String.concat sep pieces.

(** ** Arrays *)

(** The relative index of [slice]: negative counts from the end. *)
Definition relativeIndex (len i : Z) : Z :=
  if (i <? 0)%Z then Z.max (len + i) 0 else Z.min i len.

(** [xs.slice(start, end)] *)
Definition slice {A : Type} (xs : list A) (start end_ : Z) : list A :=
  let len := Z.of_nat (List.length xs) in
  let k := relativeIndex len start in
  let final := relativeIndex len end_ in
  firstn (Z.to_nat (final - k)) (skipn (Z.to_nat k) xs).

(** [xs.sort(compare)], by what the comparator says of a pair:
    [after a b] holds when [compare(a, b) > 0], that is when [a] is to
    come after [b].  The sort is stable (ECMAScript 2019), so for a
    consistent comparator its result is the one of this insertion sort. *)
Fixpoint insertSorted {A : Type} (after : A -> A -> bool) (x : A) (sorted : list A)
  : list A :=
  match sorted with
  | [] => [x]
  | y :: rest => if after x y then y :: insertSorted after x rest else x :: sorted
  end.

Definition sort {A : Type} (after : A -> A -> bool) (xs : list A) : list A :=
  fold_right (insertSorted after) [] xs.

(** [(a, b) => key(b) - key(a)] on integer keys: descending. *)
Definition descendingNat {A : Type} (key : A -> nat) (a b : A) : bool :=
  key a <? key b.

(** The same comparator on real keys. *)
Definition descendingR {A : Type} (key : A -> R) (a b : A) : bool :=
  if Rlt_dec (key a) (key b) then true else false.

(** [Math.round]: the nearest integer, halves upward. *)
Definition round (x : R) : R := IZR (Int_part (x + / 2)).

(** ** Regular expressions built from a word

    A pattern source without syntax characters is a sequence of pattern
    characters, each matching itself. *)

Definition isSyntaxCharacter (c : ascii) : bool :=
  existsb (Ascii.eqb c)
    (list_ascii_of_string "^$\.*+?()[]{}|").

Fixpoint isLiteralSource (w : string) : bool :=
  match w with
  | EmptyString => true
  | String c rest => negb (isSyntaxCharacter c) && isLiteralSource rest
  end.

(** The host engine, asked only about sources with syntax characters:
    [subject.match(new RegExp(source, flags))] gives the number of matches
    (0 for [null]) or the constructor throws. *)
Class RegExpEngine : Type :=
  { regExpMatchCount : forall (source flags subject : string), Outcome nat }.

Fixpoint skipn_string (n : nat) (s : string) : string :=
  match n, s with
  | O, _ => s
  | S _, EmptyString => EmptyString
  | S n', String _ rest => skipn_string n' rest
  end.

(** A literal source matches at the head of [s], under the [i] flag or not. *)
Fixpoint matchesHere (ignoreCase : bool) (w s : string) : bool :=
  match w, s with
  | EmptyString, _ => true
  | String _ _, EmptyString => false
  | String a w', String b s' =>
      (if ignoreCase then Ascii.eqb (lowerChar a) (lowerChar b) else Ascii.eqb a b)
      && matchesHere ignoreCase w' s'
  end.

(** The assertion [\b] between the unit before ([prev]) and the string [s]. *)
Definition wordBoundary (prev : option ascii) (s : string) : bool :=
  let before := match prev with Some c => isWordChar c | None => false end in
  let after := match s with String c _ => isWordChar c | EmptyString => false end in
  xorb before after.

Definition lastChar (prev : option ascii) (consumed : string) : option ascii :=
  match rev (list_ascii_of_string consumed) with
  | c :: _ => Some c
  | [] => prev
  end.

(** The global match loop of [\bw\b] with flags [gi] over [s], for a literal
    [w]: at each index the pattern is tried; after a match the search resumes
    where the match ended (one unit further after an empty match).
    [skip] counts the units still covered by the last match. *)
Fixpoint countWholeWord (w : string) (prev : option ascii) (skip : nat) (s : string)
  : nat :=
  let here :=
    match skip with
    | O =>
        wordBoundary prev s && matchesHere true w s
        && wordBoundary
             (lastChar prev (String.substring 0 (String.length w) s))
             (skipn_string (String.length w) s)
    | S _ => false
    end in
  match s with
  | EmptyString => if here then 1 else 0
  | String c rest =>
      if here
      then S (countWholeWord w (Some c) (Nat.pred (String.length w)) rest)
      else countWholeWord w (Some c) (Nat.pred skip) rest
  end.

(** The global match loop of a literal [w] with flag [g]. *)
Fixpoint countOccurrences (w : string) (skip : nat) (s : string) : nat :=
  let here := match skip with O => matchesHere false w s | S _ => false end in
  match s with
  | EmptyString => if here then 1 else 0
  | String _ rest =>
      if here
      then S (countOccurrences w (Nat.pred (String.length w)) rest)
      else countOccurrences w (Nat.pred skip) rest
  end.

(** [(subject.match(new RegExp(`\\b${w}\\b`, 'gi')) || []).length] *)
Definition matchWholeWord `{RegExpEngine} (w subject : string) : Outcome nat :=
  if isLiteralSource w
  then Return (countWholeWord w None 0 subject)
  else regExpMatchCount ("\b" ++ w ++ "\b") "gi" subject.

(** [(subject.match(new RegExp(w, 'g')) || []).length] *)
Definition matchGlobal `{RegExpEngine} (w subject : string) : Outcome nat :=
  if isLiteralSource w
  then Return (countOccurrences w 0 subject)
  else regExpMatchCount w "g" subject.

End JS.

Notation "x <- m ;; k" := (JS.bind m (fun x => k))
  (at level 61, m at next level, right associativity).
Notation "' pat <- m ;; k" := (JS.bind m (fun x => let 'pat := x in k))
  (at level 61, pat pattern, m at next level, right associativity).

(* ================================================================== *)
(** * The document backend *)
(* ================================================================== *)

(** ** The documents table (class Database) *)

Module Database.

(** The text of the [embedding] column, by what [JSON.parse] makes of it:
    a parse error, a value that is no array, or an array of numbers. *)
Inductive EmbeddingText : Type :=
| Malformed
| NotAnArray
| Vector (v : list R).

(** A row of [documents], under the names the queries give the columns
    ([file_size as fileSize], ...).  [embedding = None] is SQL NULL in the
    table and [undefined] in an object that was selected without the column. *)
Record Document : Type := mkDocument
  { id : Z;
    filename : string;
    content : string;
    fileSize : Z;
    wordCount : Z;
    pageCount : Z;
    uploadedAt : string;
    embedding : option EmbeddingText }.

(** The table in rowid order, and the AUTOINCREMENT sequence. *)
Record State : Type := mkState
  { documents : list Document;
    lastID : Z }.

Definition empty : State := {| documents := []; lastID := 0 |}.

(** [addDocument(docData)]: INSERT, resolving to [this.lastID]. *)
Definition addDocument (name text : string) (size words pages : Z)
  (uploaded : string) (emb : option EmbeddingText) (db : State) : State * Z :=
  let newId := (lastID db + 1)%Z in
  ({| documents :=
        documents db ++
        [ {| id := newId; filename := name; content := text; fileSize := size;
             wordCount := words; pageCount := pages; uploadedAt := uploaded;
             embedding := emb |} ];
      lastID := newId |},
   newId).

(** [ORDER BY uploaded_at DESC] under the BINARY collation.  SQL leaves the
    order of rows with equal keys open; the model keeps the table's. *)
Definition orderByUploadedAtDesc (rows : list Document) : list Document :=
  JS.sort (fun a b => String.ltb (uploadedAt a) (uploadedAt b)) rows.

(** [getAllDocuments()]: the SELECT names every column but [embedding]. *)
Definition getAllDocuments (db : State) : list Document :=
  map (fun row =>
         {| id := id row; filename := filename row; content := content row;
            fileSize := fileSize row; wordCount := wordCount row;
            pageCount := pageCount row; uploadedAt := uploadedAt row;
            embedding := None |})
      (orderByUploadedAtDesc (documents db)).

End Database.

(** ** class SearchService (backend/src/search-service.js) *)

Module SearchService.

Import JS.
Export Database.

(** The OpenAI client: [embeddings.create] resolves to the embedding
    ([response.data[0].embedding]) or rejects ([None]). *)
Record OpenAI : Type :=
  { embeddings_create : string -> option (list R) }.

(** [this.db] is any object with a [getAllDocuments] method; [this.openai]
    is [null] when no API key is configured. *)
Record Service : Type :=
  { db_getAllDocuments : list Document;
    openai : option OpenAI }.

(** The service over the [Database] of this repository. *)
Definition over (db : Database.State) (client : option OpenAI) : Service :=
  {| db_getAllDocuments := Database.getAllDocuments db; openai := client |}.

(** [generateEmbedding(text)]: the JSON text of the embedding, or [null]. *)
Definition generateEmbedding (this : Service) (text : string)
  : option EmbeddingText :=
  match openai this with
  | None => None
  | Some client =>
      match embeddings_create client text with
      | Some v => Some (Vector v)
      | None => None
      end
  end.

(** The loop of [splitTextIntoChunks], from index [i].  [None]: the fuel
    ran out before [i] reached [words.length]. *)
Fixpoint chunkLoop (fuel : nat) (words : list string) (chunkSize step i : Z)
  : option (list string) :=
  if (i <? Z.of_nat (List.length words))%Z then
    match fuel with
    | O => None
    | S fuel' =>
        let chunk := join (slice words i (i + chunkSize)) " " in
        match chunkLoop fuel' words chunkSize step (i + step) with
        | Some chunks => Some (if truthy (trim chunk) then chunk :: chunks else chunks)
        | None => None
        end
    end
  else Some [].

(** [splitTextIntoChunks(text, chunkSize = 1000, overlap = 100)].  The loop
    runs at most [words.length] times when [chunkSize - overlap >= 1] and
    for ever otherwise; [None] stands for the latter. *)
Definition splitTextIntoChunks (text : string) (chunkSize overlap : Z)
  : option (list string) :=
  let words := splitWhiteSpace text in
  chunkLoop (List.length words) words chunkSize (chunkSize - overlap) 0.

(** One turn of the loop of [cosineSimilarity] on [dotProduct], [normA],
    [normB], for the components [a = vectorA[i]] and [b = vectorB[i]]. *)
Definition accumulateStep : R * R * R -> R * R -> R * R * R :=
  fun '(dotProduct, normA, normB) '(a, b) =>
    (dotProduct + a * b, normA + a * a, normB + b * b)%R.

(** The three accumulators after the loop. *)
Definition accumulate (vectorA vectorB : list R) : R * R * R :=
  fold_left accumulateStep (combine vectorA vectorB) (0, 0, 0)%R.

(** [cosineSimilarity(vecA, vecB)], read over the reals: the score that
    [semanticSearch] compares and sorts by.  [Binary64.cosineSimilarity] is
    the function on the numbers of the engine. *)
Definition cosineSimilarity (vecA vecB : option EmbeddingText) : R :=
  match vecA, vecB with
  | Some (Vector vectorA), Some (Vector vectorB) =>
      if Nat.eqb (List.length vectorA) (List.length vectorB) then
        let '(dotProduct, normA, normB) := accumulate vectorA vectorB in
        let denominator := (sqrt normA * sqrt normB)%R in
        if Req_dec_T denominator 0 then 0%R else (dotProduct / denominator)%R
      else 0%R
  | _, _ => 0%R
  end.

(** An entry of [matchedChunks]. *)
Record MatchedChunk : Type :=
  { text : string;
    chunkScore : nat;
    matchedWords : list string }.

(** A result of [textSearch]: the document's [id], [filename], [content],
    [wordCount], [pageCount], [uploadedAt] (kept here as the document), the
    overall score, and the best three chunks. *)
Record TextResult : Type :=
  { textDoc : Document;
    textScore : nat;
    chunks : list MatchedChunk }.

(** A result of [semanticSearch]: the same document fields and the
    similarity. *)
Record SemanticResult : Type :=
  { semanticDoc : Document;
    similarity : R }.

(** The inner loop over [queryWords]: the chunk's score and matched words. *)
Definition scoreChunk `{RegExpEngine} (queryWords : list string) (chunk : string)
  : Outcome (nat * list string) :=
  for_of queryWords
    (fun '(score, matched) queryWord =>
       n <- matchWholeWord queryWord chunk ;;
       Return (if 0 <? n then (score + n, matched ++ [queryWord])
               else (score, matched)))
    (0, []).

(** The loop over [textChunks]: [matchedChunks]. *)
Definition matchChunks `{RegExpEngine} (queryWords textChunks : list string)
  : Outcome (list MatchedChunk) :=
  for_of textChunks
    (fun matchedChunks chunk =>
       '(score, matched) <- scoreChunk queryWords chunk ;;
       Return (if 0 <? score
               then matchedChunks ++
                    [ {| text := chunk; chunkScore := score; matchedWords := matched |} ]
               else matchedChunks))
    [].

Definition queryWordsOf (query : string) : list string :=
  filter (fun word => 2 <? String.length word) (splitWhiteSpace (toLowerCase query)).

(** The body of the loop over [documents]. *)
Definition scoreDocument `{RegExpEngine} (queryWords : list string)
  (results : list TextResult) (doc : Document) : Outcome (list TextResult) :=
  if truthy (content doc) then
    let lowered := toLowerCase (content doc) in
    let textChunks :=
      match splitTextIntoChunks lowered 500 50 with
      | Some textChunks => textChunks
      | None => []
      end in
    matchedChunks <- matchChunks queryWords textChunks ;;
    match matchedChunks with
    | [] => Return results
    | _ :: _ =>
        let sorted := sort (descendingNat chunkScore) matchedChunks in
        let overallScore :=
          fold_left (fun sum chunk => sum + chunkScore chunk) sorted 0 in
        Return (results ++
                [ {| textDoc := doc; textScore := overallScore;
                     chunks := slice sorted 0 3 |} ])
    end
  else Return results.

(** [textSearch(query, limit = 10)] *)
Definition textSearch `{RegExpEngine} (this : Service) (query : string) (limit : Z)
  : Outcome (list TextResult) :=
  let documents := db_getAllDocuments this in
  let queryWords := queryWordsOf query in
  results <- for_of documents (scoreDocument queryWords) [] ;;
  Return (slice (sort (descendingNat textScore) results) 0 limit).

(** The loop of [semanticSearch] over [documents]. *)
Definition similarDocuments (queryEmbedding : EmbeddingText)
  (documents : list Document) : list SemanticResult :=
  fold_left
    (fun results doc =>
       match embedding doc with
       | Some stored =>
           let sim := cosineSimilarity (Some queryEmbedding) (Some stored) in
           if Rlt_dec (1 / 10) sim
           then results ++ [ {| semanticDoc := doc; similarity := sim |} ]
           else results
       | None => results
       end)
    documents [].

(** [semanticSearch(query, limit = 10)] *)
Definition semanticSearch (this : Service) (query : string) (limit : Z)
  : Outcome (list SemanticResult) :=
  match openai this with
  | None => Throw (Error "OpenAI not configured for semantic search")
  | Some _ =>
      try_catch
        match generateEmbedding this query with
        | None => Throw (Error "Failed to generate query embedding")
        | Some queryEmbedding =>
            let results := similarDocuments queryEmbedding (db_getAllDocuments this) in
            Return (slice (sort (descendingR similarity) results) 0 limit)
        end
        (fun error => Throw error)
  end.

(** What [search] resolves to: the array of one of the two searches. *)
Inductive SearchResults : Type :=
| Semantic (results : list SemanticResult)
| Lexical (results : list TextResult).

Definition semantically (this : Service) (query : string) (limit : Z)
  : Outcome SearchResults :=
  results <- semanticSearch this query limit ;; Return (Semantic results).

Definition lexically `{RegExpEngine} (this : Service) (query : string) (limit : Z)
  : Outcome SearchResults :=
  results <- textSearch this query limit ;; Return (Lexical results).

(** [search(query, limit = 10)] *)
Definition search `{RegExpEngine} (this : Service) (query : string) (limit : Z)
  : Outcome SearchResults :=
  try_catch
    match openai this with
    | Some _ =>
        try_catch (semantically this query limit)
                  (fun _ => lexically this query limit)
    | None => lexically this query limit
    end
    (fun _ =>
       try_catch (lexically this query limit)
                 (fun fallbackError => Throw fallbackError)).

Definition resultCount (results : SearchResults) : nat :=
  match results with
  | Semantic l => List.length l
  | Lexical l => List.length l
  end.

End SearchService.

(** ** The route GET /search *)

Module Server.

Import JS.
Import SearchService.

(** [req.query]: [q], and what [parseInt(req.query.limit)] gives
    ([None] for NaN). *)
Record Request : Type :=
  { q : option string;
    limitParam : option Z }.

Inductive Body : Type :=
| Found (query : string) (results : SearchResults) (totalResults : nat)
| Failed (error : string) (details : option string).

Record Response : Type :=
  { status : Z;
    body : Body }.

Definition message (e : Exception) : string :=
  match e with
  | SyntaxError m => m
  | TypeError m => m
  | Error m => m
  end.

(** [parseInt(req.query.limit) || 10] *)
Definition limitOf (req : Request) : Z :=
  match limitParam req with
  | Some n => if (n =? 0)%Z then 10%Z else n
  | None => 10%Z
  end.

(** [!query || query.trim().length === 0] *)
Definition blank (query : option string) : bool :=
  match query with
  | None => true
  | Some text => negb (truthy text) || (String.length (trim text) =? 0)
  end.

(** The handler; the insert into [search_history] that follows a successful
    search leaves the response as it is and is not modelled. *)
Definition get_search `{RegExpEngine} (service : Service) (req : Request) : Response :=
  match q req with
  | Some query =>
      if blank (Some query)
      then {| status := 400; body := Failed "Search query is required" None |}
      else
        match search service query (limitOf req) with
        | Return results =>
            {| status := 200; body := Found query results (resultCount results) |}
        | Throw error =>
            {| status := 500; body := Failed "Search failed" (Some (message error)) |}
        end
  | None => {| status := 400; body := Failed "Search query is required" None |}
  end.

End Server.

(* ================================================================== *)
(** * The chunk backend *)
(* ================================================================== *)

(** ** class DatabaseService (backend/src/database.js) *)

Module DatabaseService.

Import JS.

Record DocumentRow : Type :=
  { doc_id : string;
    doc_filename : string;
    doc_content : string }.

(** A row of [document_chunks]. *)
Record ChunkRow : Type :=
  { chunk_id : string;
    chunk_document_id : string;
    index : Z;
    chunk_content : string;
    chunk_embedding : option string;
    created_at : string }.

Record State : Type :=
  { documents : list DocumentRow;
    document_chunks : list ChunkRow }.

(** A row of [document_chunks dc JOIN documents d ON dc.document_id = d.id],
    under the names of the SELECT, with [created_at] kept for the ordering. *)
Record Chunk : Type :=
  { id : string;
    content : string;
    chunk_index : Z;
    filename : string;
    document_id : string;
    createdAt : string }.

Definition joined (db : State) : list Chunk :=
  flat_map
    (fun dc =>
       map (fun d =>
              {| id := chunk_id dc; content := chunk_content dc;
                 chunk_index := index dc; filename := doc_filename d;
                 document_id := doc_id d; createdAt := created_at dc |})
           (filter (fun d => String.eqb (chunk_document_id dc) (doc_id d))
                   (documents db)))
    (document_chunks db).

(** [LIMIT ?]: a negative bound is no bound. *)
Definition sqlLimit {A : Type} (bound : Z) (rows : list A) : list A :=
  if (bound <? 0)%Z then rows else firstn (Z.to_nat bound) rows.

(** [getAllChunks(limit = 100)]: [ORDER BY dc.created_at DESC LIMIT ?].
    Rows with equal keys keep the table's order in the model. *)
Definition getAllChunks (db : State) (limit : Z) : list Chunk :=
  sqlLimit limit
    (sort (fun a b => String.ltb (createdAt a) (createdAt b)) (joined db)).

(** SQL [LOWER]: the ASCII capitals only. *)
Definition sqlLowerChar (c : ascii) : ascii :=
  if between 65 90 (code c) then ascii_of_nat (code c + 32) else c.

Fixpoint sqlLower (s : string) : string :=
  match s with
  | EmptyString => EmptyString
  | String c rest => String (sqlLowerChar c) (sqlLower rest)
  end.

(** The [similarity] column of [searchBySimilarity], for the bound text
    [queryEmbedding]:
    [(1.0 / (1.0 + ABS(LENGTH(dc.content) - LENGTH(?))))
     * (1.0 + CASE WHEN INSTR(LOWER(dc.content), LOWER(SUBSTR(?, 1, 20))) > 0
              THEN 0.5 ELSE 0 END)]. *)
Definition similarityOf (queryEmbedding : string) (row : Chunk) : R :=
  (1 / (1 + IZR (Z.abs (length (content row) - length queryEmbedding)))
   * (1 + if includes (sqlLower (content row))
                      (sqlLower (substring queryEmbedding 0 20))
          then 5 / 10 else 0))%R.

(** A row with its [score]. *)
Record Scored (S : Type) : Type :=
  { row : Chunk;
    score : S }.

Arguments row {S} _.
Arguments score {S} _.

(** [searchBySimilarity(embedding, limit = 10)]: [ORDER BY similarity DESC
    LIMIT ?], each row with [score: row.similarity]; rows of [getAllChunks]
    carry no score ([None]). *)
Definition searchBySimilarity (db : State) (embedding : string) (limit : Z)
  : list (Scored (option R)) :=
  if negb (truthy embedding)
  then map (fun r => {| row := r; score := None |}) (getAllChunks db limit)
  else
    let queryEmbedding := substring embedding 0 100 in
    map (fun r => {| row := r; score := Some (similarityOf queryEmbedding r) |})
        (sqlLimit limit
           (sort (descendingR (similarityOf queryEmbedding)) (joined db))).

End DatabaseService.

(** ** class DocumentProcessor *)

Module DocumentProcessor.

Import JS.

(** [text.replace(/\r\n/g, '\n')] *)
Fixpoint normalizeLineEndings (s : string) : string :=
  match s with
  | EmptyString => EmptyString
  | String c rest =>
      match rest with
      | String d rest' =>
          if (code c =? 13) && (code d =? 10)
          then String d (normalizeLineEndings rest')
          else String c (normalizeLineEndings rest)
      | EmptyString => String c EmptyString
      end
  end.

(** [text.replace(/\t/g, ' ')] *)
Fixpoint replaceTabs (s : string) : string :=
  match s with
  | EmptyString => EmptyString
  | String c rest =>
      String (if code c =? 9 then " "%char else c) (replaceTabs rest)
  end.

(** [text.replace(/\s+/g, ' ')]; [inRun]: the unit before was white space. *)
Fixpoint collapseFrom (inRun : bool) (s : string) : string :=
  match s with
  | EmptyString => EmptyString
  | String c rest =>
      if isWhiteSpace c
      then if inRun then collapseFrom true rest
           else String " "%char (collapseFrom true rest)
      else String c (collapseFrom false rest)
  end.

Definition collapseWhiteSpace (s : string) : string := collapseFrom false s.

Definition cleanTextOf (text : string) : string :=
  trim (collapseWhiteSpace (replaceTabs (normalizeLineEndings text))).

(** [/\s/.test(text[i])]: false on [undefined]. *)
Definition spaceAt (text : string) (i : Z) : bool :=
  match charAt text i with
  | Some c => isWhiteSpace c
  | None => false
  end.

(** [/[.!?]/.test(text[i])]: false on [undefined]. *)
Definition sentenceEndAt (text : string) (i : Z) : bool :=
  match charAt text i with
  | Some c => (code c =? 46) || (code c =? 33) || (code c =? 63)
  | None => false
  end.

(** A loop [for (let i = from; i > floor; i--)] returning at the first [i]
    that passes [test]; [steps] is [from - floor]. *)
Fixpoint scanDown (test : Z -> bool) (steps : nat) (i : Z) : option Z :=
  match steps with
  | O => None
  | S steps' => if test i then Some i else scanDown test steps' (i - 1)%Z
  end.

(** [findSentenceBoundary(text, start, end)] *)
Definition findSentenceBoundary (text : string) (start end_ : Z) : Z :=
  let searchStart := Z.max (start + (end_ - start) - 100) start in
  let searchEnd := Z.min (end_ + 50) (length text) in
  match scanDown
          (fun i => sentenceEndAt text i
                    && ((i =? searchEnd - 1)%Z || spaceAt text (i + 1)))
          (Z.to_nat (searchEnd - searchStart)) searchEnd with
  | Some i => (i + 1)%Z
  | None => end_
  end.

(** [findWordBoundary(text, position)] *)
Definition findWordBoundary (text : string) (position : Z) : Z :=
  match scanDown
          (fun i => spaceAt text i && negb (spaceAt text (i - 1)))
          (Z.to_nat (position - Z.max 0 (position - 50))) position with
  | Some i => i
  | None => position
  end.

(** The [while (start < cleanText.length)] loop.  [None]: the fuel ran out. *)
Fixpoint chunkLoop (fuel : nat) (cleanText : string) (chunkSize overlap start : Z)
  : option (list string) :=
  if (start <? length cleanText)%Z then
    match fuel with
    | O => None
    | S fuel' =>
        let end0 := (start + chunkSize)%Z in
        let end_ :=
          if (end0 <? length cleanText)%Z then
            let sentenceEnd := findSentenceBoundary cleanText start end0 in
            if (start <? sentenceEnd)%Z then sentenceEnd else end0
          else end0 in
        let wordStart := findWordBoundary cleanText start in
        let start' :=
          if (0 <? start)%Z && (start <? wordStart)%Z && (wordStart <? start + 50)%Z
          then wordStart else start in
        let chunk := substring cleanText start' end_ in
        match chunkLoop fuel' cleanText chunkSize overlap
                (Z.max (start' + chunkSize - overlap) (start' + 1)) with
        | Some chunks =>
            Some (if truthy (trim chunk) then trim chunk :: chunks else chunks)
        | None => None
        end
    end
  else Some [].

(** [splitIntoChunks(text, chunkSize = 1000, overlap = 100)] *)
Definition splitIntoChunks (text : string) (chunkSize overlap : Z)
  : option (list string) :=
  if negb (truthy text) || (String.length text =? 0) then Some []
  else
    let cleanText := cleanTextOf text in
    if (length cleanText <=? chunkSize)%Z then Some [cleanText]
    else chunkLoop (String.length cleanText) cleanText chunkSize overlap 0.

End DocumentProcessor.

(** ** class SearchService of the chunk backend *)

Module ChunkSearchService.

Import JS.
Export DatabaseService.

(** [process.env.OPENAI_API_KEY] and the OpenAI client: [embeddings_create]
    gives the text [JSON.stringify] makes of [response.data[0].embedding],
    or [None] when the request rejects. *)
Record Service : Type :=
  { db : DatabaseService.State;
    OPENAI_API_KEY : option string;
    embeddings_create : string -> option string }.

(** [generateEmbedding(text)], as its JSON text; [None] is [null]. *)
Definition generateEmbedding (this : Service) (text : string) : option string :=
  match OPENAI_API_KEY this with
  | None => None
  | Some key =>
      if negb (truthy key) || String.eqb key "your_openai_api_key_here"
      then None
      else embeddings_create this text
  end.

(** [basicContentSearch(query, limit = 10)] *)
Definition basicContentSearch (this : Service) (query : string) (limit : Z)
  : list (Scored nat) :=
  let chunks := getAllChunks (db this) (limit * 3) in
  let queryWords := splitWhiteSpace (toLowerCase query) in
  slice
    (sort (descendingNat score)
       (filter (fun chunk => 0 <? score chunk)
          (map (fun chunk =>
                  let contentLower := toLowerCase (content chunk) in
                  {| row := chunk;
                     score :=
                       fold_left
                         (fun sum word =>
                            sum + (if includes contentLower word then 1 else 0))
                         queryWords 0 |})
               chunks)))
    0 limit.

(** The first [forEach] of [calculateRelevanceScore]: occurrences of the
    words longer than 2. *)
Definition wordMatches `{RegExpEngine} (queryWords : list string)
  (contentLower : string) (score : nat) : Outcome nat :=
  for_of queryWords
    (fun score word =>
       if 2 <? String.length word
       then wordCount <- matchGlobal word contentLower ;; Return (score + wordCount)
       else Return score)
    score.

(** The second [forEach]: 2 for each word followed by its successor. *)
Fixpoint proximityBonus (queryWords : list string) (contentLower : string)
  (score : nat) : nat :=
  match queryWords with
  | word :: (nextWord :: _) as rest =>
      proximityBonus rest contentLower
        (if includes contentLower (word ++ " " ++ nextWord) then score + 2 else score)
  | _ => score
  end.

(** The score before the length normalization. *)
Definition rawScore `{RegExpEngine} (query content : string) : Outcome nat :=
  let queryWords := splitWhiteSpace (toLowerCase query) in
  let contentLower := toLowerCase content in
  let phrase := if includes contentLower (toLowerCase query) then 10 else 0 in
  score <- wordMatches queryWords contentLower phrase ;;
  Return (proximityBonus queryWords contentLower score).

(** [calculateRelevanceScore(query, content)] *)
Definition calculateRelevanceScore `{RegExpEngine} (query content : string)
  : Outcome R :=
  score <- rawScore query content ;;
  let contentWords := List.length (splitWhiteSpace (toLowerCase content)) in
  Return (if 0 <? contentWords
          then (INR score / sqrt (INR contentWords))%R
          else INR score).

(** The code unit [.], three times. *)
Definition ellipsis : string := "...".

(** [createExcerpt(content, query, maxLength = 200)] *)
Definition createExcerpt (content query : string) (maxLength : Z) : string :=
  let contentLower := toLowerCase content in
  let queryLower := toLowerCase query in
  let queryIndex := indexOf contentLower queryLower in
  if negb (queryIndex =? -1)%Z then
    let start := Qminmax.Qmax 0 (inject_Z queryIndex - inject_Z maxLength / 2) in
    let end_ := Qminmax.Qmin (inject_Z (length content)) (start + inject_Z maxLength) in
    let excerpt := substringQ content start end_ in
    let excerpt :=
      if Qlt_le_dec 0 start then (ellipsis ++ excerpt)%string else excerpt in
    let excerpt :=
      if Qlt_le_dec end_ (inject_Z (length content))
      then (excerpt ++ ellipsis)%string else excerpt in
    excerpt
  else
    (substring content 0 maxLength
     ++ (if (maxLength <? length content)%Z then ellipsis else ""))%string.

(** An entry of [enhancedResults]: the result, spread, with its
    [relevanceScore] and [excerpt]. *)
Record Enhanced (S : Type) : Type :=
  { result : Scored S;
    relevanceScore : R;
    excerpt : string }.

Arguments result {S} _.
Arguments relevanceScore {S} _.
Arguments excerpt {S} _.

(** [results.map(result => ...)] and the sort by [relevanceScore]. *)
Definition enhance `{RegExpEngine} {S : Type} (query : string)
  (results : list (Scored S)) : Outcome (list (Enhanced S)) :=
  enhancedResults <-
    for_of results
      (fun done candidate =>
         relevance <- calculateRelevanceScore query (content (row candidate)) ;;
         Return (done ++
                 [ {| result := candidate;
                      relevanceScore := (round (relevance * 100) / 100)%R;
                      excerpt := createExcerpt (content (row candidate)) query 200 |} ]))
      [] ;;
  Return (sort (descendingR relevanceScore) enhancedResults).

(** What [search] resolves to, by the branch that fetched the results. *)
Inductive SearchResults : Type :=
| BySimilarity (results : list (Enhanced (option R)))
| ByContent (results : list (Enhanced nat)).

(** [search(query, limit = 10)] *)
Definition search `{RegExpEngine} (this : Service) (query : string) (limit : Z)
  : Outcome SearchResults :=
  try_catch
    match generateEmbedding this query with
    | Some queryEmbedding =>
        enhancedResults <-
          enhance query (searchBySimilarity (db this) queryEmbedding limit) ;;
        Return (BySimilarity enhancedResults)
    | None =>
        enhancedResults <- enhance query (basicContentSearch this query limit) ;;
        Return (ByContent enhancedResults)
    end
    (fun error => Throw error).

Definition resultCount (results : SearchResults) : nat :=
  match results with
  | BySimilarity l => List.length l
  | ByContent l => List.length l
  end.

End ChunkSearchService.

(** ** The route POST /api/search *)

Module ApiServer.

Import JS.

(** [req.body]: [query] and [limit], each possibly absent. *)
Record SearchRequest : Type :=
  { query : option string;
    limit : option Z }.

(** The JSON bodies: [{success: true, query, results, totalResults}] (its
    [message] is a function of [totalResults]) and
    [{success: false, error, message}]. *)
Inductive Body (Results : Type) : Type :=
| Success (query : string) (results : Results) (totalResults : nat)
| Failure (error : string) (message : string).

Arguments Success {Results} _ _ _.
Arguments Failure {Results} _ _.

Record Response (Results : Type) : Type :=
  { status : Z;
    body : Body Results }.

Arguments status {Results} _.
Arguments body {Results} _.

(** The handler, over the [search] of the service and the [length] of what
    it resolves to. *)
Definition post_api_search {Results : Type}
  (search : string -> Z -> Outcome Results) (count : Results -> nat)
  (req : SearchRequest) : Response Results :=
  let limit := match limit req with Some n => n | None => 10%Z end in
  match query req with
  | Some query =>
      if negb (truthy query) || (String.length (trim query) =? 0) then
        {| status := 400;
           body := Failure "Search query is required" "Please enter a search term" |}
      else if String.length (trim query) <? 2 then
        {| status := 400;
           body := Failure "Search query too short"
                     "Search query must be at least 2 characters long" |}
      else
        match search query limit with
        | Return results =>
            {| status := 200; body := Success query results (count results) |}
        | Throw _ =>
            {| status := 500;
               body := Failure "Search failed"
                         "An error occurred while searching documents" |}
        end
  | None =>
      {| status := 400;
         body := Failure "Search query is required" "Please enter a search term" |}
  end.

End ApiServer.

(* ================================================================== *)
(** * Vocabulary of the statements *)
(* ================================================================== *)

(** [xs] occurs in [ys], in order. *)
Inductive Subsequence {A : Type} : list A -> list A -> Prop :=
| subsequence_nil : Subsequence [] []
| subsequence_skip : forall xs y ys, Subsequence xs ys -> Subsequence xs (y :: ys)
| subsequence_keep : forall x xs ys, Subsequence xs ys -> Subsequence (x :: xs) (x :: ys).

(** The results are in order of non-increasing key. *)
Definition NonIncreasingNat {A : Type} (key : A -> nat) (xs : list A) : Prop :=
  StronglySorted (fun a b => key b <= key a) xs.

Definition NonIncreasingR {A : Type} (key : A -> R) (xs : list A) : Prop :=
  StronglySorted (fun a b => (key b <= key a)%R) xs.



(** The number of code units of [s] that are not white space. *)
Fixpoint nonWhiteSpace (s : string) : nat :=
  match s with
  | EmptyString => 0
  | String c rest => (if JS.isWhiteSpace c then 0 else 1) + nonWhiteSpace rest
  end.

(** Results of equal key stand in the order in which their origins stand
    in [source]. *)
Definition TiesInOrderNat {A D : Type} (key : A -> nat) (origin : A -> D)
  (source : list D) (xs : list A) : Prop :=
  forall s, Subsequence (map origin (filter (fun x => key x =? s) xs)) source.

Definition TiesInOrderR {A D : Type} (key : A -> R) (origin : A -> D)
  (source : list D) (xs : list A) : Prop :=
  forall s,
    Subsequence
      (map origin (filter (fun x => if Req_dec_T (key x) s then true else false) xs))
      source.

(** What the ranking claim asks of the array [search] resolves to, for the
    documents in the order [getAllDocuments] gave them. *)
Definition Ranked (source : list Database.Document) (limit : Z)
  (out : SearchService.SearchResults) : Prop :=
  match out with
  | SearchService.Semantic results =>
      (Z.of_nat (List.length results) <= limit)%Z
      /\ NonIncreasingR SearchService.similarity results
      /\ TiesInOrderR SearchService.similarity SearchService.semanticDoc source results
  | SearchService.Lexical results =>
      (Z.of_nat (List.length results) <= limit)%Z
      /\ NonIncreasingNat SearchService.textScore results
      /\ TiesInOrderNat SearchService.textScore SearchService.textDoc source results
  end.

(** Most recent upload first. *)
Definition NewestFirst (rows : list Database.Document) : Prop :=
  StronglySorted
    (fun a b => String.leb (Database.uploadedAt b) (Database.uploadedAt a) = true)
    rows.

(** What the lexical path promises of a result, for the words of the
    query: a positive overall score, and chunks that each scored above 0
    under [scoreChunk]. *)
Definition Relevant `{JS.RegExpEngine} (queryWords : list string)
  (r : SearchService.TextResult) : Prop :=
  0 < SearchService.textScore r
  /\ Forall
       (fun c =>
          0 < SearchService.chunkScore c
          /\ SearchService.scoreChunk queryWords (SearchService.text c)
             = JS.Return (SearchService.chunkScore c, SearchService.matchedWords c))
       (SearchService.chunks r).

(** What every result of the semantic path satisfies: it is scored by the
    cosine similarity of its stored embedding, above the threshold. *)
Definition AboveThreshold (queryEmbedding : Database.EmbeddingText)
  (r : SearchService.SemanticResult) : Prop :=
  exists stored,
    Database.embedding (SearchService.semanticDoc r) = Some stored
    /\ SearchService.similarity r
       = SearchService.cosineSimilarity (Some queryEmbedding) (Some stored)
    /\ (1 / 10 < SearchService.similarity r)%R.

(** What [search] of the chunk backend attaches to a fetched candidate. *)
Definition EnhancedFor `{JS.RegExpEngine} {S : Type} (query : string)
  (e : ChunkSearchService.Enhanced S) : Prop :=
  exists relevance,
    ChunkSearchService.calculateRelevanceScore query
      (DatabaseService.content (DatabaseService.row (ChunkSearchService.result e)))
    = JS.Return relevance
    /\ ChunkSearchService.relevanceScore e = (JS.round (relevance * 100) / 100)%R
    /\ ChunkSearchService.excerpt e
       = ChunkSearchService.createExcerpt
           (DatabaseService.content (DatabaseService.row (ChunkSearchService.result e)))
           query 200.

(** An engine that rejects every source it is asked about.  The examples
    below use query words without syntax characters, on which no engine is
    consulted. *)
Definition rejecting : JS.RegExpEngine :=
  {| JS.regExpMatchCount := fun _ _ _ => JS.Throw (JS.SyntaxError "Invalid regular expression") |}.

(** Two uploads, a.txt before b.txt, each with the word "cat" once. *)
Definition twoUploads : Database.State :=
  fst (Database.addDocument "b.txt" "the cat sat" 11 3 1
         "2024-01-02T00:00:00.000Z" None
         (fst (Database.addDocument "a.txt" "a cat here" 10 3 1
                 "2024-01-01T00:00:00.000Z" None Database.empty))).

(** What [search] answers over [twoUploads] for "cat", without a provider. *)
Definition catsOfTwoUploads : SearchService.SearchResults :=
  Eval vm_compute in
    match @SearchService.search rejecting (SearchService.over twoUploads None) "cat" 10 with
    | JS.Return out => out
    | JS.Throw _ => SearchService.Lexical []
    end.

(** Ties broken by insertion: of two results with one score, the document
    inserted first (the smaller AUTOINCREMENT id) stands first. *)
Definition InsertionOrderOnTies (results : list SearchService.TextResult) : Prop :=
  StronglySorted
    (fun a b =>
       SearchService.textScore a = SearchService.textScore b ->
       (Database.id (SearchService.textDoc a) < Database.id (SearchService.textDoc b))%Z)
    results.




(** A store of the chunk backend: one document, notes.txt, and its chunks. *)
Definition chunkRow (key text : string) (position : Z) : DatabaseService.ChunkRow :=
  {| DatabaseService.chunk_id := key;
     DatabaseService.chunk_document_id := "d1";
     DatabaseService.index := position;
     DatabaseService.chunk_content := text;
     DatabaseService.chunk_embedding := None;
     DatabaseService.created_at := "2024-01-01 00:00:00" |}.

Definition notes (rows : list DatabaseService.ChunkRow) : DatabaseService.State :=
  {| DatabaseService.documents :=
       [ {| DatabaseService.doc_id := "d1";
            DatabaseService.doc_filename := "notes.txt";
            DatabaseService.doc_content := "notes" |} ];
     DatabaseService.document_chunks := rows |}.

Definition chunkOf (key text : string) (position : Z) : DatabaseService.Chunk :=
  {| DatabaseService.id := key; DatabaseService.content := text;
     DatabaseService.chunk_index := position;
     DatabaseService.filename := "notes.txt";
     DatabaseService.document_id := "d1";
     DatabaseService.createdAt := "2024-01-01 00:00:00" |}.

(** No API key, one chunk: "this". *)
Definition keywordService : ChunkSearchService.Service :=
  {| ChunkSearchService.db := notes [chunkRow "c1" "this" 0];
     ChunkSearchService.OPENAI_API_KEY := None;
     ChunkSearchService.embeddings_create := fun _ => None |}.

(** What the search for "is xx" keeps of it. *)
Definition keywordHit : ChunkSearchService.Enhanced nat :=
  {| ChunkSearchService.result :=
       {| DatabaseService.row := chunkOf "c1" "this" 0; DatabaseService.score := 1 |};
     ChunkSearchService.relevanceScore := (JS.round (INR 0 * 100) / 100)%R;
     ChunkSearchService.excerpt := "this" |}.

(** An API key, a provider whose embeddings all read [1], and two chunks:
    "dog" and "catcat". *)
Definition embeddingService : ChunkSearchService.Service :=
  {| ChunkSearchService.db := notes [chunkRow "c1" "dog" 0; chunkRow "c2" "catcat" 1];
     ChunkSearchService.OPENAI_API_KEY := Some "sk-test";
     ChunkSearchService.embeddings_create := fun _ => Some "[1]" |}.

Definition dogChunk : DatabaseService.Chunk := chunkOf "c1" "dog" 0.

Definition catChunk : DatabaseService.Chunk := chunkOf "c2" "catcat" 1.

(** What the search for "cat" makes of the two chunks. *)
Definition dogHit : ChunkSearchService.Enhanced (option R) :=
  {| ChunkSearchService.result :=
       {| DatabaseService.row := dogChunk;
          DatabaseService.score := Some (DatabaseService.similarityOf "[1]" dogChunk) |};
     ChunkSearchService.relevanceScore := (JS.round (INR 0 * 100) / 100)%R;
     ChunkSearchService.excerpt := "dog" |}.

Definition catHit : ChunkSearchService.Enhanced (option R) :=
  {| ChunkSearchService.result :=
       {| DatabaseService.row := catChunk;
          DatabaseService.score := Some (DatabaseService.similarityOf "[1]" catChunk) |};
     ChunkSearchService.relevanceScore := (JS.round (INR 12 * 100) / 100)%R;
     ChunkSearchService.excerpt := "catcat" |}.

(** The results fetched by similarity are ranked by their similarity. *)
Definition RankedBySimilarity
  (results : list (ChunkSearchService.Enhanced (option R))) : Prop :=
  StronglySorted
    (fun a b =>
       match DatabaseService.score (ChunkSearchService.result a),
             DatabaseService.score (ChunkSearchService.result b) with
       | Some x, Some y => (y <= x)%R
       | _, _ => True
       end)
    results.

(** The response tells of an empty result list and of no error. *)
Definition AnswersEmptyList {Results : Type} (response : ApiServer.Response Results)
  : Prop :=
  ApiServer.status response = 200%Z
  /\ exists query results, ApiServer.body response = ApiServer.Success query results 0.

(** What [textSearch] answers over [twoUploads] for "cat". *)
Definition catTextResults : list SearchService.TextResult :=
  Eval vm_compute in
    match @SearchService.textSearch rejecting (SearchService.over twoUploads None) "cat" 10 with
    | JS.Return results => results
    | JS.Throw _ => []
    end.

(** What [POST /api/search] answers to the query "a". *)
Definition shortQueryResponse : ApiServer.Response ChunkSearchService.SearchResults :=
  ApiServer.post_api_search
    (@ChunkSearchService.search rejecting keywordService)
    ChunkSearchService.resultCount
    {| ApiServer.query := Some "a"; ApiServer.limit := None |}.

(** A text of [n] words: the word [a], [n] times, a space between two. *)
Definition wordsOf (n : nat) : string := JS.join (repeat "a" n) " ".

(* ================================================================== *)
(** * The other methods of class Database *)
(* ================================================================== *)

(** ** One document, deletion, statistics *)

Module Documents.

Import Database.

(** [getDocumentById(id)]:
    [SELECT id, ..., uploaded_at as uploadedAt, embedding FROM documents
     WHERE id = ?] through [db.get]: the first row, [undefined] ([None])
    when there is none.  [key] is an integer. *)
Definition getDocumentById (db : State) (key : Z) : option Document :=
  find (fun row => (id row =? key)%Z) (documents db).

(** [deleteDocument(id)]: [DELETE FROM documents WHERE id = ?], resolving to
    [this.changes > 0].  The AUTOINCREMENT sequence stays where it is. *)
Definition deleteDocument (key : Z) (db : State) : State * bool :=
  let kept := filter (fun row => negb (id row =? key)%Z) (documents db) in
  let changes := List.length (documents db) - List.length kept in
  ({| documents := kept; lastID := lastID db |}, 0 <? changes).

(** The row of [getStats]. *)
Record Stats : Type :=
  { totalDocuments : Z;
    totalWordCount : Z;
    totalPageCount : Z;
    totalFileSize : Z }.

(** [COALESCE(SUM(column), 0)] over rows that hold numbers. *)
Definition sumOf (column : Document -> Z) (rows : list Document) : Z :=
  fold_left (fun total row => (total + column row)%Z) rows 0%Z.

(** [getStats()]: the aggregate query always has its one row. *)
Definition getStats (db : State) : Stats :=
  {| totalDocuments := Z.of_nat (List.length (documents db));
     totalWordCount := sumOf wordCount (documents db);
     totalPageCount := sumOf pageCount (documents db);
     totalFileSize := sumOf fileSize (documents db) |}.

End Documents.

(** ** The search history *)

Module SearchHistory.

Import JS.

(** A row of [search_history]. *)
Record Entry : Type :=
  { entry_id : Z;
    entry_query : string;
    result_count : Z;
    searched_at : string }.

(** The table in rowid order, and its AUTOINCREMENT sequence. *)
Record State : Type :=
  { search_history : list Entry;
    lastID : Z }.

Definition empty : State := {| search_history := []; lastID := 0 |}.

(** [logSearch(query, resultCount)]: INSERT, resolving to [this.lastID].
    [searched_at] takes its default, CURRENT_TIMESTAMP: the text [now]. *)
Definition logSearch (now : string) (query : string) (resultCount : Z) (h : State)
  : State * Z :=
  let newId := (lastID h + 1)%Z in
  ({| search_history :=
        search_history h ++
        [ {| entry_id := newId; entry_query := query; result_count := resultCount;
             searched_at := now |} ];
      lastID := newId |},
   newId).

(** A row of [getSearchHistory]:
    [query, result_count as resultCount, searched_at as searchedAt]. *)
Record Row : Type :=
  { query : string;
    resultCount : Z;
    searchedAt : string }.

Definition rowOf (e : Entry) : Row :=
  {| query := entry_query e; resultCount := result_count e;
     searchedAt := searched_at e |}.

(** [getSearchHistory()]: [ORDER BY searched_at DESC LIMIT 50].  Rows with
    equal keys keep the table's order in the model. *)
Definition getSearchHistory (h : State) : list Row :=
  map rowOf
    (firstn 50
       (sort (fun a b => String.ltb (searched_at a) (searched_at b))
             (search_history h))).

(** [getRecentSearches(limit = 10)] of the document [SearchService], over
    what [this.db.getSearchHistory()] resolves or rejects with. *)
Definition getRecentSearches (db_getSearchHistory : Outcome (list Row)) (limit : Z)
  : list Row :=
  match db_getSearchHistory with
  | Return rows => rows
  | Throw _ => []
  end.

End SearchHistory.

(** ** The route GET /search, with its insert into the history *)

Module LoggingServer.

Import JS.
Import SearchService.
Import Server.

(** The handler of [GET /search] with [await db.logSearch(query,
    results.length)] between the search and the response; [now] is the
    clock of the insert.  An insert always succeeds here. *)
Definition get_search `{RegExpEngine} (now : string) (service : Service)
  (req : Request) (h : SearchHistory.State) : Response * SearchHistory.State :=
  match q req with
  | Some query =>
      if blank (Some query)
      then ({| status := 400; body := Failed "Search query is required" None |}, h)
      else
        match search service query (limitOf req) with
        | Return results =>
            let h' :=
              fst (SearchHistory.logSearch now query
                     (Z.of_nat (resultCount results)) h) in
            ({| status := 200; body := Found query results (resultCount results) |},
             h')
        | Throw error =>
            ({| status := 500; body := Failed "Search failed" (Some (message error)) |},
             h)
        end
  | None => ({| status := 400; body := Failed "Search query is required" None |}, h)
  end.

End LoggingServer.

(** ** Runs of the documents table *)

(** A call of [addDocument] or of [deleteDocument]. *)
Inductive Operation : Type :=
| Add (name text : string) (size words pages : Z) (uploaded : string)
      (emb : option Database.EmbeddingText)
| Delete (key : Z).

(** The table after the calls [ops], from [db] on, and the ids that
    [addDocument] resolved to, in the order of the calls. *)
Fixpoint run (ops : list Operation) (db : Database.State)
  : Database.State * list Z :=
  match ops with
  | [] => (db, [])
  | Add name text size words pages uploaded emb :: rest =>
      let '(db', newId) :=
        Database.addDocument name text size words pages uploaded emb db in
      let '(final, ids) := run rest db' in
      (final, newId :: ids)
  | Delete key :: rest => run rest (fst (Documents.deleteDocument key db))
  end.

(** A table that calls of [addDocument] and [deleteDocument] make of the
    empty one. *)
Definition Reachable (db : Database.State) : Prop :=
  exists ops, fst (run ops Database.empty) = db.

(** What every reachable table satisfies: the ids are positive, none is
    above the sequence, and no two rows share one. *)
Definition Consistent (db : Database.State) : Prop :=
  Forall (fun row => (0 < Database.id row <= Database.lastID db)%Z) (Database.documents db)
  /\ NoDup (map Database.id (Database.documents db)).

(** The searches logged in [h], most recent first. *)
Definition RecentFirst (rows : list SearchHistory.Row) : Prop :=
  StronglySorted
    (fun a b =>
       String.leb (SearchHistory.searchedAt b) (SearchHistory.searchedAt a) = true)
    rows.

(* ================================================================== *)
(** * The text utilities of DocumentProcessor *)
(* ================================================================== *)

Module TextCleaning.

Import JS.
Import DocumentProcessor.

(** [text.replace(/[^\w\s]/g, ' ')] *)
Fixpoint replacePunctuation (s : string) : string :=
  match s with
  | EmptyString => EmptyString
  | String c rest =>
      String (if isWordChar c || isWhiteSpace c then c else " "%char)
             (replacePunctuation rest)
  end.

(** [cleanTextForEmbedding(text)] *)
Definition cleanTextForEmbedding (text : string) : string :=
  trim (collapseWhiteSpace (replacePunctuation (toLowerCase text))).

End TextCleaning.

(** A small letter, a digit or the underscore. *)
Definition keyChar (c : ascii) : bool :=
  let n := JS.code c in
  JS.between 97 122 n || JS.between 48 57 n || (n =? 95).

(** From a place where the unit before was a space ([afterSpace]) or was
    not: every unit is a [keyChar] or the space, no space follows a space,
    and the text does not end with a space. *)
Fixpoint cleanFrom (afterSpace : bool) (s : string) : bool :=
  match s with
  | EmptyString => negb afterSpace
  | String c rest =>
      if JS.code c =? 32
      then negb afterSpace && cleanFrom true rest
      else keyChar c && cleanFrom false rest
  end.

(** Words of small letters, digits and underscores with one space between
    two, and nothing else; the empty text is one of them. *)
Definition isClean (s : string) : bool :=
  match s with
  | EmptyString => true
  | String _ _ => cleanFrom true s
  end.

(** The same without the last condition: the text may end with a space. *)
Fixpoint spacedFrom (afterSpace : bool) (s : string) : bool :=
  match s with
  | EmptyString => true
  | String c rest =>
      if JS.code c =? 32
      then negb afterSpace && spacedFrom true rest
      else keyChar c && spacedFrom false rest
  end.

(* ================================================================== *)
(** * The writes of class DatabaseService *)
(* ================================================================== *)

Module ChunkStore.

Import JS.
Import DatabaseService.

(** What [this.run] rejects with when a PRIMARY KEY is taken. *)
Definition uniqueConstraint (column : string) : Exception :=
  Error ("SQLITE_CONSTRAINT: UNIQUE constraint failed: " ++ column).

(** [INSERT INTO documents (id, filename, content) VALUES (?, ?, ?)]: the
    store after it, and what [this.run] resolves or rejects with. *)
Definition insertDocument (row : DocumentRow) (db : State) : State * Outcome unit :=
  if existsb (fun d => String.eqb (doc_id d) (doc_id row)) (documents db)
  then (db, Throw (uniqueConstraint "documents.id"))
  else ({| documents := documents db ++ [row];
           document_chunks := document_chunks db |},
        Return tt).

(** [INSERT INTO document_chunks (id, document_id, chunk_index, content)
    VALUES (?, ?, ?, ?)]: [embedding] is NULL, [created_at] its default. *)
Definition insertChunk (row : ChunkRow) (db : State) : State * Outcome unit :=
  if existsb (fun c => String.eqb (chunk_id c) (chunk_id row)) (document_chunks db)
  then (db, Throw (uniqueConstraint "document_chunks.id"))
  else ({| documents := documents db;
           document_chunks := document_chunks db ++ [row] |},
        Return tt).

(** The loop of [storeDocument] from [position] on.  [uuid k] is what the
    call number [k] of [uuidv4()] returns, [clock k] the CURRENT_TIMESTAMP
    of the insert that uses it.  Nothing is rolled back when an insert
    fails. *)
Fixpoint insertChunks (uuid clock : nat -> string) (documentId : string)
  (position : nat) (chunks : list string) (db : State) : State * Outcome unit :=
  match chunks with
  | [] => (db, Return tt)
  | chunk :: rest =>
      match insertChunk
              {| chunk_id := uuid (S position);
                 chunk_document_id := documentId;
                 index := Z.of_nat position;
                 chunk_content := chunk;
                 chunk_embedding := None;
                 created_at := clock (S position) |}
              db with
      | (db', Return _) => insertChunks uuid clock documentId (S position) rest db'
      | (db', Throw e) => (db', Throw e)
      end
  end.

(** [storeDocument(filename, content, chunks)], resolving to [documentId]. *)
Definition storeDocument (uuid clock : nat -> string) (filename content : string)
  (chunks : list string) (db : State) : State * Outcome string :=
  let documentId := uuid 0 in
  match insertDocument
          {| doc_id := documentId; doc_filename := filename; doc_content := content |}
          db with
  | (db', Return _) =>
      match insertChunks uuid clock documentId 0 chunks db' with
      | (db'', Return _) => (db'', Return documentId)
      | (db'', Throw e) => (db'', Throw e)
      end
  | (db', Throw e) => (db', Throw e)
  end.

(** The row [c] with its [embedding] set. *)
Definition withEmbedding (value : option string) (c : ChunkRow) : ChunkRow :=
  {| chunk_id := chunk_id c;
     chunk_document_id := chunk_document_id c;
     index := index c;
     chunk_content := chunk_content c;
     chunk_embedding := value;
     created_at := created_at c |}.

(** [UPDATE document_chunks SET embedding = ? WHERE document_id = ? AND
    chunk_index = ?] *)
Definition setEmbedding (value : option string) (documentId : string)
  (position : Z) (db : State) : State :=
  {| documents := documents db;
     document_chunks :=
       map (fun c =>
              if String.eqb (chunk_document_id c) documentId
                 && (index c =? position)%Z
              then withEmbedding value c
              else c)
           (document_chunks db) |}.

(** The loop of [storeChunksWithEmbeddings] from [position] on;
    [embeddings[index]] is a text, or NULL ([None]) for [null] and for an
    index past the end. *)
Fixpoint updateChunks (documentId : string) (embeddings : list (option string))
  (position : nat) (chunks : list string) (db : State) : State :=
  match chunks with
  | [] => db
  | _ :: rest =>
      updateChunks documentId embeddings (S position) rest
        (setEmbedding
           (match nth_error embeddings position with
            | Some value => value
            | None => None
            end)
           documentId (Z.of_nat position) db)
  end.

(** [storeChunksWithEmbeddings(documentId, chunks, embeddings)] *)
Definition storeChunksWithEmbeddings (documentId : string) (chunks : list string)
  (embeddings : list (option string)) (db : State) : State :=
  updateChunks documentId embeddings 0 chunks db.

End ChunkStore.

(** ** storeDocument of the chunk SearchService *)

Module ChunkIndexing.

Import JS.
Import ChunkSearchService.

(** [storeDocument(filename, content, chunks)] over the two methods of
    [this.db] it calls: [db_storeDocument] is
    [this.db.storeDocument(filename, content, chunks)] and
    [db_storeChunksWithEmbeddings documentId embeddings] is
    [this.db.storeChunksWithEmbeddings(documentId, chunks, embeddings)],
    each giving the store after it and what it resolves or rejects with. *)
Definition storeDocument (this : Service)
  (db_storeDocument : State -> State * Outcome string)
  (db_storeChunksWithEmbeddings :
     string -> list (option string) -> State -> State * Outcome unit)
  (chunks : list string) : State * Outcome string :=
  match db_storeDocument (db this) with
  | (db', Return documentId) =>
      let embeddings := map (generateEmbedding this) chunks in
      if existsb (fun emb => match emb with Some _ => true | None => false end)
                 embeddings
      then
        match db_storeChunksWithEmbeddings documentId embeddings db' with
        | (db'', Return _) => (db'', Return documentId)
        | (db'', Throw error) => (db'', Throw error)
        end
      else (db', Return documentId)
  | (db', Throw error) => (db', Throw error)
  end.

(** The object [getStats] adds to the statistics of the store:
    [openaiConfigured]. *)
Definition openaiConfigured (this : Service) : bool :=
  match OPENAI_API_KEY this with
  | Some key => truthy key && negb (String.eqb key "your_openai_api_key_here")
  | None => false
  end.

End ChunkIndexing.

(** ** calculateTextSimilarity *)

Module TextSimilarity.

Import JS.

(** [words1.filter(word => words2.includes(word) && word.length > 2)] *)
Definition commonWords (words1 words2 : list string) : list string :=
  filter (fun word => existsb (String.eqb word) words2 && (2 <? String.length word))
         words1.

(** [new Set([...words1, ...words2])]: each word once. *)
Definition uniqueWords (words1 words2 : list string) : list string :=
  nodup string_dec (words1 ++ words2).

(** [calculateTextSimilarity(text1, text2)], as the quotient of two
    integers. *)
Definition calculateTextSimilarity (text1 text2 : string) : Q :=
  let words1 := splitWhiteSpace (toLowerCase text1) in
  let words2 := splitWhiteSpace (toLowerCase text2) in
  (inject_Z (Z.of_nat (List.length (commonWords words1 words2)))
   / inject_Z (Z.of_nat (List.length (uniqueWords words1 words2))))%Q.

End TextSimilarity.

(** ** Vocabulary of the chunk store *)

(** Every chunk row names a document of the store. *)
Definition Referenced (db : DatabaseService.State) : Prop :=
  Forall
    (fun c =>
       existsb (fun d => String.eqb (DatabaseService.doc_id d)
                                    (DatabaseService.chunk_document_id c))
               (DatabaseService.documents db) = true)
    (DatabaseService.document_chunks db).

(** The values [uuid 0 .. uuid n] are new to the store and differ from one
    another where they name chunks. *)
Definition FreshIds (uuid : nat -> string) (n : nat) (db : DatabaseService.State)
  : Prop :=
  ~ In (uuid 0) (map DatabaseService.doc_id (DatabaseService.documents db))
  /\ NoDup (map uuid (seq 1 n))
  /\ forall k, 1 <= k <= n ->
       ~ In (uuid k) (map DatabaseService.chunk_id (DatabaseService.document_chunks db)).

(** The rows that [storeDocument] inserts for the chunks from the chunk
    number [position] on. *)
Fixpoint insertedRows (uuid clock : nat -> string) (position : nat)
  (chunks : list string) : list DatabaseService.ChunkRow :=
  match chunks with
  | [] => []
  | chunk :: rest =>
      {| DatabaseService.chunk_id := uuid (S position);
         DatabaseService.chunk_document_id := uuid 0;
         DatabaseService.index := Z.of_nat position;
         DatabaseService.chunk_content := chunk;
         DatabaseService.chunk_embedding := None;
         DatabaseService.created_at := clock (S position) |}
      :: insertedRows uuid clock (S position) rest
  end.

(** The rows that the chunks of one stored document add to the join, from
    the chunk number [position] on. *)
Fixpoint storedChunks (uuid clock : nat -> string) (filename : string)
  (position : nat) (chunks : list string) : list DatabaseService.Chunk :=
  match chunks with
  | [] => []
  | chunk :: rest =>
      {| DatabaseService.id := uuid (S position);
         DatabaseService.content := chunk;
         DatabaseService.chunk_index := Z.of_nat position;
         DatabaseService.filename := filename;
         DatabaseService.document_id := uuid 0;
         DatabaseService.createdAt := clock (S position) |}
      :: storedChunks uuid clock filename (S position) rest
  end.

(** What [basicContentSearch] makes of a chunk: the chunk with the number
    of query words its lower-cased content includes. *)
Definition contentScore (query : string) (chunk : DatabaseService.Chunk)
  : DatabaseService.Scored nat :=
  let contentLower := JS.toLowerCase (DatabaseService.content chunk) in
  {| DatabaseService.row := chunk;
     DatabaseService.score :=
       fold_left
         (fun sum word => sum + (if JS.includes contentLower word then 1 else 0))
         (JS.splitWhiteSpace (JS.toLowerCase query)) 0 |}.

(** What [search] of the chunk backend fetches before it scores: the
    chunks of [searchBySimilarity] when an embedding was produced, those of
    [basicContentSearch] otherwise. *)
Definition fetched (this : ChunkSearchService.Service) (query : string) (limit : Z)
  : list DatabaseService.Chunk :=
  match ChunkSearchService.generateEmbedding this query with
  | Some queryEmbedding =>
      map DatabaseService.row
        (DatabaseService.searchBySimilarity (ChunkSearchService.db this)
           queryEmbedding limit)
  | None =>
      map DatabaseService.row (ChunkSearchService.basicContentSearch this query limit)
  end.

(** No API key, one chunk: "c++ notes". *)
Definition cppService : ChunkSearchService.Service :=
  {| ChunkSearchService.db := notes [chunkRow "c1" "c++ notes" 0];
     ChunkSearchService.OPENAI_API_KEY := None;
     ChunkSearchService.embeddings_create := fun _ => None |}.

(* ================================================================== *)
(** * [cosineSimilarity] on binary64 numbers *)
(* ================================================================== *)

(** The arithmetic of [cosineSimilarity] as the engine does it: every
    number is an IEEE 754 binary64 value, every operation rounds to
    nearest, ties to even.  [SearchService.cosineSimilarity] is the same
    function read over the reals. *)

Module Binary64.

(** A JavaScript number.  NaN is one value: its payload cannot be
    observed. *)
Definition number : Type := SpecFloat.spec_float.

Definition prec : Z := 53.
Definition emax : Z := 1024.


Definition zero : number := SpecFloat.S754_zero false.

(** [x * y], [x + y], [x / y], [Math.sqrt(x)] *)
Definition mul : number -> number -> number := SpecFloat.SFmul prec emax.
Definition add : number -> number -> number := SpecFloat.SFadd prec emax.
Definition div : number -> number -> number := SpecFloat.SFdiv prec emax.
Definition sqrt : number -> number := SpecFloat.SFsqrt prec emax.

(** [x === y] on numbers: false when either is NaN, true for 0 and -0. *)
Definition strictEquals (x y : number) : bool := SpecFloat.SFeqb x y.



(** The text of an embedding, by what [JSON.parse] makes of it: a parse
    error, a value that is no array, or an array.  The loop reads an entry
    only as an operand of [*]: each entry stands here as the number that
    operator converts it to (NaN for an entry that is no numeric value). *)
Inductive EmbeddingText : Type :=
| Malformed
| NotAnArray
| Vector (v : list number).

(** One turn of the loop on [dotProduct], [normA], [normB]. *)
Definition accumulateStep
  : number * number * number -> number * number -> number * number * number :=
  fun '(dotProduct, normA, normB) '(a, b) =>
    (add dotProduct (mul a b), add normA (mul a a), add normB (mul b b)).

(** The three accumulators after the loop. *)
Definition accumulate (vectorA vectorB : list number) : number * number * number :=
  fold_left accumulateStep (combine vectorA vectorB) (zero, zero, zero).

(** [cosineSimilarity(vecA, vecB)] *)
Definition cosineSimilarity (vecA vecB : option EmbeddingText) : number :=
  match vecA, vecB with
  | Some (Vector vectorA), Some (Vector vectorB) =>
      if Nat.eqb (List.length vectorA) (List.length vectorB) then
        let '(dotProduct, normA, normB) := accumulate vectorA vectorB in
        let denominator := mul (sqrt normA) (sqrt normB) in
        if strictEquals denominator zero then zero else div dotProduct denominator
      else zero
  | _, _ => zero
  end.

End Binary64.

(** ** Vocabulary for the laws of the cosine on numbers *)






(* ================================================================== *)
(** * Facts about the host language *)
(* ================================================================== *)

Section Outcomes.

Import JS.

Lemma bind_return_inv {A B : Type} (m : Outcome A) (k : A -> Outcome B) (b : B) :
  bind m k = Return b -> exists a, m = Return a /\ k a = Return b.
Proof.
  destruct m as [a | e]; simpl; intros Hk.
  - exists a; split; [reflexivity | exact Hk].
  - discriminate Hk.
Qed.

Lemma try_catch_rethrow {A : Type} (m : Outcome A) :
  try_catch m (fun error => Throw error) = m.
Proof. destruct m; reflexivity. Qed.

Lemma try_catch_again {A : Type} (m : Outcome A) :
  try_catch m (fun _ => try_catch m (fun fallbackError => Throw fallbackError)) = m.
Proof. destruct m; reflexivity. Qed.

(** A loop whose body only ever appends to the accumulator: what it leaves
    is the accumulator followed by pushed items, each drawn from one element
    of the list, in order. *)
Lemma for_of_appends {A B : Type} (body : list B -> A -> Outcome (list B))
  (origin : B -> A) (P : B -> Prop) :
  (forall acc x acc', body acc x = Return acc' ->
     acc' = acc \/ exists b, acc' = acc ++ [b] /\ origin b = x /\ P b) ->
  forall xs acc out,
    for_of xs body acc = Return out ->
    exists pushed,
      out = acc ++ pushed /\ Subsequence (map origin pushed) xs /\ Forall P pushed.
Proof.
  intros Hbody xs; induction xs as [| x xs IH]; simpl; intros acc out Hout.
  - injection Hout as <-. exists []. rewrite app_nil_r.
    repeat split; constructor.
  - apply bind_return_inv in Hout as (acc' & Hstep & Hrest).
    apply IH in Hrest as (pushed & -> & Hsub & Hall).
    apply Hbody in Hstep as [-> | (b & -> & <- & Hb)].
    + exists pushed. repeat split; [now constructor | exact Hall].
    + exists (b :: pushed). rewrite <- app_assoc. simpl.
      repeat split; [now constructor | now constructor].
Qed.

End Outcomes.

Section Subsequences.

Context {A : Type}.

Lemma subsequence_nil_l (ys : list A) : Subsequence [] ys.
Proof. induction ys; constructor; assumption. Qed.

Lemma subsequence_refl (xs : list A) : Subsequence xs xs.
Proof. induction xs; constructor; assumption. Qed.

Lemma subsequence_trans (xs ys zs : list A) :
  Subsequence xs ys -> Subsequence ys zs -> Subsequence xs zs.
Proof.
  intros Hxy Hyz; revert xs Hxy.
  induction Hyz as [| ys z zs _ IH | y ys zs _ IH]; intros xs Hxy.
  - exact Hxy.
  - constructor. now apply IH.
  - inversion Hxy; subst.
    + apply subsequence_skip. now apply IH.
    + apply subsequence_keep. now apply IH.
Qed.

Lemma subsequence_filter (p : A -> bool) (xs : list A) :
  Subsequence (filter p xs) xs.
Proof.
  induction xs as [| x xs IH]; simpl; [constructor |].
  destruct (p x); constructor; assumption.
Qed.

Lemma subsequence_filter_mono (p : A -> bool) (xs ys : list A) :
  Subsequence xs ys -> Subsequence (filter p xs) (filter p ys).
Proof.
  induction 1 as [| xs y ys _ IH | x xs ys _ IH]; simpl.
  - constructor.
  - destruct (p y); [constructor |]; assumption.
  - destruct (p x); [constructor |]; assumption.
Qed.

Lemma subsequence_firstn (n : nat) (xs : list A) : Subsequence (firstn n xs) xs.
Proof.
  revert n; induction xs as [| x xs IH]; intros [| n]; simpl.
  - constructor.
  - constructor.
  - apply subsequence_nil_l.
  - apply subsequence_keep, IH.
Qed.

Lemma subsequence_app_r (xs ys zs : list A) :
  Subsequence xs zs -> Subsequence xs (ys ++ zs).
Proof. intros H; induction ys; simpl; [assumption | now constructor]. Qed.

Lemma subsequence_map {B : Type} (f : A -> B) (xs ys : list A) :
  Subsequence xs ys -> Subsequence (map f xs) (map f ys).
Proof. induction 1; simpl; constructor; assumption. Qed.

Lemma subsequence_in (xs ys : list A) (x : A) :
  Subsequence xs ys -> In x xs -> In x ys.
Proof.
  induction 1 as [| xs y ys _ IH | y xs ys _ IH]; simpl; intros Hin.
  - exact Hin.
  - right; auto.
  - destruct Hin; [left | right]; auto.
Qed.

End Subsequences.

Section Sorting.

Import JS.

Context {A : Type} (after : A -> A -> bool).

Lemma insertSorted_permutation (x : A) (xs : list A) :
  Permutation (insertSorted after x xs) (x :: xs).
Proof.
  induction xs as [| y ys IH]; simpl; [reflexivity |].
  destruct (after x y); [| reflexivity].
  rewrite IH. apply perm_swap.
Qed.

Lemma sort_permutation (xs : list A) : Permutation (sort after xs) xs.
Proof.
  induction xs as [| x xs IH]; simpl; [reflexivity |].
  unfold sort in IH. rewrite insertSorted_permutation. now constructor.
Qed.

Lemma sort_length (xs : list A) : List.length (sort after xs) = List.length xs.
Proof. apply Permutation_length, sort_permutation. Qed.

(** Stability: elements that the comparator does not tell apart keep their
    order. *)
Lemma insertSorted_filter (p : A -> bool) (x : A) (xs : list A) :
  (forall y, p x = true -> p y = true -> after x y = false) ->
  filter p (insertSorted after x xs) = filter p (x :: xs).
Proof.
  intros Htie; induction xs as [| y ys IH]; simpl; [reflexivity |].
  destruct (after x y) eqn:Hxy; simpl; [| reflexivity].
  rewrite IH. simpl.
  destruct (p x) eqn:Hx, (p y) eqn:Hy; try reflexivity.
  rewrite (Htie y eq_refl Hy) in Hxy. discriminate Hxy.
Qed.

Lemma sort_stable (p : A -> bool) (xs : list A) :
  (forall x y, p x = true -> p y = true -> after x y = false) ->
  filter p (sort after xs) = filter p xs.
Proof.
  intros Htie; induction xs as [| x xs IH]; simpl; [reflexivity |].
  change (fold_right (insertSorted after) [] xs) with (sort after xs).
  rewrite insertSorted_filter by (intros y; apply Htie).
  simpl. now rewrite IH.
Qed.

Hypothesis after_asymmetric : forall x y, after x y = true -> after y x = false.
Hypothesis before_transitive :
  forall x y z, after x y = false -> after y z = false -> after x z = false.

Lemma insertSorted_sorted (x : A) (xs : list A) :
  StronglySorted (fun a b => after a b = false) xs ->
  StronglySorted (fun a b => after a b = false) (insertSorted after x xs).
Proof.
  induction 1 as [| y ys Hsorted IH Hy]; simpl.
  - repeat constructor.
  - destruct (after x y) eqn:Hxy.
    + constructor; [exact IH |].
      apply (Permutation_Forall (Permutation_sym (insertSorted_permutation x ys))).
      constructor; [now apply after_asymmetric | exact Hy].
    + constructor; [now constructor |].
      constructor; [exact Hxy |].
      revert Hy. apply Forall_impl. intros z Hyz.
      now apply before_transitive with y.
Qed.

Lemma sort_sorted (xs : list A) :
  StronglySorted (fun a b => after a b = false) (sort after xs).
Proof.
  induction xs as [| x xs IH]; simpl; [constructor |].
  now apply insertSorted_sorted.
Qed.

End Sorting.

Section ListFacts.

Context {A : Type}.

Lemma strongly_sorted_impl (R1 R2 : A -> A -> Prop) (xs : list A) :
  (forall a b, R1 a b -> R2 a b) -> StronglySorted R1 xs -> StronglySorted R2 xs.
Proof.
  intros Himpl; induction 1 as [| x xs _ IH Hx]; constructor; [exact IH |].
  revert Hx. apply Forall_impl. exact (Himpl x).
Qed.

Lemma strongly_sorted_firstn (R0 : A -> A -> Prop) (n : nat) (xs : list A) :
  StronglySorted R0 xs -> StronglySorted R0 (firstn n xs).
Proof.
  intros Hs; revert n; induction Hs as [| x xs _ IH Hx]; intros [| n]; simpl;
    try constructor.
  - apply IH.
  - rewrite Forall_forall in *. intros y Hy. apply Hx.
    apply (subsequence_in _ _ _ (subsequence_firstn n xs) Hy).
Qed.

Lemma slice_prefix (xs : list A) (n : Z) :
  (0 <= n)%Z -> JS.slice xs 0 n = firstn (Z.to_nat n) xs.
Proof.
  intros Hn. unfold JS.slice, JS.relativeIndex.
  replace (0 <? 0)%Z with false by reflexivity.
  destruct (n <? 0)%Z eqn:Hneg; [apply Z.ltb_lt in Hneg; lia |].
  replace (Z.min 0 (Z.of_nat (List.length xs))) with 0%Z by lia.
  simpl skipn. rewrite Z.sub_0_r.
  destruct (Z.le_gt_cases n (Z.of_nat (List.length xs))) as [Hle | Hgt].
  - now rewrite Z.min_l by lia.
  - rewrite Z.min_r by lia. rewrite Nat2Z.id.
    rewrite firstn_all. symmetry. apply firstn_all2. lia.
Qed.

Lemma slice_prefix_length (xs : list A) (n : Z) :
  (0 <= n)%Z -> (Z.of_nat (List.length (JS.slice xs 0 n)) <= n)%Z.
Proof.
  intros Hn. rewrite slice_prefix by exact Hn.
  rewrite length_firstn. lia.
Qed.

End ListFacts.

Section Comparators.

Import JS.

Context {A : Type}.

Lemma sort_descendingNat_sorted (key : A -> nat) (xs : list A) :
  NonIncreasingNat key (sort (descendingNat key) xs).
Proof.
  apply strongly_sorted_impl with (R1 := fun a b => descendingNat key a b = false).
  - unfold descendingNat. intros a b H. apply Nat.ltb_ge in H. exact H.
  - apply sort_sorted; unfold descendingNat.
    + intros x y H. apply Nat.ltb_lt in H. apply Nat.ltb_ge. lia.
    + intros x y z H1 H2. apply Nat.ltb_ge in H1, H2. apply Nat.ltb_ge. lia.
Qed.

Lemma descendingR_false (key : A -> R) (a b : A) :
  descendingR key a b = false <-> (key b <= key a)%R.
Proof.
  unfold descendingR. destruct (Rlt_dec (key a) (key b)); split; intros H;
    try discriminate; try reflexivity; lra.
Qed.

Lemma sort_descendingR_sorted (key : A -> R) (xs : list A) :
  NonIncreasingR key (sort (descendingR key) xs).
Proof.
  apply strongly_sorted_impl with (R1 := fun a b => descendingR key a b = false).
  - intros a b. apply descendingR_false.
  - apply sort_sorted.
    + intros x y H. apply descendingR_false.
      unfold descendingR in H. destruct (Rlt_dec (key x) (key y)); [lra | discriminate].
    + intros x y z H1 H2. apply descendingR_false in H1, H2.
      apply descendingR_false. lra.
Qed.

(** Results of one score keep the order they were found in. *)
Lemma sort_descendingNat_ties (key : A -> nat) (s : nat) (xs : list A) :
  filter (fun x => key x =? s) (sort (descendingNat key) xs)
  = filter (fun x => key x =? s) xs.
Proof.
  apply sort_stable. intros x y Hx Hy.
  apply Nat.eqb_eq in Hx, Hy. unfold descendingNat. apply Nat.ltb_ge. lia.
Qed.

Lemma sort_descendingR_ties (key : A -> R) (s : R) (xs : list A) :
  filter (fun x => if Req_dec_T (key x) s then true else false)
         (sort (descendingR key) xs)
  = filter (fun x => if Req_dec_T (key x) s then true else false) xs.
Proof.
  apply sort_stable. intros x y Hx Hy.
  destruct (Req_dec_T (key x) s); [| discriminate].
  destruct (Req_dec_T (key y) s); [| discriminate].
  apply descendingR_false. lra.
Qed.

End Comparators.

(* ================================================================== *)
(** * The document backend: cosine similarity *)
(* ================================================================== *)

Section Cosine.

Import SearchService.

Local Open Scope R_scope.







End Cosine.

(* ================================================================== *)
(** * The document backend: the two searches *)
(* ================================================================== *)

Section Slices.

Context {A : Type}.

Lemma subsequence_skipn (n : nat) (xs : list A) : Subsequence (skipn n xs) xs.
Proof.
  revert n; induction xs as [| x xs IH]; intros [| n]; simpl.
  - constructor.
  - constructor.
  - apply subsequence_refl.
  - apply subsequence_skip, IH.
Qed.

Lemma subsequence_slice (xs : list A) (start end_ : Z) :
  Subsequence (JS.slice xs start end_) xs.
Proof.
  unfold JS.slice.
  eapply subsequence_trans; [apply subsequence_firstn | apply subsequence_skipn].
Qed.

Lemma in_slice (xs : list A) (start end_ : Z) (x : A) :
  In x (JS.slice xs start end_) -> In x xs.
Proof. apply subsequence_in, subsequence_slice. Qed.

Lemma in_sort (after : A -> A -> bool) (xs : list A) (x : A) :
  In x (JS.sort after xs) -> In x xs.
Proof. apply Permutation_in, sort_permutation. Qed.

(** A pure loop that only ever pushes. *)
Lemma fold_left_appends {B : Type} (body : list B -> A -> list B)
  (origin : B -> A) (P : B -> Prop) :
  (forall acc x,
     body acc x = acc \/ exists b, body acc x = acc ++ [b] /\ origin b = x /\ P b) ->
  forall xs acc,
    exists pushed,
      fold_left body xs acc = acc ++ pushed
      /\ Subsequence (map origin pushed) xs /\ Forall P pushed.
Proof.
  intros Hbody xs; induction xs as [| x xs IH]; simpl; intros acc.
  - exists []. rewrite app_nil_r. repeat split; constructor.
  - destruct (IH (body acc x)) as (pushed & -> & Hsub & Hall).
    destruct (Hbody acc x) as [-> | (b & -> & <- & Hb)].
    + exists pushed. repeat split; [now constructor | exact Hall].
    + exists (b :: pushed). rewrite <- app_assoc. simpl.
      repeat split; [now constructor | now constructor].
Qed.

End Slices.

Section DocumentSearch.

Import JS.
Import SearchService.

Context `{RegExpEngine}.

Variable this : Service.

(** *** The semantic path *)

Lemma similarDocuments_spec (queryEmbedding : EmbeddingText)
  (documents : list Document) :
  Subsequence (map semanticDoc (similarDocuments queryEmbedding documents)) documents
  /\ Forall (AboveThreshold queryEmbedding) (similarDocuments queryEmbedding documents).
Proof.
  unfold similarDocuments.
  match goal with
  | |- context [fold_left ?f documents []] =>
      destruct (fold_left_appends f semanticDoc (AboveThreshold queryEmbedding))
        with (xs := documents) (acc := @nil SemanticResult)
        as (pushed & -> & Hsub & Hall)
  end.
  - intros acc doc. destruct (embedding doc) as [stored |] eqn:Hstored; [| now left].
    destruct (Rlt_dec (1 / 10) (cosineSimilarity (Some queryEmbedding) (Some stored)))
      as [Habove | _]; [| now left].
    right. eexists. split; [reflexivity |]. split; [reflexivity |].
    exists stored. simpl. auto.
  - simpl. split; assumption.
Qed.

Lemma semanticSearch_returns (query : string) (limit : Z)
  (results : list SemanticResult) :
  semanticSearch this query limit = Return results ->
  exists queryEmbedding,
    generateEmbedding this query = Some queryEmbedding
    /\ results =
       slice (sort (descendingR similarity)
                (similarDocuments queryEmbedding (db_getAllDocuments this)))
             0 limit.
Proof.
  unfold semanticSearch.
  destruct (openai this); [| discriminate].
  rewrite try_catch_rethrow.
  destruct (generateEmbedding this query) as [queryEmbedding |]; [| discriminate].
  intros Hret. injection Hret as <-. now exists queryEmbedding.
Qed.

(** Every result of the semantic path is a document of the store, scored
    by its cosine similarity to the query embedding, above the threshold. *)
Lemma semanticSearch_scores (query : string) (limit : Z)
  (results : list SemanticResult) :
  semanticSearch this query limit = Return results ->
  exists queryEmbedding,
    generateEmbedding this query = Some queryEmbedding
    /\ forall r, In r results ->
         In (semanticDoc r) (db_getAllDocuments this)
         /\ exists stored,
              embedding (semanticDoc r) = Some stored
              /\ similarity r = cosineSimilarity (Some queryEmbedding) (Some stored)
              /\ (1 / 10 < similarity r)%R.
Proof.
  intros Hret.
  apply semanticSearch_returns in Hret as (queryEmbedding & Hembed & ->).
  exists queryEmbedding. split; [exact Hembed |].
  destruct (similarDocuments_spec queryEmbedding (db_getAllDocuments this))
    as (Hsub & Hall).
  intros r Hin. apply in_slice, in_sort in Hin. split.
  - apply (subsequence_in _ _ _ Hsub). now apply in_map.
  - rewrite Forall_forall in Hall. now apply Hall.
Qed.

Lemma semanticSearch_throws (query : string) (limit : Z) :
  generateEmbedding this query = None <->
  exists e, semanticSearch this query limit = Throw e.
Proof.
  unfold semanticSearch, generateEmbedding.
  destruct (openai this) as [client |].
  - rewrite try_catch_rethrow.
    destruct (embeddings_create client query); split; intros Hfail.
    + discriminate.
    + destruct Hfail as (e & He). discriminate.
    + eexists; reflexivity.
    + reflexivity.
  - split; [eexists; reflexivity | reflexivity].
Qed.

Lemma generateEmbedding_absent (query : string) :
  openai this = None -> generateEmbedding this query = None.
Proof. unfold generateEmbedding. now intros ->. Qed.

(** *** The control flow of [search] *)

Lemma search_unfold (query : string) (limit : Z) :
  search this query limit =
  match generateEmbedding this query with
  | Some _ => semantically this query limit
  | None => lexically this query limit
  end.
Proof.
  unfold search.
  destruct (generateEmbedding this query) as [queryEmbedding |] eqn:Hembed.
  - assert (Hclient : exists client, openai this = Some client).
    { unfold generateEmbedding in Hembed.
      destruct (openai this) as [client |]; [now exists client | discriminate]. }
    destruct Hclient as (client & ->).
    unfold semantically, semanticSearch.
    unfold generateEmbedding in Hembed.
    destruct (openai this) as [client' |] eqn:Hopen.
    + unfold generateEmbedding. rewrite Hopen.
      destruct (embeddings_create client' query); [reflexivity | discriminate].
    + discriminate.
  - destruct (openai this) as [client |] eqn:Hopen.
    + destruct (proj1 (semanticSearch_throws query limit) Hembed) as (e & He).
      unfold semantically. rewrite He. simpl.
      apply try_catch_again.
    + apply try_catch_again.
Qed.

End DocumentSearch.

Section ListOrder.

Context {A : Type}.

Lemma strongly_sorted_subsequence (R0 : A -> A -> Prop) (xs ys : list A) :
  Subsequence xs ys -> StronglySorted R0 ys -> StronglySorted R0 xs.
Proof.
  induction 1 as [| xs y ys _ IH | x xs ys Hsub IH]; intros Hsorted.
  - constructor.
  - apply IH. now inversion Hsorted.
  - inversion Hsorted as [| ? ? Htail Hhead]; subst.
    constructor; [now apply IH |].
    rewrite Forall_forall in *. intros z Hz. apply Hhead.
    now apply (subsequence_in _ _ _ Hsub).
Qed.

Lemma forall_subsequence (P : A -> Prop) (xs ys : list A) :
  Subsequence xs ys -> Forall P ys -> Forall P xs.
Proof.
  intros Hsub Hall. rewrite Forall_forall in *.
  intros x Hx. now apply Hall, (subsequence_in _ _ _ Hsub).
Qed.

Lemma fold_left_sum_positive (f : A -> nat) (xs : list A) :
  xs <> [] -> Forall (fun x => 0 < f x) xs ->
  0 < fold_left (fun sum x => sum + f x) xs 0.
Proof.
  assert (Hmono : forall ys a, a <= fold_left (fun sum x => sum + f x) ys a).
  { induction ys as [| y ys IH]; simpl; intros a; [lia |].
    specialize (IH (a + f y)). lia. }
  destruct xs as [| x xs]; [congruence |].
  intros _ Hall. inversion Hall; subst. simpl.
  specialize (Hmono xs (f x)). lia.
Qed.

End ListOrder.

Section TextSearch.

Import JS.
Import SearchService.

Context `{RegExpEngine}.

Lemma matchChunks_spec (queryWords textChunks : list string)
  (matchedChunks : list MatchedChunk) :
  matchChunks queryWords textChunks = Return matchedChunks ->
  Forall
    (fun c => 0 < chunkScore c
              /\ scoreChunk queryWords (text c) = Return (chunkScore c, matchedWords c))
    matchedChunks.
Proof.
  unfold matchChunks. intros Hloop.
  eapply for_of_appends with (origin := text) in Hloop
    as (pushed & -> & _ & Hall); [exact Hall |].
  intros acc chunk acc'. simpl.
  destruct (scoreChunk queryWords chunk) as [[score matched] | e] eqn:Hscore;
    simpl; [| discriminate].
  destruct (0 <? score) eqn:Hpos; intros Hret; injection Hret as <-; [| now left].
  right. eexists. split; [reflexivity |]. split; [reflexivity |]. simpl.
  apply Nat.ltb_lt in Hpos. auto.
Qed.

Lemma relevant_result (queryWords : list string) (doc : Document)
  (sorted : list MatchedChunk) :
  sorted <> [] ->
  Forall
    (fun c => 0 < chunkScore c
              /\ scoreChunk queryWords (text c) = Return (chunkScore c, matchedWords c))
    sorted ->
  Relevant queryWords
    {| textDoc := doc;
       textScore := fold_left (fun sum chunk => sum + chunkScore chunk) sorted 0;
       chunks := slice sorted 0 3 |}.
Proof.
  intros Hnonempty Hsorted. split; simpl.
  - apply fold_left_sum_positive; [exact Hnonempty |].
    revert Hsorted. apply Forall_impl. tauto.
  - apply forall_subsequence with (ys := sorted);
      [apply subsequence_slice | exact Hsorted].
Qed.

Lemma scoreDocument_spec (queryWords : list string) (results : list TextResult)
  (doc : Document) (results' : list TextResult) :
  scoreDocument queryWords results doc = Return results' ->
  results' = results
  \/ exists r, results' = results ++ [r] /\ textDoc r = doc /\ Relevant queryWords r.
Proof.
  unfold scoreDocument.
  destruct (truthy (content doc)); [| intros Hret; injection Hret as <-; now left].
  match goal with
  | |- context [matchChunks queryWords ?chunks] =>
      destruct (matchChunks queryWords chunks) as [matched | e] eqn:Hmatched
  end; simpl; [| discriminate].
  apply matchChunks_spec in Hmatched.
  destruct matched as [| m ms]; intros Hret; injection Hret as <-; [now left |].
  right. eexists. split; [reflexivity |]. split; [reflexivity |].
  pose proof (sort_permutation (descendingNat chunkScore) (m :: ms)) as Hperm.
  apply (relevant_result queryWords doc (sort (descendingNat chunkScore) (m :: ms))).
  - intros Hnil. rewrite Hnil in Hperm.
    apply Permutation_nil in Hperm. discriminate Hperm.
  - apply (Permutation_Forall (Permutation_sym Hperm)). exact Hmatched.
Qed.

Variable this : Service.

Lemma textSearch_returns (query : string) (limit : Z) (results : list TextResult) :
  textSearch this query limit = Return results ->
  exists found,
    results = slice (sort (descendingNat textScore) found) 0 limit
    /\ Subsequence (map textDoc found) (db_getAllDocuments this)
    /\ Forall (Relevant (queryWordsOf query)) found.
Proof.
  unfold textSearch. intros Hret.
  apply bind_return_inv in Hret as (found & Hloop & Hret).
  injection Hret as <-.
  apply for_of_appends
    with (origin := textDoc) (P := Relevant (queryWordsOf query)) in Hloop
    as (pushed & -> & Hsub & Hall).
  - exists pushed. simpl. repeat split; assumption.
  - intros acc doc acc'. apply scoreDocument_spec.
Qed.

End TextSearch.

Section UploadOrder.

Lemma compare_agrees (a b : string) :
  OrdersEx.String_as_OT.compare a b = String.compare a b.
Proof.
  revert b; induction a as [| x a IH]; intros [| y b]; reflexivity.
Qed.

Lemma ltb_asymmetric (a b : string) :
  String.ltb a b = true -> String.ltb b a = false.
Proof.
  unfold String.ltb. rewrite (String.compare_antisym b a).
  destruct (String.compare a b); simpl; congruence.
Qed.

Lemma not_ltb_iff (a b : string) :
  String.ltb a b = false <-> a = b \/ OrdersEx.String_as_OT.lt b a.
Proof.
  unfold String.ltb. rewrite <- compare_agrees.
  destruct (OrdersEx.String_as_OT.compare_spec a b) as [Heq | Hab | Hba].
  - split; [now left | reflexivity].
  - split; [discriminate |]. intros [-> | Hba]; exfalso.
    + revert Hab. apply irreflexivity.
    + apply (irreflexivity (R := OrdersEx.String_as_OT.lt) (x := a)).
      now transitivity b.
  - split; [now right | reflexivity].
Qed.

Lemma not_ltb_transitive (a b c : string) :
  String.ltb a b = false -> String.ltb b c = false -> String.ltb a c = false.
Proof.
  rewrite !not_ltb_iff. intros [-> | Hba] [-> | Hcb]; auto.
  right. now transitivity b.
Qed.

Lemma not_ltb_leb (a b : string) :
  String.ltb a b = false -> String.leb b a = true.
Proof.
  unfold String.ltb, String.leb. rewrite (String.compare_antisym b a).
  destruct (String.compare a b); simpl; congruence.
Qed.

Lemma strongly_sorted_map {A B : Type} (f : A -> B) (R0 : B -> B -> Prop)
  (xs : list A) :
  StronglySorted (fun a b => R0 (f a) (f b)) xs -> StronglySorted R0 (map f xs).
Proof.
  induction 1 as [| x xs _ IH Hx]; simpl; constructor; [exact IH |].
  rewrite Forall_forall in *. intros y Hy.
  apply in_map_iff in Hy as (z & <- & Hz). now apply Hx.
Qed.

Lemma getAllDocuments_newest_first (db : Database.State) :
  NewestFirst (Database.getAllDocuments db).
Proof.
  unfold NewestFirst, Database.getAllDocuments, Database.orderByUploadedAtDesc.
  apply strongly_sorted_map. simpl.
  eapply strongly_sorted_impl; [| apply sort_sorted].
  - intros a b Hab. apply not_ltb_leb. exact Hab.
  - intros x y. apply ltb_asymmetric.
  - intros x y z. apply not_ltb_transitive.
Qed.

End UploadOrder.

(* ================================================================== *)
(** * The document backend: the claims *)
(* ================================================================== *)

Section DocumentClaims.

Import JS.
Import SearchService.

(** The fallback of [search].  When the provider is absent ([this.openai]
    is null), when the embedding request fails, or when the semantic
    search throws, [search] resolves to exactly what [textSearch] resolves
    to: its results when it returns some, and the empty array when it finds
    nothing.  The failure of the provider is never what [search] throws. *)
Theorem search_degrades_to_text_search `{RegExpEngine} (this : Service)
  (query : string) (limit : Z) :
  openai this = None
  \/ generateEmbedding this query = None
  \/ (exists e, semanticSearch this query limit = Throw e) ->
  search this query limit = lexically this query limit
  /\ (forall results,
        textSearch this query limit = Return results ->
        search this query limit = Return (Lexical results))
  /\ (textSearch this query limit = Return [] ->
      search this query limit = Return (Lexical [])).
Proof.
  intros Hfailed.
  assert (Hnone : generateEmbedding this query = None).
  { destruct Hfailed as [Habsent | [Hnone | Hthrows]].
    - now apply generateEmbedding_absent.
    - exact Hnone.
    - now apply (semanticSearch_throws this query limit). }
  assert (Hsearch : search this query limit = lexically this query limit).
  { rewrite search_unfold, Hnone. reflexivity. }
  split; [exact Hsearch |].
  assert (Hresults : forall results,
             textSearch this query limit = Return results ->
             search this query limit = Return (Lexical results)).
  { intros results Htext. rewrite Hsearch. unfold lexically. now rewrite Htext. }
  split; [exact Hresults | apply Hresults].
Qed.

Lemma search_degrades_to_text_search_witness :
  @search rejecting (over twoUploads None) "cat" 10
  = @lexically rejecting (over twoUploads None) "cat" 10
  /\ (forall results,
        @textSearch rejecting (over twoUploads None) "cat" 10 = Return results ->
        @search rejecting (over twoUploads None) "cat" 10 = Return (Lexical results))
  /\ (@textSearch rejecting (over twoUploads None) "cat" 10 = Return [] ->
      @search rejecting (over twoUploads None) "cat" 10 = Return (Lexical [])).
Proof.
  apply (@search_degrades_to_text_search rejecting (over twoUploads None) "cat" 10).
  left. reflexivity.
Defined.


End DocumentClaims.

Section DocumentExamples.

Import JS.
Import SearchService.





End DocumentExamples.

(* ================================================================== *)
(** * The cosine on binary64 numbers *)
(* ================================================================== *)

Section CosineOfNumbers.

Import Binary64.
















End CosineOfNumbers.

Section RankingClaim.

Import JS.
Import SearchService.

Context `{RegExpEngine}.

Lemma ranked_semantic (this : Service) (query : string) (limit : Z)
  (results : list SemanticResult) :
  (0 <= limit)%Z ->
  semanticSearch this query limit = Return results ->
  Ranked (db_getAllDocuments this) limit (Semantic results).
Proof.
  intros Hlimit Hret.
  apply semanticSearch_returns in Hret as (queryEmbedding & _ & ->).
  destruct (similarDocuments_spec queryEmbedding (db_getAllDocuments this))
    as (Hsub & _).
  set (found := similarDocuments queryEmbedding (db_getAllDocuments this)) in *.
  split; [now apply slice_prefix_length |].
  split.
  - apply strongly_sorted_subsequence
      with (ys := sort (descendingR similarity) found).
    + apply subsequence_slice.
    + apply sort_descendingR_sorted.
  - intros s.
    apply subsequence_trans with (ys := map semanticDoc found); [| exact Hsub].
    apply subsequence_map.
    apply subsequence_trans
      with (ys := filter (fun x => if Req_dec_T (similarity x) s then true else false)
                         (sort (descendingR similarity) found)).
    + apply subsequence_filter_mono, subsequence_slice.
    + rewrite sort_descendingR_ties. apply subsequence_filter.
Qed.

Lemma ranked_lexical (this : Service) (query : string) (limit : Z)
  (results : list TextResult) :
  (0 <= limit)%Z ->
  textSearch this query limit = Return results ->
  Ranked (db_getAllDocuments this) limit (Lexical results).
Proof.
  intros Hlimit Hret.
  apply textSearch_returns in Hret as (found & -> & Hsub & _).
  split; [now apply slice_prefix_length |].
  split.
  - apply strongly_sorted_subsequence
      with (ys := sort (descendingNat textScore) found).
    + apply subsequence_slice.
    + apply sort_descendingNat_sorted.
  - intros s.
    apply subsequence_trans with (ys := map textDoc found); [| exact Hsub].
    apply subsequence_map.
    apply subsequence_trans
      with (ys := filter (fun x => textScore x =? s)
                         (sort (descendingNat textScore) found)).
    + apply subsequence_filter_mono, subsequence_slice.
    + rewrite sort_descendingNat_ties. apply subsequence_filter.
Qed.

(** C9, as amended.  For a limit that is not negative, [search] resolves to
    at most [limit] results in order of non-increasing score, and results
    of equal score stand in the order in which [getAllDocuments] returned
    their documents; the [Database] of the repository returns them by
    [uploaded_at] descending, the most recent upload first. *)
Theorem search_results_are_ranked (this : Service) (query : string) (limit : Z)
  (out : SearchResults) :
  (0 <= limit)%Z ->
  search this query limit = Return out ->
  Ranked (db_getAllDocuments this) limit out
  /\ (forall db client, this = over db client ->
        NewestFirst (db_getAllDocuments this)).
Proof.
  intros Hlimit Hret. split.
  - rewrite search_unfold in Hret.
    destruct (generateEmbedding this query).
    + unfold semantically in Hret.
      apply bind_return_inv in Hret as (results & Hsem & Hout).
      injection Hout as <-. now apply ranked_semantic with query.
    + unfold lexically in Hret.
      apply bind_return_inv in Hret as (results & Htext & Hout).
      injection Hout as <-. now apply ranked_lexical with query.
  - intros db client ->. apply getAllDocuments_newest_first.
Qed.

End RankingClaim.

Section RankingExamples.

Import JS.
Import SearchService.

Lemma twoUploads_cats :
  @search rejecting (over twoUploads None) "cat" 10 = Return catsOfTwoUploads.
Proof. vm_compute. reflexivity. Qed.

Lemma search_results_are_ranked_witness :
  Ranked (db_getAllDocuments (over twoUploads None)) 10 catsOfTwoUploads
  /\ (forall db client, over twoUploads None = over db client ->
        NewestFirst (db_getAllDocuments (over twoUploads None))).
Proof.
  apply (@search_results_are_ranked rejecting (over twoUploads None) "cat" 10
           catsOfTwoUploads).
  - lia.
  - exact twoUploads_cats.
Defined.

(** C9, as stated, fails: a.txt was inserted before b.txt and both score 1
    for "cat", yet b.txt, the later upload, stands first. *)
Lemma ties_do_not_follow_insertion_order :
  exists first second,
    @search rejecting (over twoUploads None) "cat" 10
    = Return (Lexical [first; second])
    /\ textScore first = textScore second
    /\ Database.id (textDoc first) = 2%Z
    /\ Database.id (textDoc second) = 1%Z
    /\ ~ InsertionOrderOnTies [first; second].
Proof.
  do 2 eexists. split; [vm_compute; reflexivity |].
  repeat split.
  intros Hsorted. inversion Hsorted as [| ? ? _ Hhead]; subst.
  inversion Hhead as [| ? ? Hlt _]; subst.
  specialize (Hlt eq_refl). simpl in Hlt. lia.
Qed.

End RankingExamples.

(* ================================================================== *)
(** * Facts about strings: white space, trimming and splitting *)
(* ================================================================== *)

Section WhiteSpace.

Import JS.

Lemma nonWhiteSpace_append (s t : string) :
  nonWhiteSpace (s ++ t) = nonWhiteSpace s + nonWhiteSpace t.
Proof. induction s as [| c s IH]; simpl; [reflexivity | rewrite IH; lia]. Qed.

Lemma nonWhiteSpace_le_length (s : string) : nonWhiteSpace s <= String.length s.
Proof.
  induction s as [| c s IH]; simpl; [lia |].
  destruct (isWhiteSpace c); lia.
Qed.

Lemma nonWhiteSpace_positive_truthy (s : string) :
  0 < nonWhiteSpace s -> truthy s = true.
Proof. destruct s; simpl; [lia | reflexivity]. Qed.

Lemma nonWhiteSpace_trimStart (s : string) :
  nonWhiteSpace (trimStart s) = nonWhiteSpace s.
Proof.
  induction s as [| c s IH]; simpl; [reflexivity |].
  destruct (isWhiteSpace c) eqn:Hc; simpl; [exact IH | now rewrite Hc].
Qed.

Lemma nonWhiteSpace_trimEnd (s : string) :
  nonWhiteSpace (trimEnd s) = nonWhiteSpace s.
Proof.
  induction s as [| c s IH]; simpl; [reflexivity |].
  destruct (trimEnd s) as [| d kept] eqn:Hkept.
  - simpl in IH. rewrite <- IH.
    destruct (isWhiteSpace c) eqn:Hc; simpl; rewrite ?Hc; reflexivity.
  - change (nonWhiteSpace (String c (String d kept)))
      with ((if isWhiteSpace c then 0 else 1) + nonWhiteSpace (String d kept)).
    now rewrite IH.
Qed.

Lemma nonWhiteSpace_trim (s : string) : nonWhiteSpace (trim s) = nonWhiteSpace s.
Proof. unfold trim. now rewrite nonWhiteSpace_trimEnd, nonWhiteSpace_trimStart. Qed.

Lemma trimEnd_blank (s : string) : nonWhiteSpace s = 0 -> trimEnd s = "".
Proof.
  induction s as [| c s IH]; simpl; [reflexivity |].
  destruct (isWhiteSpace c); [| discriminate].
  intros Hs. now rewrite IH.
Qed.

Lemma trimStart_head (s : string) :
  trimStart s = "" \/ exists c rest, trimStart s = String c rest /\ isWhiteSpace c = false.
Proof.
  induction s as [| c s IH]; simpl; [now left |].
  destruct (isWhiteSpace c) eqn:Hc; [exact IH |].
  right. now exists c, s.
Qed.

(** The length of the trimmed string is below 2 exactly when fewer than 2
    code units are not white space. *)
Lemma trim_short_iff (s : string) :
  String.length (trim s) < 2 <-> nonWhiteSpace s < 2.
Proof.
  split.
  - intros Hshort. rewrite <- nonWhiteSpace_trim.
    pose proof (nonWhiteSpace_le_length (trim s)). lia.
  - intros Hfew. unfold trim.
    rewrite <- nonWhiteSpace_trimStart in Hfew.
    destruct (trimStart_head s) as [Hhead | (c & rest & Hhead & Hc)];
      rewrite Hhead in *; [simpl; lia |].
    cbn [nonWhiteSpace] in Hfew. rewrite Hc in Hfew.
    cbn [trimEnd]. rewrite (trimEnd_blank rest) by lia.
    rewrite Hc. simpl. lia.
Qed.

(** The trimmed string is empty exactly when every code unit is white space. *)
Lemma trim_empty_iff (s : string) :
  String.length (trim s) = 0 <-> nonWhiteSpace s = 0.
Proof.
  split.
  - intros Hempty. rewrite <- nonWhiteSpace_trim.
    pose proof (nonWhiteSpace_le_length (trim s)). lia.
  - intros Hblank. unfold trim.
    rewrite (trimEnd_blank (trimStart s)); [reflexivity |].
    now rewrite nonWhiteSpace_trimStart.
Qed.

Lemma isWhiteSpace_lowerChar (c : ascii) :
  isWhiteSpace (lowerChar c) = isWhiteSpace c.
Proof. destruct c as [[] [] [] [] [] [] [] []]; reflexivity. Qed.

Lemma nonWhiteSpace_toLowerCase (s : string) :
  nonWhiteSpace (toLowerCase s) = nonWhiteSpace s.
Proof.
  induction s as [| c s IH]; simpl; [reflexivity |].
  now rewrite isWhiteSpace_lowerChar, IH.
Qed.

Lemma splitLoop_nonempty (cur : list ascii) (inRun : bool) (s : string) :
  splitLoop cur inRun s <> [].
Proof.
  revert cur inRun; induction s as [| c s IH]; intros cur inRun; simpl;
    [discriminate |].
  destruct (isWhiteSpace c); [destruct inRun |]; try apply IH; discriminate.
Qed.

Lemma length_string_of_list_ascii (l : list ascii) :
  String.length (string_of_list_ascii l) = List.length l.
Proof. induction l as [| c l IH]; simpl; [reflexivity | now rewrite IH]. Qed.

(** No piece is longer than the number of units that are not white space. *)
Lemma splitLoop_piece_length (s : string) (cur : list ascii) (inRun : bool)
  (piece : string) :
  In piece (splitLoop cur inRun s) ->
  String.length piece <= List.length cur + nonWhiteSpace s.
Proof.
  revert cur inRun; induction s as [| c s IH]; intros cur inRun; simpl.
  - intros [<- | []]. rewrite length_string_of_list_ascii, length_rev. lia.
  - destruct (isWhiteSpace c).
    + destruct inRun; simpl.
      * apply IH.
      * intros [<- | Hin].
        -- rewrite length_string_of_list_ascii, length_rev. lia.
        -- apply IH in Hin. simpl in Hin. lia.
    + intros Hin. apply IH in Hin. simpl in Hin. lia.
Qed.

Lemma nonWhiteSpace_string_of_list_ascii_app (l : list ascii) (c : ascii) :
  nonWhiteSpace (string_of_list_ascii (l ++ [c]))
  = nonWhiteSpace (string_of_list_ascii l) + (if isWhiteSpace c then 0 else 1).
Proof.
  induction l as [| d l IH]; simpl; [lia |]. rewrite IH. lia.
Qed.

Lemma concat_cons (sep piece : string) (pieces : list string) :
  pieces <> [] ->
  String.concat sep (piece :: pieces)
  = (piece ++ sep ++ String.concat sep pieces)%string.
Proof. destruct pieces; [congruence | reflexivity]. Qed.

(** Joining the pieces with single spaces loses no unit that is not white
    space. *)
Lemma nonWhiteSpace_join_split (s : string) (cur : list ascii) (inRun : bool) :
  nonWhiteSpace (join (splitLoop cur inRun s) " ")
  = nonWhiteSpace (string_of_list_ascii (rev cur)) + nonWhiteSpace s.
Proof.
  unfold join.
  revert cur inRun; induction s as [| c s IH]; intros cur inRun; simpl.
  - lia.
  - destruct (isWhiteSpace c) eqn:Hc.
    + destruct inRun.
      * apply IH.
      * rewrite concat_cons by apply splitLoop_nonempty.
        rewrite !nonWhiteSpace_append, IH. simpl. lia.
    + rewrite IH. simpl rev.
      rewrite nonWhiteSpace_string_of_list_ascii_app, Hc. lia.
Qed.

End WhiteSpace.

(* ================================================================== *)
(** * The two chunkers *)
(* ================================================================== *)

Section Chunkers.

Import JS.

Lemma splitWhiteSpace_nonempty (text : string) :
  (1 <= Z.of_nat (List.length (splitWhiteSpace text)))%Z.
Proof.
  pose proof (splitLoop_nonempty [] false text) as Hne.
  unfold splitWhiteSpace. destruct (splitLoop [] false text); [congruence |].
  simpl List.length. lia.
Qed.

Lemma join_split_truthy (text : string) :
  0 < nonWhiteSpace text ->
  truthy (trim (join (splitWhiteSpace text) " ")) = true.
Proof.
  intros Htext. apply nonWhiteSpace_positive_truthy.
  rewrite nonWhiteSpace_trim. unfold splitWhiteSpace.
  rewrite nonWhiteSpace_join_split. simpl. exact Htext.
Qed.

(** The word chunker on a text whose words all fit in one step. *)
Lemma splitTextIntoChunks_single (text : string) (chunkSize overlap : Z) :
  0 < nonWhiteSpace text ->
  (0 <= overlap)%Z ->
  (Z.of_nat (List.length (splitWhiteSpace text)) <= chunkSize - overlap)%Z ->
  SearchService.splitTextIntoChunks text chunkSize overlap
  = Some [join (splitWhiteSpace text) " "].
Proof.
  intros Htext Hoverlap Hfits.
  pose proof (splitWhiteSpace_nonempty text) as Hwords.
  unfold SearchService.splitTextIntoChunks.
  remember (splitWhiteSpace text) as words eqn:Hdef.
  destruct (List.length words) as [| fuel] eqn:Hlen; [lia |].
  cbn [SearchService.chunkLoop].
  rewrite Hlen.
  replace (0 <? Z.of_nat (S fuel))%Z with true by (symmetry; apply Z.ltb_lt; lia).
  rewrite Z.add_0_l.
  assert (Hnext : SearchService.chunkLoop fuel words chunkSize
                    (chunkSize - overlap) (chunkSize - overlap) = Some []).
  { destruct fuel; cbn [SearchService.chunkLoop]; rewrite Hlen;
      replace (chunkSize - overlap <? Z.of_nat _)%Z with false
        by (symmetry; apply Z.ltb_ge; lia); reflexivity. }
  rewrite Hnext.
  rewrite slice_prefix by lia.
  rewrite firstn_all2 by lia.
  subst words. now rewrite join_split_truthy.
Qed.

(** The character chunker on a text that fits in one chunk. *)
Lemma splitIntoChunks_single (text : string) (chunkSize overlap : Z) :
  text <> "" ->
  (length (DocumentProcessor.cleanTextOf text) <= chunkSize)%Z ->
  DocumentProcessor.splitIntoChunks text chunkSize overlap
  = Some [DocumentProcessor.cleanTextOf text].
Proof.
  intros Htext Hfits. unfold DocumentProcessor.splitIntoChunks.
  destruct text as [| c rest]; [congruence |].
  cbn [truthy negb orb String.length Nat.eqb].
  apply Z.leb_le in Hfits. now rewrite Hfits.
Qed.

(** C7, as amended.  The character chunker ([splitIntoChunks]) returns, for
    a non-empty text whose normalized, trimmed content is no longer than
    the chunk size, exactly one chunk: that content.  The word chunker
    ([splitTextIntoChunks]) returns, for a text that is not blank, with an
    overlap that is not negative and no more words than
    [chunkSize - overlap], exactly one chunk: the pieces of
    [text.split(/\s+/)] joined by single spaces. *)
Theorem short_text_is_one_chunk (text : string) (chunkSize overlap : Z) :
  (text <> "" ->
   (length (DocumentProcessor.cleanTextOf text) <= chunkSize)%Z ->
   DocumentProcessor.splitIntoChunks text chunkSize overlap
   = Some [DocumentProcessor.cleanTextOf text])
  /\ (0 < nonWhiteSpace text ->
      (0 <= overlap)%Z ->
      (Z.of_nat (List.length (splitWhiteSpace text)) <= chunkSize - overlap)%Z ->
      SearchService.splitTextIntoChunks text chunkSize overlap
      = Some [join (splitWhiteSpace text) " "]).
Proof.
  split.
  - apply splitIntoChunks_single.
  - apply splitTextIntoChunks_single.
Qed.

Lemma short_text_is_one_chunk_witness :
  DocumentProcessor.splitIntoChunks "Hello,  world " 1000 100 = Some ["Hello, world"]
  /\ SearchService.splitTextIntoChunks "Hello,  world" 1000 100
     = Some ["Hello, world"].
Proof.
  destruct (short_text_is_one_chunk "Hello,  world " 1000 100) as (Hchars & _).
  destruct (short_text_is_one_chunk "Hello,  world" 1000 100) as (_ & Hwords).
  split.
  - apply Hchars; [discriminate | vm_compute; discriminate].
  - apply Hwords; [vm_compute; lia | lia | vm_compute; discriminate].
Defined.

(** C7, as stated, fails on the word chunker.  A text of three words and
    five code units is shorter than a chunk size of ten, yet with an
    overlap of eight the loop takes a second step and returns two chunks.
    With the default sizes, 901 words are fewer than 1000 and the step of
    900 leaves a second chunk of one word; and the one chunk of a text
    that begins with a space begins with that space: it is not the
    trimmed input. *)
Lemma short_text_in_two_chunks :
  List.length (splitWhiteSpace "a b c") = 3
  /\ JS.length "a b c" = 5%Z
  /\ SearchService.splitTextIntoChunks "a b c" 10 8 = Some ["a b c"; "c"]
  /\ SearchService.splitTextIntoChunks "a b c" 10 8 <> Some [trim "a b c"]
  /\ List.length (splitWhiteSpace (wordsOf 901)) = 901
  /\ SearchService.splitTextIntoChunks (wordsOf 901) 1000 100
     = Some [wordsOf 901; "a"]
  /\ SearchService.splitTextIntoChunks " a" 1000 100 = Some [" a"]
  /\ SearchService.splitTextIntoChunks " a" 1000 100 <> Some [trim " a"].
Proof.
  repeat split; try discriminate; vm_compute; reflexivity.
Qed.

(** C6, at the failing input: for a text of one space the character
    chunker returns one chunk, and that chunk is empty. *)
Theorem splitIntoChunks_blank_text :
  nonWhiteSpace " " = 0
  /\ DocumentProcessor.splitIntoChunks " " 1000 100 = Some [""]
  /\ trim "" = "".
Proof. repeat split. Qed.

End Chunkers.

(* ================================================================== *)
(** * The chunk backend: fetching and re-ranking *)
(* ================================================================== *)

Section ChunkSearch.

Import JS.
Import ChunkSearchService.

Context `{RegExpEngine}.

(** A loop whose body pushes one item per element. *)
Lemma for_of_maps {A B : Type} (body : list B -> A -> Outcome (list B))
  (origin : B -> A) (P : B -> Prop) :
  (forall acc x acc', body acc x = Return acc' ->
     exists b, acc' = acc ++ [b] /\ origin b = x /\ P b) ->
  forall xs acc out,
    for_of xs body acc = Return out ->
    exists pushed,
      out = acc ++ pushed /\ map origin pushed = xs /\ Forall P pushed.
Proof.
  intros Hbody xs; induction xs as [| x xs IH]; simpl; intros acc out Hout.
  - injection Hout as <-. exists []. rewrite app_nil_r.
    repeat split. constructor.
  - apply bind_return_inv in Hout as (acc' & Hstep & Hrest).
    apply IH in Hrest as (pushed & -> & Hmap & Hall).
    apply Hbody in Hstep as (b & -> & <- & Hb).
    exists (b :: pushed). rewrite <- app_assoc. simpl.
    repeat split; [now rewrite Hmap | now constructor].
Qed.

Lemma calculateRelevanceScore_nonnegative (query content : string) (relevance : R) :
  calculateRelevanceScore query content = Return relevance ->
  (0 <= relevance)%R.
Proof.
  unfold calculateRelevanceScore. intros Hret.
  apply bind_return_inv in Hret as (score & _ & Hret).
  injection Hret as <-.
  destruct (0 <? List.length (splitWhiteSpace (toLowerCase content))) eqn:Hwords.
  - apply Nat.ltb_lt in Hwords.
    apply Rmult_le_pos; [apply pos_INR |].
    apply Rlt_le, Rinv_0_lt_compat, sqrt_lt_R0, lt_0_INR. exact Hwords.
  - apply pos_INR.
Qed.

Lemma enhance_spec {S : Type} (query : string) (results : list (Scored S))
  (out : list (Enhanced S)) :
  enhance query results = Return out ->
  Permutation (map result out) results
  /\ NonIncreasingR relevanceScore out
  /\ Forall (EnhancedFor query) out.
Proof.
  unfold enhance. intros Hret.
  apply bind_return_inv in Hret as (enhancedResults & Hloop & Hret).
  injection Hret as <-.
  apply for_of_maps with (origin := result) (P := EnhancedFor query) in Hloop
    as (pushed & -> & Hmap & Hall).
  - simpl. split; [| split].
    + rewrite <- Hmap. apply Permutation_map, sort_permutation.
    + apply sort_descendingR_sorted.
    + apply (Permutation_Forall (Permutation_sym (sort_permutation _ pushed))).
      exact Hall.
  - intros acc candidate acc' Hstep.
    apply bind_return_inv in Hstep as (relevance & Hrelevance & Hstep).
    injection Hstep as <-.
    eexists. split; [reflexivity |]. split; [reflexivity |].
    exists relevance. simpl. auto.
Qed.

Lemma basicContentSearch_positive (this : Service) (query : string) (limit : Z) :
  Forall (fun candidate => 0 < score candidate)
         (basicContentSearch this query limit).
Proof.
  unfold basicContentSearch. rewrite Forall_forall. intros candidate Hin.
  apply in_slice, in_sort, filter_In in Hin as (_ & Hpos).
  now apply Nat.ltb_lt.
Qed.

Lemma chunk_search_unfold (this : Service) (query : string) (limit : Z) :
  search this query limit =
  match generateEmbedding this query with
  | Some queryEmbedding =>
      enhancedResults <-
        enhance query (searchBySimilarity (db this) queryEmbedding limit) ;;
      Return (BySimilarity enhancedResults)
  | None =>
      enhancedResults <- enhance query (basicContentSearch this query limit) ;;
      Return (ByContent enhancedResults)
  end.
Proof. unfold search. apply try_catch_rethrow. Qed.

(** The chunk backend always ranks by the lexical [relevanceScore], whatever
    fetched the candidates: every fetched candidate is kept, and the order
    is by non-increasing [relevanceScore]. *)
Lemma chunk_search_reranks (this : Service) (query : string) (limit : Z)
  (out : SearchResults) :
  search this query limit = Return out ->
  match out with
  | BySimilarity results =>
      exists queryEmbedding,
        generateEmbedding this query = Some queryEmbedding
        /\ Permutation (map result results)
             (searchBySimilarity (db this) queryEmbedding limit)
        /\ NonIncreasingR relevanceScore results
  | ByContent results =>
      generateEmbedding this query = None
      /\ Permutation (map result results) (basicContentSearch this query limit)
      /\ NonIncreasingR relevanceScore results
  end.
Proof.
  rewrite chunk_search_unfold.
  destruct (generateEmbedding this query) as [queryEmbedding |]; intros Hret;
    apply bind_return_inv in Hret as (results & Henhance & Hret);
    injection Hret as <-;
    apply enhance_spec in Henhance as (Hperm & Hsorted & _).
  - exists queryEmbedding. auto.
  - auto.
Qed.

End ChunkSearch.

Section ChunkExamples.

Import JS.
Import ChunkSearchService.

Lemma round_integer (z : Z) : round (IZR z) = IZR z.
Proof. unfold round. f_equal. symmetry. apply Int_part_spec. lra. Qed.

Lemma rounded_relevance (raw : nat) :
  (round (INR raw * 100) / 100)%R = INR raw.
Proof. rewrite INR_IZR_INZ, <- mult_IZR, round_integer, mult_IZR. field. Qed.

(** The relevance of a content of one word is its raw score. *)
Lemma relevance_of_raw `{RegExpEngine} (query content : string) (raw : nat) :
  rawScore query content = Return raw ->
  List.length (splitWhiteSpace (toLowerCase content)) = 1 ->
  calculateRelevanceScore query content = Return (INR raw).
Proof.
  intros Hraw Hwords. unfold calculateRelevanceScore.
  rewrite Hraw, Hwords. cbn [bind Nat.ltb Nat.leb].
  f_equal. change (INR 1) with 1%R. rewrite sqrt_1. field.
Qed.

Lemma keyword_search :
  @search rejecting keywordService "is xx" 10 = Return (ByContent [keywordHit]).
Proof.
  rewrite chunk_search_unfold.
  change (generateEmbedding keywordService "is xx") with (@None string).
  replace (basicContentSearch keywordService "is xx" 10)
    with [result keywordHit] by (vm_compute; reflexivity).
  unfold enhance. cbn [for_of result keywordHit row content chunkOf].
  rewrite (@relevance_of_raw rejecting "is xx" "this" 0)
    by (vm_compute; reflexivity).
  cbn [bind app].
  reflexivity.
Qed.

Lemma similarity_dog : similarityOf "[1]" dogChunk = 1%R.
Proof.
  unfold similarityOf.
  replace (includes (sqlLower (content dogChunk)) (sqlLower (substring "[1]" 0 20)))
    with false by (vm_compute; reflexivity).
  replace (JS.length (content dogChunk) - JS.length "[1]")%Z with 0%Z
    by (vm_compute; reflexivity).
  simpl Z.abs. field.
Qed.

Lemma similarity_cat : similarityOf "[1]" catChunk = (1 / 4)%R.
Proof.
  unfold similarityOf.
  replace (includes (sqlLower (content catChunk)) (sqlLower (substring "[1]" 0 20)))
    with false by (vm_compute; reflexivity).
  replace (JS.length (content catChunk) - JS.length "[1]")%Z with 3%Z
    by (vm_compute; reflexivity).
  simpl Z.abs. field.
Qed.

Lemma fetched_by_similarity :
  searchBySimilarity (db embeddingService) "[1]" 10
  = [ {| row := dogChunk; score := Some (similarityOf "[1]" dogChunk) |};
      {| row := catChunk; score := Some (similarityOf "[1]" catChunk) |} ].
Proof.
  unfold searchBySimilarity.
  cbn [truthy negb].
  change (substring "[1]" 0 100) with "[1]".
  change (joined (db embeddingService)) with [dogChunk; catChunk].
  cbn [sort fold_right insertSorted].
  replace (descendingR (similarityOf "[1]") dogChunk catChunk) with false.
  - reflexivity.
  - symmetry. apply descendingR_false.
    rewrite similarity_dog, similarity_cat. lra.
Qed.

Lemma embedding_search :
  @search rejecting embeddingService "cat" 10
  = Return (BySimilarity [catHit; dogHit]).
Proof.
  rewrite chunk_search_unfold.
  change (generateEmbedding embeddingService "cat") with (Some "[1]").
  cbv beta iota.
  rewrite fetched_by_similarity.
  unfold enhance. cbn [for_of row content dogChunk catChunk chunkOf].
  rewrite (@relevance_of_raw rejecting "cat" "dog" 0) by (vm_compute; reflexivity).
  cbn [bind app].
  rewrite (@relevance_of_raw rejecting "cat" "catcat" 12) by (vm_compute; reflexivity).
  cbn [bind app sort fold_right insertSorted].
  change (createExcerpt "dog" "cat" 200) with "dog".
  change (createExcerpt "catcat" "cat" 200) with "catcat".
  fold (chunkOf "c1" "dog" 0) (chunkOf "c2" "catcat" 1).
  fold dogChunk catChunk. fold dogHit catHit.
  replace (descendingR relevanceScore dogHit catHit) with true; [reflexivity |].
  unfold descendingR, dogHit, catHit. cbn [relevanceScore].
  rewrite !rounded_relevance.
  destruct (Rlt_dec (INR 0) (INR 12)) as [_ | Hge]; [reflexivity |].
  exfalso. apply Hge. apply lt_INR. lia.
Qed.

End ChunkExamples.

(* ================================================================== *)
(** * Claims about both backends *)
(* ================================================================== *)

Section TextScores.

Import JS.
Import SearchService.

Context `{RegExpEngine}.

(** Every result of the lexical path has a positive overall score and only
    chunks of positive score. *)
Lemma textSearch_relevant (this : Service) (query : string) (limit : Z)
  (results : list TextResult) :
  textSearch this query limit = Return results ->
  Forall (Relevant (queryWordsOf query)) results.
Proof.
  intros Hret.
  apply textSearch_returns in Hret as (found & -> & _ & Hall).
  apply forall_subsequence with (ys := sort (descendingNat textScore) found).
  - apply subsequence_slice.
  - apply (Permutation_Forall (Permutation_sym (sort_permutation _ found))).
    exact Hall.
Qed.

End TextScores.

Section ModeClaim.

Import JS.

(** C3, as amended.  [search] of the document backend resolves to exactly
    the array of [semanticSearch], each score the cosine similarity of a
    stored document to the query embedding, when that embedding was
    produced, and to exactly the array of [textSearch], each score a sum
    of match counts, when it was not: the two are never mixed.  [search] of
    the chunk backend fetches the candidates by similarity, or by substring
    count when no embedding is produced, keeps every one of them and orders
    them by the lexical [relevanceScore]. *)
Theorem search_serves_one_mode :
  (forall (E : RegExpEngine) (this : SearchService.Service) (query : string)
          (limit : Z) (out : SearchService.SearchResults),
     SearchService.search this query limit = Return out ->
     (exists results queryEmbedding,
        out = SearchService.Semantic results
        /\ SearchService.semanticSearch this query limit = Return results
        /\ SearchService.generateEmbedding this query = Some queryEmbedding
        /\ forall r, In r results ->
             exists stored,
               Database.embedding (SearchService.semanticDoc r) = Some stored
               /\ SearchService.similarity r
                  = SearchService.cosineSimilarity (Some queryEmbedding) (Some stored))
     \/ (exists results,
           out = SearchService.Lexical results
           /\ SearchService.textSearch this query limit = Return results
           /\ SearchService.generateEmbedding this query = None
           /\ Forall (Relevant (SearchService.queryWordsOf query)) results))
  /\ (forall (E : RegExpEngine) (this : ChunkSearchService.Service) (query : string)
             (limit : Z) (out : ChunkSearchService.SearchResults),
        ChunkSearchService.search this query limit = Return out ->
        match out with
        | ChunkSearchService.BySimilarity results =>
            exists queryEmbedding,
              ChunkSearchService.generateEmbedding this query = Some queryEmbedding
              /\ Permutation (map ChunkSearchService.result results)
                   (DatabaseService.searchBySimilarity
                      (ChunkSearchService.db this) queryEmbedding limit)
              /\ NonIncreasingR ChunkSearchService.relevanceScore results
        | ChunkSearchService.ByContent results =>
            ChunkSearchService.generateEmbedding this query = None
            /\ Permutation (map ChunkSearchService.result results)
                 (ChunkSearchService.basicContentSearch this query limit)
            /\ NonIncreasingR ChunkSearchService.relevanceScore results
        end).
Proof.
  split.
  - intros E this query limit out Hret.
    rewrite search_unfold in Hret.
    destruct (SearchService.generateEmbedding this query) as [queryEmbedding |]
      eqn:Hembed.
    + left. unfold SearchService.semantically in Hret.
      apply bind_return_inv in Hret as (results & Hsem & Hout).
      injection Hout as <-.
      exists results, queryEmbedding. repeat split; try assumption.
      destruct (semanticSearch_scores this query limit results Hsem)
        as (queryEmbedding' & Hembed' & Hscores).
      rewrite Hembed in Hembed'. injection Hembed' as <-.
      intros r Hin. destruct (Hscores r Hin) as (_ & stored & Hstored & Hsim & _).
      now exists stored.
    + right. unfold SearchService.lexically in Hret.
      apply bind_return_inv in Hret as (results & Htext & Hout).
      injection Hout as <-.
      exists results. repeat split; try assumption.
      now apply textSearch_relevant with this limit.
  - intros E this query limit out. apply chunk_search_reranks.
Qed.

Lemma search_serves_one_mode_witness :
  ((exists results queryEmbedding,
      catsOfTwoUploads = SearchService.Semantic results
      /\ SearchService.semanticSearch (SearchService.over twoUploads None) "cat" 10
         = Return results
      /\ SearchService.generateEmbedding (SearchService.over twoUploads None) "cat"
         = Some queryEmbedding
      /\ forall r, In r results ->
           exists stored,
             Database.embedding (SearchService.semanticDoc r) = Some stored
             /\ SearchService.similarity r
                = SearchService.cosineSimilarity (Some queryEmbedding) (Some stored))
   \/ (exists results,
         catsOfTwoUploads = SearchService.Lexical results
         /\ @SearchService.textSearch rejecting (SearchService.over twoUploads None)
              "cat" 10 = Return results
         /\ SearchService.generateEmbedding (SearchService.over twoUploads None) "cat"
            = None
         /\ Forall (@Relevant rejecting (SearchService.queryWordsOf "cat")) results))
  /\ (exists queryEmbedding,
        ChunkSearchService.generateEmbedding embeddingService "cat" = Some queryEmbedding
        /\ Permutation (map ChunkSearchService.result [catHit; dogHit])
             (DatabaseService.searchBySimilarity
                (ChunkSearchService.db embeddingService) queryEmbedding 10)
        /\ NonIncreasingR ChunkSearchService.relevanceScore [catHit; dogHit]).
Proof.
  destruct search_serves_one_mode as (Hdocuments & Hchunks).
  split.
  - apply (Hdocuments rejecting (SearchService.over twoUploads None) "cat" 10%Z).
    exact twoUploads_cats.
  - apply (Hchunks rejecting embeddingService "cat" 10%Z
             (ChunkSearchService.BySimilarity [catHit; dogHit])).
    exact embedding_search.
Defined.

(** C3, as stated, fails on the chunk backend: "dog" is fetched with
    similarity 1 and "catcat" with similarity 1/4, and the list answers
    "catcat" first, because its lexical relevance is 12 against 0. *)
Lemma similarity_list_ranked_by_relevance :
  @ChunkSearchService.search rejecting embeddingService "cat" 10
  = Return (ChunkSearchService.BySimilarity [catHit; dogHit])
  /\ DatabaseService.score (ChunkSearchService.result catHit) = Some (1 / 4)%R
  /\ DatabaseService.score (ChunkSearchService.result dogHit) = Some 1%R
  /\ ChunkSearchService.relevanceScore catHit = 12%R
  /\ ChunkSearchService.relevanceScore dogHit = 0%R
  /\ ~ RankedBySimilarity [catHit; dogHit].
Proof.
  split; [exact embedding_search |].
  split; [simpl; now rewrite similarity_cat |].
  split; [simpl; now rewrite similarity_dog |].
  split.
  { unfold catHit. cbn [ChunkSearchService.relevanceScore].
    rewrite rounded_relevance. simpl. lra. }
  split.
  { unfold dogHit. cbn [ChunkSearchService.relevanceScore].
    rewrite rounded_relevance. reflexivity. }
  intros Hsorted. inversion Hsorted as [| ? ? _ Hhead]; subst.
  inversion Hhead as [| ? ? Hle _]; subst.
  simpl in Hle. rewrite similarity_cat, similarity_dog in Hle. lra.
Qed.

End ModeClaim.

Section ScoreClaim.

Import JS.

(** C8, as amended.  Lexical scores are never negative.  [textSearch]
    returns only documents whose overall score is positive, each with
    chunks whose score under [scoreChunk] is positive; in the chunk backend
    [calculateRelevanceScore] is never negative and [basicContentSearch]
    returns only chunks with a positive substring score, but [search] keeps
    every fetched candidate whatever its [relevanceScore]. *)
Theorem zero_scores_are_excluded :
  (forall (E : RegExpEngine) (this : SearchService.Service) (query : string)
          (limit : Z) (results : list SearchService.TextResult),
     SearchService.textSearch this query limit = Return results ->
     Forall (Relevant (SearchService.queryWordsOf query)) results)
  /\ (forall (E : RegExpEngine) (query content : string) (relevance : R),
        ChunkSearchService.calculateRelevanceScore query content = Return relevance ->
        (0 <= relevance)%R)
  /\ (forall (this : ChunkSearchService.Service) (query : string) (limit : Z),
        Forall (fun candidate => 0 < DatabaseService.score candidate)
               (ChunkSearchService.basicContentSearch this query limit))
  /\ (forall (E : RegExpEngine) (this : ChunkSearchService.Service) (query : string)
             (limit : Z) (out : ChunkSearchService.SearchResults),
        ChunkSearchService.search this query limit = Return out ->
        match out with
        | ChunkSearchService.BySimilarity results =>
            exists queryEmbedding,
              ChunkSearchService.generateEmbedding this query = Some queryEmbedding
              /\ Permutation (map ChunkSearchService.result results)
                   (DatabaseService.searchBySimilarity
                      (ChunkSearchService.db this) queryEmbedding limit)
        | ChunkSearchService.ByContent results =>
            Permutation (map ChunkSearchService.result results)
              (ChunkSearchService.basicContentSearch this query limit)
        end).
Proof.
  split; [intros E this query limit results; apply textSearch_relevant |].
  split; [intros E query content relevance;
          apply calculateRelevanceScore_nonnegative |].
  split; [apply basicContentSearch_positive |].
  intros E this query limit out Hret.
  apply chunk_search_reranks in Hret.
  destruct out as [results | results].
  - destruct Hret as (queryEmbedding & Hembed & Hperm & _).
    now exists queryEmbedding.
  - now destruct Hret as (_ & Hperm & _).
Qed.

Lemma twoUploads_cat_text :
  @SearchService.textSearch rejecting (SearchService.over twoUploads None) "cat" 10
  = Return catTextResults.
Proof. vm_compute. reflexivity. Qed.

Lemma zero_scores_are_excluded_witness :
  Forall (@Relevant rejecting (SearchService.queryWordsOf "cat")) catTextResults
  /\ Permutation (map ChunkSearchService.result [keywordHit])
       (ChunkSearchService.basicContentSearch keywordService "is xx" 10).
Proof.
  destruct zero_scores_are_excluded as (Htext & _ & _ & Hkept).
  split.
  - apply (Htext rejecting (SearchService.over twoUploads None) "cat" 10%Z).
    exact twoUploads_cat_text.
  - apply (Hkept rejecting keywordService "is xx" 10%Z
             (ChunkSearchService.ByContent [keywordHit])).
    exact keyword_search.
Defined.

(** C8, as stated, fails on the chunk backend: the chunk "this" has
    relevance 0 for the query "is xx" and is returned all the same. *)
Lemma zero_relevance_is_returned :
  @ChunkSearchService.search rejecting keywordService "is xx" 10
  = Return (ChunkSearchService.ByContent [keywordHit])
  /\ @ChunkSearchService.calculateRelevanceScore rejecting "is xx" "this"
     = Return 0%R
  /\ ChunkSearchService.relevanceScore keywordHit = 0%R.
Proof.
  split; [exact keyword_search |]. split.
  - apply (@relevance_of_raw rejecting "is xx" "this" 0); vm_compute; reflexivity.
  - unfold keywordHit. cbn [ChunkSearchService.relevanceScore].
    rewrite rounded_relevance. reflexivity.
Qed.

End ScoreClaim.

Section ExcerptClaim.

Import JS.

(** C10, at the failing input.  The query "d" stands at index 3 of
    "abcdefghij"; with [maxLength = 5] the window is the first five units,
    from the very beginning of the text, and yet the excerpt is prefixed
    with the ellipsis, because [start] is 0.5. *)
Theorem createExcerpt_odd_length :
  indexOf (toLowerCase "abcdefghij") (toLowerCase "d") = 3%Z
  /\ ChunkSearchService.createExcerpt "abcdefghij" "d" 5 = "...abcde..."
  /\ substring "abcdefghij" 0 5 = "abcde".
Proof. repeat split. Qed.

End ExcerptClaim.

(* ================================================================== *)
(** * The two routes and short queries *)
(* ================================================================== *)

Section ShortQueries.

Import JS.
Import SearchService.

Context `{RegExpEngine}.

Lemma slice_nil {A : Type} (start end_ : Z) : slice (@nil A) start end_ = [].
Proof. unfold slice. now rewrite skipn_nil, firstn_nil. Qed.

Lemma semanticSearch_embedded (this : Service) (query : string) (limit : Z)
  (queryEmbedding : EmbeddingText) :
  generateEmbedding this query = Some queryEmbedding ->
  semanticSearch this query limit
  = Return (slice (sort (descendingR similarity)
                     (similarDocuments queryEmbedding (db_getAllDocuments this)))
                  0 limit).
Proof.
  intros Hembed. unfold semanticSearch.
  destruct (openai this) eqn:Hopen.
  - rewrite try_catch_rethrow. now rewrite Hembed.
  - unfold generateEmbedding in Hembed. rewrite Hopen in Hembed. discriminate.
Qed.

Lemma similarDocuments_without_embeddings (queryEmbedding : EmbeddingText)
  (documents : list Document) :
  Forall (fun doc => embedding doc = None) documents ->
  forall found,
    fold_left
      (fun results doc =>
         match embedding doc with
         | Some stored =>
             let sim := cosineSimilarity (Some queryEmbedding) (Some stored) in
             if Rlt_dec (1 / 10) sim
             then results ++ [ {| semanticDoc := doc; similarity := sim |} ]
             else results
         | None => results
         end)
      documents found
    = found.
Proof.
  intros Hall.
  induction Hall as [| doc documents Hdoc _ IH]; intros acc; simpl;
    [reflexivity |].
  rewrite Hdoc. apply IH.
Qed.

(** The rows of [getAllDocuments] carry no embedding. *)
Lemma getAllDocuments_without_embeddings (db : Database.State) :
  Forall (fun doc => embedding doc = None) (Database.getAllDocuments db).
Proof.
  unfold Database.getAllDocuments. rewrite Forall_forall. intros doc Hin.
  apply in_map_iff in Hin as (row & <- & _). reflexivity.
Qed.

Lemma queryWordsOf_short (query : string) :
  nonWhiteSpace query <= 2 -> queryWordsOf query = [].
Proof.
  intros Hfew. unfold queryWordsOf, splitWhiteSpace.
  assert (Hpieces : forall piece,
             In piece (splitLoop [] false (toLowerCase query)) ->
             (2 <? String.length piece) = false).
  { intros piece Hin. apply splitLoop_piece_length in Hin.
    rewrite nonWhiteSpace_toLowerCase in Hin. simpl in Hin.
    apply Nat.ltb_ge. lia. }
  induction (splitLoop [] false (toLowerCase query)) as [| piece pieces IH];
    simpl; [reflexivity |].
  rewrite Hpieces by now left.
  apply IH. intros other Hin. apply Hpieces. now right.
Qed.

Lemma matchChunks_no_words (textChunks : list string) (acc : list MatchedChunk) :
  for_of textChunks
    (fun (matchedChunks : list MatchedChunk) (chunk : string) =>
       ' (score, matched) <- scoreChunk [] chunk ;;
       Return (if 0 <? score
               then matchedChunks ++
                    [ {| text := chunk; chunkScore := score; matchedWords := matched |} ]
               else matchedChunks))
    acc
  = Return acc.
Proof.
  revert acc; induction textChunks as [| chunk textChunks IH]; intros acc; simpl;
    [reflexivity | apply IH].
Qed.

Lemma textSearch_no_words (this : Service) (query : string) (limit : Z) :
  queryWordsOf query = [] -> textSearch this query limit = Return [].
Proof.
  intros Hwords. unfold textSearch. rewrite Hwords.
  assert (Hloop : forall docs acc,
             for_of docs (scoreDocument []) acc = Return acc).
  { intros docs. induction docs as [| doc docs IH]; intros acc; simpl;
      [reflexivity |].
    unfold scoreDocument at 1.
    destruct (truthy (content doc)); [| apply IH].
    unfold matchChunks. rewrite matchChunks_no_words. simpl. apply IH. }
  rewrite Hloop. simpl. now rewrite slice_nil.
Qed.

(** Over the [Database] of the repository, a query with at most two units
    that are not white space finds nothing, on either path. *)
Lemma search_short_query (db : Database.State) (client : option OpenAI)
  (query : string) (limit : Z) :
  nonWhiteSpace query <= 2 ->
  exists results,
    search (over db client) query limit = Return results
    /\ (results = Semantic [] \/ results = Lexical []).
Proof.
  intros Hfew. rewrite search_unfold.
  destruct (generateEmbedding (over db client) query) as [queryEmbedding |]
    eqn:Hembed.
  - exists (Semantic []). split; [| now left].
    unfold semantically.
    rewrite (semanticSearch_embedded _ _ _ _ Hembed).
    unfold similarDocuments.
    rewrite similarDocuments_without_embeddings
      by apply getAllDocuments_without_embeddings.
    simpl. now rewrite slice_nil.
  - exists (Lexical []). split; [| now right].
    unfold lexically.
    rewrite textSearch_no_words by now apply queryWordsOf_short.
    reflexivity.
Qed.

End ShortQueries.

Section RouteClaim.

Import JS.

(** C2, as amended.  A query with fewer than 2 code units that are not white
    space is rejected by [POST /api/search] with status 400 and an error
    body, "Search query is required" when it is blank and "Search query
    too short" otherwise, without a search.  [GET /search] rejects the
    blank query the same way; a query of one such unit it searches for, and
    over the [Database] of the repository the answer is status 200 with an
    empty result list. *)
Theorem short_queries_are_rejected :
  (forall (Results : Type) (search : string -> Z -> Outcome Results)
          (count : Results -> nat) (req : ApiServer.SearchRequest) (text : string),
     ApiServer.query req = Some text ->
     nonWhiteSpace text < 2 ->
     ApiServer.post_api_search search count req
     = if nonWhiteSpace text =? 0
       then {| ApiServer.status := 400;
               ApiServer.body :=
                 ApiServer.Failure "Search query is required"
                   "Please enter a search term" |}
       else {| ApiServer.status := 400;
               ApiServer.body :=
                 ApiServer.Failure "Search query too short"
                   "Search query must be at least 2 characters long" |})
  /\ (forall (E : RegExpEngine) (service : SearchService.Service)
             (req : Server.Request) (text : string),
        Server.q req = Some text ->
        nonWhiteSpace text = 0 ->
        Server.get_search service req
        = {| Server.status := 400;
             Server.body := Server.Failed "Search query is required" None |})
  /\ (forall (E : RegExpEngine) (db : Database.State)
             (client : option SearchService.OpenAI)
             (req : Server.Request) (text : string),
        Server.q req = Some text ->
        nonWhiteSpace text = 1 ->
        exists results,
          Server.get_search (SearchService.over db client) req
          = {| Server.status := 200; Server.body := Server.Found text results 0 |}
          /\ (results = SearchService.Semantic []
              \/ results = SearchService.Lexical [])).
Proof.
  split; [| split].
  - intros Results search count req text Hquery Hfew.
    unfold ApiServer.post_api_search. rewrite Hquery.
    destruct (nonWhiteSpace text =? 0) eqn:Hblank.
    + apply Nat.eqb_eq in Hblank.
      apply trim_empty_iff in Hblank. rewrite Hblank.
      now rewrite orb_true_r.
    + apply Nat.eqb_neq in Hblank.
      assert (Htruthy : truthy text = true)
        by (apply nonWhiteSpace_positive_truthy; lia).
      assert (Hlength : String.length (trim text) <> 0)
        by (rewrite trim_empty_iff; exact Hblank).
      apply Nat.eqb_neq in Hlength. rewrite Htruthy, Hlength. simpl.
      apply trim_short_iff, Nat.ltb_lt in Hfew. now rewrite Hfew.
  - intros E service req text Hquery Hblank.
    unfold Server.get_search, Server.blank. rewrite Hquery.
    apply trim_empty_iff in Hblank. rewrite Hblank.
    now rewrite orb_true_r.
  - intros E db client req text Hquery Hone.
    destruct (search_short_query db client text (Server.limitOf req))
      as (results & Hsearch & Hempty); [lia |].
    exists results. split; [| exact Hempty].
    unfold Server.get_search, Server.blank. rewrite Hquery.
    assert (Htruthy : truthy text = true)
      by (apply nonWhiteSpace_positive_truthy; lia).
    assert (Hlength : String.length (trim text) <> 0)
      by (rewrite trim_empty_iff; lia).
    apply Nat.eqb_neq in Hlength. rewrite Htruthy, Hlength. simpl.
    rewrite Hsearch.
    destruct Hempty as [-> | ->]; reflexivity.
Qed.

Lemma short_queries_are_rejected_witness :
  shortQueryResponse
  = {| ApiServer.status := 400;
       ApiServer.body :=
         ApiServer.Failure "Search query too short"
           "Search query must be at least 2 characters long" |}
  /\ @Server.get_search rejecting (SearchService.over twoUploads None)
       {| Server.q := Some "  "; Server.limitParam := None |}
     = {| Server.status := 400;
          Server.body := Server.Failed "Search query is required" None |}
  /\ exists results,
       @Server.get_search rejecting (SearchService.over twoUploads None)
         {| Server.q := Some "a"; Server.limitParam := None |}
       = {| Server.status := 200; Server.body := Server.Found "a" results 0 |}
       /\ (results = SearchService.Semantic []
           \/ results = SearchService.Lexical []).
Proof.
  destruct short_queries_are_rejected as (Hpost & Hblank & Hone).
  split; [| split].
  - apply (Hpost _ (@ChunkSearchService.search rejecting keywordService)
             ChunkSearchService.resultCount
             {| ApiServer.query := Some "a"; ApiServer.limit := None |} "a");
      [reflexivity | simpl; lia].
  - apply (Hblank rejecting (SearchService.over twoUploads None)
             {| Server.q := Some "  "; Server.limitParam := None |} "  ");
      reflexivity.
  - apply (Hone rejecting twoUploads None
             {| Server.q := Some "a"; Server.limitParam := None |} "a");
      reflexivity.
Defined.

(** C2, as stated, fails on [POST /api/search]: the query "a" is answered
    with status 400 and an error, not with an empty result list. *)
Lemma short_query_answers_an_error :
  shortQueryResponse
  = {| ApiServer.status := 400;
       ApiServer.body :=
         ApiServer.Failure "Search query too short"
           "Search query must be at least 2 characters long" |}
  /\ ~ AnswersEmptyList shortQueryResponse.
Proof.
  split; [reflexivity |].
  intros (Hstatus & _). discriminate Hstatus.
Qed.

End RouteClaim.

(* ================================================================== *)
(** * Query words with syntax characters *)
(* ================================================================== *)

Section SyntaxCharacters.

Import JS.
Import SearchService.

Context `{RegExpEngine}.

(** C1, at the failing input.  No provider is configured and two documents
    are stored.  The query word "c++" goes into the pattern [\bc++\b]
    unescaped; where the engine rejects that source (ECMAScript does: the
    second [+] has nothing to repeat), [textSearch] throws, the retry
    inside [search] throws again, and [GET /search] answers status 500. *)
Theorem syntax_error_surfaces (e : Exception) :
  (forall subject, regExpMatchCount "\bc++\b" "gi" subject = Throw e) ->
  openai (over twoUploads None) = None
  /\ textSearch (over twoUploads None) "c++" 10 = Throw e
  /\ search (over twoUploads None) "c++" 10 = Throw e
  /\ Server.get_search (over twoUploads None)
       {| Server.q := Some "c++"; Server.limitParam := None |}
     = {| Server.status := 500;
          Server.body := Server.Failed "Search failed" (Some (Server.message e)) |}.
Proof.
  intros Hrejected.
  assert (Hword : forall chunk, matchWholeWord "c++" chunk = Throw e).
  { intros chunk. unfold matchWholeWord.
    change (isLiteralSource "c++") with false. apply Hrejected. }
  assert (Hchunks : forall chunk rest,
             matchChunks ["c++"] (chunk :: rest) = Throw e).
  { intros chunk rest. unfold matchChunks, scoreChunk.
    cbn [for_of]. rewrite Hword. reflexivity. }
  assert (Htext : textSearch (over twoUploads None) "c++" 10 = Throw e).
  { unfold textSearch.
    change (queryWordsOf "c++") with ["c++"].
    replace (db_getAllDocuments (over twoUploads None))
      with (Database.getAllDocuments twoUploads) by reflexivity.
    destruct (Database.getAllDocuments twoUploads) as [| doc docs] eqn:Hdocs;
      [discriminate Hdocs |].
    injection Hdocs as <- _.
    cbn [for_of]. unfold scoreDocument at 1.
    cbn [content truthy].
    replace (splitTextIntoChunks (toLowerCase "the cat sat") 500 50)
      with (Some ["the cat sat"]) by (vm_compute; reflexivity).
    rewrite Hchunks. reflexivity. }
  assert (Hsearch : search (over twoUploads None) "c++" 10 = Throw e).
  { rewrite search_unfold.
    change (generateEmbedding (over twoUploads None) "c++")
      with (@None EmbeddingText).
    unfold lexically. now rewrite Htext. }
  repeat split; try assumption.
  unfold Server.get_search, Server.blank, Server.limitOf.
  cbn [Server.q Server.limitParam].
  replace (negb (truthy "c++") || (String.length (trim "c++") =? 0))
    with false by reflexivity.
  now rewrite Hsearch.
Qed.

End SyntaxCharacters.

Lemma syntax_error_surfaces_witness :
  SearchService.openai (SearchService.over twoUploads None) = None
  /\ @SearchService.textSearch rejecting (SearchService.over twoUploads None) "c++" 10
     = JS.Throw (JS.SyntaxError "Invalid regular expression")
  /\ @SearchService.search rejecting (SearchService.over twoUploads None) "c++" 10
     = JS.Throw (JS.SyntaxError "Invalid regular expression")
  /\ @Server.get_search rejecting (SearchService.over twoUploads None)
       {| Server.q := Some "c++"; Server.limitParam := None |}
     = {| Server.status := 500;
          Server.body :=
            Server.Failed "Search failed"
              (Some (Server.message (JS.SyntaxError "Invalid regular expression"))) |}.
Proof.
  apply (@syntax_error_surfaces rejecting (JS.SyntaxError "Invalid regular expression")).
  intros subject. reflexivity.
Defined.

(* ================================================================== *)
(** * Further properties *)
(* ================================================================== *)

Section LiteralQueries.

Import JS.
Import SearchService.

Context `{RegExpEngine}.

Lemma scoreChunk_literal (queryWords : list string) (chunk : string) :
  Forall (fun word => isLiteralSource word = true) queryWords ->
  exists score matched, scoreChunk queryWords chunk = Return (score, matched).
Proof.
  unfold scoreChunk. generalize (0, @nil string).
  intros acc Hall; revert acc.
  induction Hall as [| word queryWords Hword _ IH]; intros [score matched]; simpl.
  - now exists score, matched.
  - unfold matchWholeWord. rewrite Hword. simpl.
    destruct (0 <? countWholeWord word None 0 chunk); apply IH.
Qed.

Lemma matchChunks_literal (queryWords textChunks : list string) :
  Forall (fun word => isLiteralSource word = true) queryWords ->
  exists matchedChunks, matchChunks queryWords textChunks = Return matchedChunks.
Proof.
  intros Hall. unfold matchChunks.
  assert (Hloop : forall acc,
             exists matchedChunks,
               for_of textChunks
                 (fun matchedChunks chunk =>
                    ' (score, matched) <- scoreChunk queryWords chunk ;;
                    Return (if 0 <? score
                            then matchedChunks ++
                                 [ {| text := chunk; chunkScore := score;
                                      matchedWords := matched |} ]
                            else matchedChunks))
                 acc
               = Return matchedChunks).
  { induction textChunks as [| chunk textChunks IH]; intros acc; cbn [for_of].
    - now exists acc.
    - destruct (scoreChunk_literal queryWords chunk Hall) as (score & matched & ->).
      cbn [bind]. destruct (0 <? score); apply IH. }
  apply Hloop.
Qed.

Lemma scoreDocument_literal (queryWords : list string) (results : list TextResult)
  (doc : Document) :
  Forall (fun word => isLiteralSource word = true) queryWords ->
  exists results', scoreDocument queryWords results doc = Return results'.
Proof.
  intros Hall. unfold scoreDocument.
  destruct (truthy (content doc)); [| now exists results].
  match goal with
  | |- context [matchChunks queryWords ?chunks] =>
      destruct (matchChunks_literal queryWords chunks Hall) as (matched & ->)
  end.
  simpl. destruct matched; eexists; reflexivity.
Qed.

(** The lexical path returns, whatever the store, for a query whose words
    carry no RegExp syntax character. *)
Lemma textSearch_literal (this : Service) (query : string) (limit : Z) :
  Forall (fun word => isLiteralSource word = true) (queryWordsOf query) ->
  exists results, textSearch this query limit = Return results.
Proof.
  intros Hall. unfold textSearch.
  assert (Hloop : forall docs acc,
             exists found,
               for_of docs (scoreDocument (queryWordsOf query)) acc = Return found).
  { intros docs. induction docs as [| doc docs IH]; intros acc; simpl.
    - now exists acc.
    - destruct (scoreDocument_literal (queryWordsOf query) acc doc Hall)
        as (acc' & ->).
      simpl. apply IH. }
  destruct (Hloop (db_getAllDocuments this) []) as (found & ->).
  simpl. eexists. reflexivity.
Qed.

(** Without a usable provider, and for a query whose words carry no RegExp
    syntax character, [search] always returns the list of the lexical
    path. *)
Theorem search_without_provider_returns (this : Service) (query : string)
  (limit : Z) :
  generateEmbedding this query = None ->
  Forall (fun word => isLiteralSource word = true) (queryWordsOf query) ->
  exists results,
    textSearch this query limit = Return results
    /\ search this query limit = Return (Lexical results).
Proof.
  intros Hnone Hall.
  destruct (textSearch_literal this query limit Hall) as (results & Htext).
  exists results. split; [exact Htext |].
  rewrite search_unfold, Hnone. unfold lexically. now rewrite Htext.
Qed.

(** Over the [Database] of the repository the semantic path finds nothing:
    [getAllDocuments] does not select the [embedding] column, so no document
    passes [if (doc.embedding)]. *)
Theorem semanticSearch_over_database_is_empty (db : Database.State)
  (client : option OpenAI) (query : string) (limit : Z)
  (queryEmbedding : EmbeddingText) :
  generateEmbedding (over db client) query = Some queryEmbedding ->
  semanticSearch (over db client) query limit = Return [].
Proof.
  intros Hembed. rewrite (semanticSearch_embedded _ _ _ _ Hembed).
  unfold similarDocuments.
  rewrite similarDocuments_without_embeddings
    by apply getAllDocuments_without_embeddings.
  simpl. now rewrite slice_nil.
Qed.

End LiteralQueries.

Section ProviderExamples.

Import JS.
Import SearchService.

Lemma search_without_provider_returns_witness :
  exists results,
    @textSearch rejecting (over twoUploads None) "cat" 10 = Return results
    /\ @search rejecting (over twoUploads None) "cat" 10 = Return (Lexical results).
Proof.
  apply (@search_without_provider_returns rejecting (over twoUploads None) "cat" 10).
  - reflexivity.
  - repeat constructor.
Defined.

Lemma semanticSearch_over_database_is_empty_witness :
  semanticSearch
    (over twoUploads (Some {| embeddings_create := fun _ => Some [1%R] |}))
    "cat" 10
  = Return [].
Proof.
  apply (semanticSearch_over_database_is_empty twoUploads
           (Some {| embeddings_create := fun _ => Some [1%R] |}) "cat" 10
           (Vector [1%R])).
  reflexivity.
Defined.

End ProviderExamples.

Section WordChunker.

Import JS.

Lemma trim_blank (s : string) : nonWhiteSpace s = 0 -> trim s = "".
Proof.
  intros Hblank. apply trim_empty_iff in Hblank.
  destruct (trim s); [reflexivity | discriminate Hblank].
Qed.

Lemma trim_not_blank (s : string) : truthy (trim s) = true -> trim s <> "".
Proof. destruct (trim s); [discriminate | discriminate]. Qed.

Lemma nonWhiteSpace_join_blank (pieces : list string) :
  Forall (fun piece => nonWhiteSpace piece = 0) pieces ->
  nonWhiteSpace (join pieces " ") = 0.
Proof.
  unfold join. induction 1 as [| piece pieces Hpiece _ IH]; [reflexivity |].
  destruct pieces as [| next pieces]; [exact Hpiece |].
  rewrite concat_cons by discriminate.
  rewrite !nonWhiteSpace_append, Hpiece, IH. reflexivity.
Qed.

Lemma splitWhiteSpace_blank (text : string) :
  nonWhiteSpace text = 0 ->
  Forall (fun piece => nonWhiteSpace piece = 0) (splitWhiteSpace text).
Proof.
  intros Hblank. rewrite Forall_forall. intros piece Hin.
  apply splitLoop_piece_length in Hin. simpl in Hin.
  pose proof (nonWhiteSpace_le_length piece). lia.
Qed.

(** With a step of at least one word the loop returns within
    [words.length - i] turns; it keeps no chunk that is blank, and none at
    all when every word is blank. *)
Lemma chunkLoop_returns (words : list string) (chunkSize step : Z) :
  (1 <= step)%Z ->
  forall fuel i,
    (Z.of_nat (List.length words) - i <= Z.of_nat fuel)%Z ->
    exists chunks,
      SearchService.chunkLoop fuel words chunkSize step i = Some chunks
      /\ Forall (fun chunk => trim chunk <> "") chunks
      /\ (Forall (fun piece => nonWhiteSpace piece = 0) words -> chunks = []).
Proof.
  intros Hstep fuel; induction fuel as [| fuel IH]; intros i Hfuel;
    cbn [SearchService.chunkLoop].
  - replace (i <? Z.of_nat (List.length words))%Z with false
      by (symmetry; apply Z.ltb_ge; lia).
    exists []. repeat split. constructor.
  - destruct (i <? Z.of_nat (List.length words))%Z;
      [| exists []; repeat split; constructor].
    destruct (IH (i + step)%Z) as (chunks & -> & Hkept & Hblank); [lia |].
    destruct (truthy (trim (join (slice words i (i + chunkSize)) " ")))
      eqn:Hchunk.
    + eexists. split; [reflexivity |]. split.
      * constructor; [now apply trim_not_blank | exact Hkept].
      * intros Hwords. exfalso.
        rewrite trim_blank in Hchunk; [discriminate Hchunk |].
        apply nonWhiteSpace_join_blank.
        apply forall_subsequence with (ys := words);
          [apply subsequence_slice | exact Hwords].
    + exists chunks. repeat split; assumption.
Qed.

(** With a step below one word the loop never leaves its first index. *)
Lemma chunkLoop_runs_out (words : list string) (chunkSize step : Z) :
  (step <= 0)%Z -> words <> [] ->
  forall fuel i,
    (i <= 0)%Z ->
    SearchService.chunkLoop fuel words chunkSize step i = None.
Proof.
  intros Hstep Hwords fuel; induction fuel as [| fuel IH]; intros i Hi;
    cbn [SearchService.chunkLoop];
    replace (i <? Z.of_nat (List.length words))%Z with true
      by (symmetry; apply Z.ltb_lt; destruct words; [congruence | simpl; lia]).
  - reflexivity.
  - now rewrite IH by lia.
Qed.

(** The word chunker, for an overlap below the chunk size: it returns; a
    blank text gives no chunk; and no returned chunk is empty after
    trimming.  For an overlap that is not below the chunk size its loop
    does not end. *)
Theorem splitTextIntoChunks_chunks (text : string) (chunkSize overlap : Z) :
  ((overlap < chunkSize)%Z ->
   exists chunks,
     SearchService.splitTextIntoChunks text chunkSize overlap = Some chunks
     /\ (nonWhiteSpace text = 0 -> chunks = [])
     /\ Forall (fun chunk => trim chunk <> "") chunks)
  /\ ((chunkSize <= overlap)%Z ->
      SearchService.splitTextIntoChunks text chunkSize overlap = None).
Proof.
  unfold SearchService.splitTextIntoChunks. split.
  - intros Hstep.
    destruct (chunkLoop_returns (splitWhiteSpace text) chunkSize
                (chunkSize - overlap) ltac:(lia)
                (List.length (splitWhiteSpace text)) 0%Z ltac:(lia))
      as (chunks & Hchunks & Hkept & Hblank).
    exists chunks. split; [exact Hchunks |]. split; [| exact Hkept].
    intros Htext. now apply Hblank, splitWhiteSpace_blank.
  - intros Hstep. apply chunkLoop_runs_out; [lia | | lia].
    apply splitLoop_nonempty.
Qed.

Lemma splitTextIntoChunks_chunks_witness :
  (exists chunks,
     SearchService.splitTextIntoChunks "  " 1000 100 = Some chunks
     /\ (nonWhiteSpace "  " = 0 -> chunks = [])
     /\ Forall (fun chunk => trim chunk <> "") chunks)
  /\ SearchService.splitTextIntoChunks "a b" 2 2 = None.
Proof.
  split.
  - apply (splitTextIntoChunks_chunks "  " 1000 100). lia.
  - apply (splitTextIntoChunks_chunks "a b" 2 2). lia.
Defined.

End WordChunker.

(* ================================================================== *)
(** * Excerpts of even length *)
(* ================================================================== *)

Section EvenExcerpts.

Import JS.
Local Open Scope Q_scope.

Lemma toInteger_inject (q : Q) (z : Z) : q == inject_Z z -> toInteger q = z.
Proof.
  intros Hq. unfold toInteger. destruct (Qle_bool 0 q).
  - rewrite (Qfloor_comp _ _ Hq). apply Qfloor_Z.
  - rewrite (Qceiling_comp _ _ Hq). apply Qceiling_Z.
Qed.

Lemma half_of_even (queryIndex half : Z) :
  inject_Z queryIndex - inject_Z (2 * half) / 2 == inject_Z (queryIndex - half).
Proof.
  unfold Z.sub. rewrite inject_Z_plus, inject_Z_opp, inject_Z_mult. field.
Qed.

Lemma start_of_even (queryIndex half : Z) :
  Qminmax.Qmax 0 (inject_Z queryIndex - inject_Z (2 * half) / 2)
  == inject_Z (Z.max 0 (queryIndex - half)).
Proof.
  destruct (Z.le_gt_cases (queryIndex - half) 0) as [Hle | Hgt].
  - rewrite Z.max_l by lia. apply Q.max_l.
    rewrite half_of_even. change 0 with (inject_Z 0). rewrite <- Zle_Qle. lia.
  - rewrite Z.max_r by lia. rewrite Q.max_r; [apply half_of_even |].
    rewrite half_of_even. change 0 with (inject_Z 0). rewrite <- Zle_Qle. lia.
Qed.

Lemma end_of_window (len start width : Z) (qstart : Q) :
  qstart == inject_Z start ->
  Qminmax.Qmin (inject_Z len) (qstart + inject_Z width)
  == inject_Z (Z.min len (start + width)).
Proof.
  intros Hstart.
  assert (Hsum : qstart + inject_Z width == inject_Z (start + width))
    by (rewrite Hstart, inject_Z_plus; reflexivity).
  destruct (Z.le_gt_cases len (start + width)) as [Hle | Hgt].
  - rewrite Z.min_l by lia. apply Q.min_l.
    rewrite Hsum, <- Zle_Qle. lia.
  - rewrite Z.min_r by lia. rewrite Q.min_r; [exact Hsum |].
    rewrite Hsum, <- Zle_Qle. lia.
Qed.

Lemma positive_iff (q : Q) (z : Z) (A : Type) (yes no : A) :
  q == inject_Z z ->
  (if Qlt_le_dec 0 q then yes else no) = (if (0 <? z)%Z then yes else no).
Proof.
  intros Hq. destruct (Qlt_le_dec 0 q) as [Hlt | Hle].
  - rewrite Hq in Hlt. change 0 with (inject_Z 0) in Hlt.
    rewrite <- Zlt_Qlt in Hlt. apply Z.ltb_lt in Hlt. now rewrite Hlt.
  - rewrite Hq in Hle. change 0 with (inject_Z 0) in Hle.
    rewrite <- Zle_Qle in Hle. apply Z.ltb_ge in Hle. now rewrite Hle.
Qed.

Lemma below_iff (q : Q) (z len : Z) (A : Type) (yes no : A) :
  q == inject_Z z ->
  (if Qlt_le_dec q (inject_Z len) then yes else no)
  = (if (z <? len)%Z then yes else no).
Proof.
  intros Hq. destruct (Qlt_le_dec q (inject_Z len)) as [Hlt | Hle].
  - rewrite Hq in Hlt. rewrite <- Zlt_Qlt in Hlt.
    apply Z.ltb_lt in Hlt. now rewrite Hlt.
  - rewrite Hq in Hle. rewrite <- Zle_Qle in Hle.
    apply Z.ltb_ge in Hle. now rewrite Hle.
Qed.

Lemma append_empty (s : string) : (s ++ "")%string = s.
Proof. induction s as [| c s IH]; simpl; [reflexivity | now rewrite IH]. Qed.

(** For an even [maxLength] the window's bounds are integers, and the
    excerpt is what the comments of [createExcerpt] say: at most [maxLength]
    code units from [max(0, queryIndex - maxLength / 2)] on, the ellipsis
    before them exactly when the window does not start the content and after
    them exactly when it does not end it; the first [maxLength] code units,
    and the ellipsis if some are left, when the query does not occur. *)
Theorem createExcerpt_even_length (content query : string) (half : Z) :
  let queryIndex := indexOf (toLowerCase content) (toLowerCase query) in
  let len := JS.length content in
  let start := Z.max 0 (queryIndex - half) in
  let end_ := Z.min len (start + 2 * half) in
  ChunkSearchService.createExcerpt content query (2 * half) =
  if (queryIndex =? -1)%Z
  then (substring content 0 (2 * half)
        ++ (if (2 * half <? len)%Z then "..." else ""))%string
  else ((if (0 <? start)%Z then "..." else "")
        ++ substring content start end_
        ++ (if (end_ <? len)%Z then "..." else ""))%string.
Proof.
  intros queryIndex len start end_.
  unfold ChunkSearchService.createExcerpt. fold queryIndex. fold len.
  destruct (queryIndex =? -1)%Z; cbn [negb]; [reflexivity |].
  pose proof (start_of_even queryIndex half) as Hstart. fold start in Hstart.
  pose proof (end_of_window len start (2 * half) _ Hstart) as Hend.
  fold end_ in Hend.
  unfold substringQ.
  rewrite (toInteger_inject _ _ Hstart), (toInteger_inject _ _ Hend).
  rewrite (positive_iff _ _ _ _ _ Hstart).
  rewrite (below_iff _ _ len _ _ _ Hend).
  unfold ChunkSearchService.ellipsis.
  destruct (0 <? start)%Z, (end_ <? len)%Z; cbn [String.append];
    rewrite ?append_empty; reflexivity.
Qed.

End EvenExcerpts.

(* ================================================================== *)
(** * The character chunker returns *)
(* ================================================================== *)

Section CharacterChunker.

Import JS.
Import DocumentProcessor.

Lemma nonWhiteSpace_normalizeLineEndings (s : string) :
  nonWhiteSpace (normalizeLineEndings s) = nonWhiteSpace s.
Proof.
  assert (Hall : forall n s', String.length s' <= n ->
             nonWhiteSpace (normalizeLineEndings s') = nonWhiteSpace s').
  { induction n as [| n IH]; intros [| c [| d rest]] Hlen; try reflexivity;
      simpl in Hlen; try lia.
    change (normalizeLineEndings (String c (String d rest)))
      with (if (code c =? 13) && (code d =? 10)
            then String d (normalizeLineEndings rest)
            else String c (normalizeLineEndings (String d rest))).
    destruct ((code c =? 13) && (code d =? 10)) eqn:Hcrlf.
    - apply andb_true_iff in Hcrlf as (Hc & _). apply Nat.eqb_eq in Hc.
      assert (Hspace : isWhiteSpace c = true).
      { unfold isWhiteSpace. rewrite Hc. reflexivity. }
      change (nonWhiteSpace (String d (normalizeLineEndings rest)))
        with ((if isWhiteSpace d then 0 else 1)
              + nonWhiteSpace (normalizeLineEndings rest)).
      change (nonWhiteSpace (String c (String d rest)))
        with ((if isWhiteSpace c then 0 else 1)
              + ((if isWhiteSpace d then 0 else 1) + nonWhiteSpace rest)).
      rewrite Hspace, IH by lia. reflexivity.
    - change (nonWhiteSpace (String c (normalizeLineEndings (String d rest))))
        with ((if isWhiteSpace c then 0 else 1)
              + nonWhiteSpace (normalizeLineEndings (String d rest))).
      rewrite IH by (simpl; lia). reflexivity. }
  now apply (Hall (String.length s)).
Qed.

Lemma nonWhiteSpace_replaceTabs (s : string) :
  nonWhiteSpace (replaceTabs s) = nonWhiteSpace s.
Proof.
  induction s as [| c s IH]; [reflexivity |].
  cbn [replaceTabs nonWhiteSpace]. rewrite IH.
  destruct (code c =? 9) eqn:Htab; [| reflexivity].
  apply Nat.eqb_eq in Htab.
  assert (Hspace : isWhiteSpace c = true).
  { unfold isWhiteSpace. rewrite Htab. reflexivity. }
  now rewrite Hspace.
Qed.

Lemma nonWhiteSpace_collapseFrom (inRun : bool) (s : string) :
  nonWhiteSpace (collapseFrom inRun s) = nonWhiteSpace s.
Proof.
  revert inRun; induction s as [| c s IH]; intros inRun; [reflexivity |].
  cbn [collapseFrom nonWhiteSpace].
  destruct (isWhiteSpace c) eqn:Hc.
  - destruct inRun; [apply IH |]. cbn [nonWhiteSpace].
    now rewrite IH.
  - cbn [nonWhiteSpace]. now rewrite Hc, IH.
Qed.

(** Normalization loses no unit that is not white space. *)
Lemma nonWhiteSpace_cleanTextOf (text : string) :
  nonWhiteSpace (cleanTextOf text) = nonWhiteSpace text.
Proof.
  unfold cleanTextOf, collapseWhiteSpace.
  now rewrite nonWhiteSpace_trim, nonWhiteSpace_collapseFrom,
    nonWhiteSpace_replaceTabs, nonWhiteSpace_normalizeLineEndings.
Qed.

Lemma scanDown_bounds (test : Z -> bool) (steps : nat) (from found : Z) :
  scanDown test steps from = Some found ->
  (from - Z.of_nat steps < found <= from)%Z.
Proof.
  revert from; induction steps as [| steps IH]; intros from; simpl;
    [discriminate |].
  destruct (test from).
  - intros Hfound. injection Hfound as <-. lia.
  - intros Hfound. apply IH in Hfound. lia.
Qed.

(** The loop returns within [cleanText.length - start] turns, and every
    chunk it keeps is not empty. *)
Lemma character_chunkLoop_returns (cleanText : string) (chunkSize overlap : Z) :
  forall fuel start,
    (length cleanText - start <= Z.of_nat fuel)%Z ->
    exists chunks,
      chunkLoop fuel cleanText chunkSize overlap start = Some chunks
      /\ Forall (fun chunk => chunk <> "" /\ exists piece, chunk = trim piece) chunks.
Proof.
  induction fuel as [| fuel IH]; intros start Hfuel; cbn [chunkLoop].
  - replace (start <? length cleanText)%Z with false
      by (symmetry; apply Z.ltb_ge; lia).
    exists []. split; [reflexivity | constructor].
  - destruct (start <? length cleanText)%Z;
      [| exists []; split; [reflexivity | constructor]].
    set (wordStart := findWordBoundary cleanText start).
    set (start' := if (0 <? start)%Z && (start <? wordStart)%Z
                      && (wordStart <? start + 50)%Z
                   then wordStart else start).
    assert (Hstart' : (start <= start')%Z).
    { unfold start'.
      destruct ((0 <? start)%Z && (start <? wordStart)%Z
                && (wordStart <? start + 50)%Z) eqn:Hadjust; [| lia].
      apply andb_true_iff in Hadjust as (Hadjust & _).
      apply andb_true_iff in Hadjust as (_ & Hlt).
      apply Z.ltb_lt in Hlt. lia. }
    match goal with
    | |- context [chunkLoop fuel cleanText chunkSize overlap ?next] =>
        destruct (IH next) as (chunks & -> & Hkept); [lia |]
    end.
    match goal with
    | |- context [truthy (trim ?chunk)] =>
        destruct (truthy (trim chunk)) eqn:Hchunk;
          [exists (trim chunk :: chunks) | exists chunks]
    end; (split; [reflexivity |]); [| exact Hkept].
    constructor; [| exact Hkept].
    split; [now apply trim_not_blank | eexists; reflexivity].
Qed.

(** The character chunker returns on every input; on a text that is not
    blank no chunk is empty, and every chunk is trimmed: its only chunk
    that is empty is the one it returns for a white-space-only text. *)
Theorem splitIntoChunks_returns (text : string) (chunkSize overlap : Z) :
  exists chunks,
    splitIntoChunks text chunkSize overlap = Some chunks
    /\ (0 < nonWhiteSpace text ->
        Forall (fun chunk => chunk <> "" /\ exists piece, chunk = trim piece) chunks).
Proof.
  unfold splitIntoChunks.
  destruct (negb (truthy text) || (String.length text =? 0)).
  - exists []. split; [reflexivity | constructor].
  - destruct (length (cleanTextOf text) <=? chunkSize)%Z.
    + exists [cleanTextOf text]. split; [reflexivity |].
      intros Htext. constructor; [| constructor]. split.
      * intros Hempty. rewrite <- nonWhiteSpace_cleanTextOf, Hempty in Htext.
        simpl in Htext. lia.
      * unfold cleanTextOf. eexists. reflexivity.
    + destruct (character_chunkLoop_returns (cleanTextOf text) chunkSize overlap
                  (String.length (cleanTextOf text)) 0%Z) as (chunks & Hchunks & Hkept).
      * unfold length. lia.
      * exists chunks. split; [exact Hchunks | intros _; exact Hkept].
Qed.

Lemma splitIntoChunks_returns_witness :
  exists chunks,
    splitIntoChunks "ab  cd ef" 4 1 = Some chunks
    /\ (0 < nonWhiteSpace "ab  cd ef" ->
        Forall (fun chunk => chunk <> "" /\ exists piece, chunk = trim piece) chunks).
Proof. apply (splitIntoChunks_returns "ab  cd ef" 4 1). Defined.

End CharacterChunker.


(* ================================================================== *)
(** * The documents table *)
(* ================================================================== *)

Section DocumentsTable.

Import Database.
Import Documents.

Lemma consistent_empty : Consistent empty.
Proof. split; constructor. Qed.

Lemma consistent_addDocument (name text : string) (size words pages : Z)
  (uploaded : string) (emb : option EmbeddingText) (db : State) :
  (0 <= lastID db)%Z -> Consistent db ->
  Consistent (fst (addDocument name text size words pages uploaded emb db)).
Proof.
  intros Hseq (Hids & Hnodup). split; cbn [addDocument fst documents lastID].
  - apply Forall_app. split.
    + eapply Forall_impl; [| exact Hids]. cbn beta. intros row Hrow. lia.
    + constructor; [cbn [id]; lia | constructor].
  - rewrite map_app. cbn [map id].
    apply NoDup_app; [exact Hnodup | repeat constructor; intros [] | ].
    intros key Hold [<- | []].
    apply in_map_iff in Hold as (row & Hkey & Hin).
    rewrite Forall_forall in Hids. specialize (Hids row Hin). lia.
Qed.

Lemma consistent_deleteDocument (key : Z) (db : State) :
  Consistent db -> Consistent (fst (deleteDocument key db)).
Proof.
  intros (Hids & Hnodup). split; cbn [deleteDocument fst documents lastID].
  - rewrite Forall_forall in *. intros row Hin.
    apply filter_In in Hin as (Hin & _). now apply Hids.
  - induction (documents db) as [| row rows IH]; [constructor |].
    cbn [map] in Hnodup. apply NoDup_cons_iff in Hnodup as (Hfresh & Hrest).
    apply Forall_cons_iff in Hids as (_ & Hids).
    cbn [filter]. destruct (negb (id row =? key)%Z).
    + cbn [map]. constructor; [| now apply IH].
      intros Hin. apply Hfresh.
      apply in_map_iff in Hin as (other & Hkey & Hin).
      apply filter_In in Hin as (Hin & _).
      apply in_map_iff. now exists other.
    + now apply IH.
Qed.

Lemma run_sequence (ops : list Operation) :
  forall db, (lastID db <= lastID (fst (run ops db)))%Z.
Proof.
  induction ops as [| [name text size words pages uploaded emb | key] ops IH];
    intros db; cbn [run].
  - cbn [fst]. lia.
  - cbn [addDocument].
    match goal with
    | |- context [run ops ?next] =>
        specialize (IH next); destruct (run ops next) as [final ids]
    end.
    cbn [fst lastID] in *. lia.
  - specialize (IH (fst (deleteDocument key db))).
    cbn [deleteDocument fst lastID] in IH. exact IH.
Qed.

Lemma consistent_run (ops : list Operation) :
  forall db, (0 <= lastID db)%Z -> Consistent db -> Consistent (fst (run ops db)).
Proof.
  induction ops as [| [name text size words pages uploaded emb | key] ops IH];
    intros db Hseq Hdb; cbn [run].
  - exact Hdb.
  - pose proof (consistent_addDocument name text size words pages uploaded emb
                  db Hseq Hdb) as Hnext.
    cbn [addDocument] in *. cbn [fst] in Hnext.
    match goal with
    | |- context [run ops ?next] =>
        specialize (IH next); destruct (run ops next) as [final ids]
    end.
    cbn [fst] in *. apply IH; [cbn [lastID]; lia | exact Hnext].
  - apply IH.
    + cbn [deleteDocument fst lastID]. exact Hseq.
    + now apply consistent_deleteDocument.
Qed.

Lemma reachable_consistent (db : State) :
  Reachable db -> Consistent db /\ (0 <= lastID db)%Z.
Proof.
  intros (ops & <-). split.
  - apply consistent_run; [cbn; lia | apply consistent_empty].
  - pose proof (run_sequence ops empty) as Hseq. cbn [empty lastID] in Hseq.
    cbn [lastID] in *. exact Hseq.
Qed.

Lemma find_app_fresh (p : Document -> bool) (rows : list Document) (row : Document) :
  Forall (fun r => p r = false) rows -> p row = true ->
  find p (rows ++ [row]) = Some row.
Proof.
  intros Hrows Hrow. induction Hrows as [| r rows Hr _ IH]; cbn [app find].
  - now rewrite Hrow.
  - now rewrite Hr.
Qed.

Lemma find_app_other (p : Document -> bool) (rows : list Document) (row : Document) :
  p row = false -> find p (rows ++ [row]) = find p rows.
Proof.
  intros Hrow. induction rows as [| r rows IH]; cbn [app find].
  - now rewrite Hrow.
  - destruct (p r); [reflexivity | exact IH].
Qed.

Lemma find_filter_other (p keep : Document -> bool) (rows : list Document) :
  (forall r, p r = true -> keep r = true) ->
  find p (filter keep rows) = find p rows.
Proof.
  intros Hkeep. induction rows as [| r rows IH]; [reflexivity |].
  cbn [filter find]. destruct (p r) eqn:Hp.
  - rewrite (Hkeep r Hp). cbn [find]. now rewrite Hp.
  - destruct (keep r); [cbn [find]; now rewrite Hp | exact IH].
Qed.

Lemma find_filter_none (p : Document -> bool) (rows : list Document) :
  find p (filter (fun r => negb (p r)) rows) = None.
Proof.
  induction rows as [| r rows IH]; [reflexivity |].
  cbn [filter]. destruct (p r) eqn:Hp; cbn [negb]; [exact IH |].
  cbn [find]. now rewrite Hp.
Qed.

Lemma filter_length_le {A : Type} (p : A -> bool) (rows : list A) :
  List.length (filter p rows) <= List.length rows.
Proof.
  induction rows as [| r rows IH]; cbn [filter]; [lia |].
  destruct (p r); cbn [List.length]; lia.
Qed.

Lemma filter_shrinks_iff (p : Document -> bool) (rows : list Document) :
  List.length (filter (fun r => negb (p r)) rows) < List.length rows
  <-> exists row, find p rows = Some row.
Proof.
  induction rows as [| r rows IH]; cbn [filter find List.length].
  - split; [lia | intros (row & Hrow); discriminate].
  - pose proof (filter_length_le (fun r => negb (p r)) rows) as Hle.
    destruct (p r) eqn:Hp; cbn [negb List.length].
    + split; [intros _; now exists r | intros _; lia].
    + rewrite <- IH. lia.
Qed.

(** Filtering commutes with the sort when the comparator is transitive. *)
Lemma insertSorted_filter_sorted {A : Type} (after : A -> A -> bool)
  (p : A -> bool) (x : A) (sorted : list A) :
  (forall a b c, after a b = false -> after b c = false -> after a c = false) ->
  StronglySorted (fun a b => after a b = false) sorted ->
  filter p (JS.insertSorted after x sorted)
  = if p x then JS.insertSorted after x (filter p sorted) else filter p sorted.
Proof.
  intros Htrans Hsorted. induction Hsorted as [| y rest Hrest IH Hy].
  - cbn [JS.insertSorted filter]. destruct (p x); reflexivity.
  - cbn [JS.insertSorted]. destruct (after x y) eqn:Hxy.
    + cbn [filter]. rewrite IH.
      destruct (p x), (p y); cbn [JS.insertSorted]; rewrite ?Hxy; reflexivity.
    + cbn [filter]. destruct (p x); [| reflexivity].
      destruct (p y) eqn:Hpy.
      * cbn [JS.insertSorted]. now rewrite Hxy.
      * destruct (filter p rest) as [| z kept] eqn:Hkept; [reflexivity |].
        cbn [JS.insertSorted].
        assert (Hz : In z rest).
        { assert (Hin : In z (filter p rest)) by (rewrite Hkept; now left).
          now apply filter_In in Hin. }
        rewrite Forall_forall in Hy.
        now rewrite (Htrans x y z Hxy (Hy z Hz)).
Qed.

Lemma sort_filter {A : Type} (after : A -> A -> bool) (p : A -> bool)
  (xs : list A) :
  (forall a b, after a b = true -> after b a = false) ->
  (forall a b c, after a b = false -> after b c = false -> after a c = false) ->
  filter p (JS.sort after xs) = JS.sort after (filter p xs).
Proof.
  intros Hasym Htrans. induction xs as [| x xs IH]; [reflexivity |].
  cbn [JS.sort fold_right filter].
  fold (JS.sort after xs).
  rewrite (insertSorted_filter_sorted after p x _ Htrans
             (sort_sorted after Hasym Htrans xs)).
  rewrite IH. destruct (p x); reflexivity.
Qed.

Lemma sumOf_from (column : Document -> Z) (rows : list Document) (start : Z) :
  fold_left (fun total row => (total + column row)%Z) rows start
  = (start + sumOf column rows)%Z.
Proof.
  unfold sumOf. revert start.
  induction rows as [| r rows IH]; intros start; cbn [fold_left]; [lia |].
  rewrite IH, (IH (0 + column r))%Z. lia.
Qed.

Lemma sumOf_app (column : Document -> Z) (rows more : list Document) :
  sumOf column (rows ++ more) = (sumOf column rows + sumOf column more)%Z.
Proof.
  unfold sumOf at 1. rewrite fold_left_app. fold (sumOf column rows).
  apply sumOf_from.
Qed.

Lemma sumOf_cons (column : Document -> Z) (row : Document) (rows : list Document) :
  sumOf column (row :: rows) = (column row + sumOf column rows)%Z.
Proof. unfold sumOf at 1. cbn [fold_left]. apply sumOf_from. Qed.

Lemma filter_missing_key (key : Z) (rows : list Document) :
  find (fun row => (id row =? key)%Z) rows = None ->
  filter (fun row => negb (id row =? key)%Z) rows = rows.
Proof.
  induction rows as [| r rows IH]; [reflexivity |].
  cbn [find filter]. destruct (id r =? key)%Z; [discriminate |].
  intros Hnone. cbn [negb]. now rewrite (IH Hnone).
Qed.

Lemma twoUploads_reachable : Reachable twoUploads.
Proof.
  exists [ Add "a.txt" "a cat here" 10 3 1 "2024-01-01T00:00:00.000Z" None;
           Add "b.txt" "the cat sat" 11 3 1 "2024-01-02T00:00:00.000Z" None ].
  reflexivity.
Qed.

Lemma sumOf_delete (column : Document -> Z) (key : Z) (rows : list Document)
  (doc : Document) :
  NoDup (map id rows) ->
  find (fun row => (id row =? key)%Z) rows = Some doc ->
  sumOf column (filter (fun row => negb (id row =? key)%Z) rows)
  = (sumOf column rows - column doc)%Z
  /\ S (List.length (filter (fun row => negb (id row =? key)%Z) rows))
     = List.length rows.
Proof.
  induction rows as [| r rows IH]; intros Hnodup Hfind; [discriminate |].
  cbn [map] in Hnodup. apply NoDup_cons_iff in Hnodup as (Hfresh & Hrest).
  cbn [find] in Hfind. cbn [filter].
  destruct (id r =? key)%Z eqn:Hkey; cbn [negb].
  - injection Hfind as <-. apply Z.eqb_eq in Hkey.
    assert (Hkept : filter (fun row => negb (id row =? key)%Z) rows = rows).
    { apply forallb_filter_id. apply forallb_forall. intros other Hin.
      apply negb_true_iff, Z.eqb_neq. intros Hother. apply Hfresh.
      apply in_map_iff. exists other. split; [congruence | exact Hin]. }
    rewrite Hkept, sumOf_cons. cbn [List.length]. split; [lia | reflexivity].
  - destruct (IH Hrest Hfind) as (Hsum & Hlen).
    rewrite !sumOf_cons, Hsum. cbn [List.length]. split; [lia | now rewrite Hlen].
Qed.

(** A document that [addDocument] stored is what [getDocumentById] gives
    for the id it resolved to, with every column and the embedding; that id
    was in no row before, and the other ids read as they did. *)
Theorem addDocument_then_getDocumentById (db : State) (name text : string)
  (size words pages : Z) (uploaded : string) (emb : option EmbeddingText) :
  Reachable db ->
  getDocumentById db (snd (addDocument name text size words pages uploaded emb db))
  = None
  /\ getDocumentById
       (fst (addDocument name text size words pages uploaded emb db))
       (snd (addDocument name text size words pages uploaded emb db))
     = Some {| id := snd (addDocument name text size words pages uploaded emb db);
               filename := name; content := text;
               fileSize := size; wordCount := words; pageCount := pages;
               uploadedAt := uploaded; embedding := emb |}
  /\ (forall key,
        key <> snd (addDocument name text size words pages uploaded emb db) ->
        getDocumentById
          (fst (addDocument name text size words pages uploaded emb db)) key
        = getDocumentById db key).
Proof.
  intros Hdb.
  destruct (reachable_consistent db Hdb) as ((Hids & _) & Hseq).
  unfold getDocumentById. cbn [addDocument fst snd documents].
  assert (Hfresh : Forall (fun r => (id r =? lastID db + 1)%Z = false) (documents db)).
  { eapply Forall_impl; [| exact Hids]. cbn beta. intros row Hrow.
    apply Z.eqb_neq. lia. }
  repeat split.
  - destruct (find _ (documents db)) as [row |] eqn:Hfind; [| reflexivity].
    apply find_some in Hfind as (Hin & Hkey).
    rewrite Forall_forall in Hfresh. rewrite (Hfresh row Hin) in Hkey.
    discriminate.
  - apply find_app_fresh; [exact Hfresh | cbn [id]; apply Z.eqb_refl].
  - intros key Hkey. apply find_app_other. cbn [id]. apply Z.eqb_neq. congruence.
Qed.

Lemma addDocument_then_getDocumentById_witness :
  getDocumentById twoUploads 3 = None
  /\ getDocumentById
       (fst (addDocument "c.txt" "a dog" 5 2 1 "2024-01-03T00:00:00.000Z"
               (Some (Vector [1%R])) twoUploads))
       3
     = Some {| id := 3; filename := "c.txt"; content := "a dog";
               fileSize := 5; wordCount := 2; pageCount := 1;
               uploadedAt := "2024-01-03T00:00:00.000Z";
               embedding := Some (Vector [1%R]) |}
  /\ (forall key,
        key <> 3%Z ->
        getDocumentById
          (fst (addDocument "c.txt" "a dog" 5 2 1 "2024-01-03T00:00:00.000Z"
                  (Some (Vector [1%R])) twoUploads)) key
        = getDocumentById twoUploads key).
Proof.
  apply (addDocument_then_getDocumentById twoUploads "c.txt" "a dog" 5 2 1
           "2024-01-03T00:00:00.000Z" (Some (Vector [1%R]))).
  exists [ Add "a.txt" "a cat here" 10 3 1 "2024-01-01T00:00:00.000Z" None;
           Add "b.txt" "the cat sat" 11 3 1 "2024-01-02T00:00:00.000Z" None ].
  reflexivity.
Defined.

(** [deleteDocument] resolves to [true] exactly when a row had the id;
    afterwards no row has it, every other id reads as before, and
    [getAllDocuments] lists what it listed, in the same order, without the
    rows of that id. *)
Theorem deleteDocument_removes (db : State) (key : Z) :
  (snd (deleteDocument key db) = true
   <-> exists doc, getDocumentById db key = Some doc)
  /\ getDocumentById (fst (deleteDocument key db)) key = None
  /\ (forall other, other <> key ->
        getDocumentById (fst (deleteDocument key db)) other
        = getDocumentById db other)
  /\ getAllDocuments (fst (deleteDocument key db))
     = filter (fun row => negb (id row =? key)%Z) (getAllDocuments db)
  /\ lastID (fst (deleteDocument key db)) = lastID db.
Proof.
  unfold getDocumentById.
  cbn [deleteDocument fst snd documents lastID].
  repeat split.
  - intros Hchanged. apply Nat.ltb_lt in Hchanged.
    apply (filter_shrinks_iff (fun row => (id row =? key)%Z)). lia.
  - intros Hfound. apply Nat.ltb_lt.
    apply (filter_shrinks_iff (fun row => (id row =? key)%Z)) in Hfound. lia.
  - apply (find_filter_none (fun row => (id row =? key)%Z)).
  - intros other Hother. apply find_filter_other.
    intros r Hr. apply Z.eqb_eq in Hr. apply negb_true_iff, Z.eqb_neq. congruence.
  - unfold getAllDocuments, orderByUploadedAtDesc. cbn [documents].
    rewrite <- (sort_filter _ (fun row => negb (id row =? key)%Z)).
    2: { intros a b. apply ltb_asymmetric. }
    2: { intros a b c. apply not_ltb_transitive. }
    induction (JS.sort _ (documents db)) as [| r rows IH]; [reflexivity |].
    cbn [filter map id]. destruct (negb (id r =? key)%Z); cbn [map]; now rewrite IH.
Qed.

Lemma run_ids (ops : list Operation) :
  forall db,
    Forall (fun issued => (lastID db < issued)%Z) (snd (run ops db))
    /\ StronglySorted Z.lt (snd (run ops db)).
Proof.
  induction ops as [| [name text size words pages uploaded emb | key] ops IH];
    intros db; cbn [run].
  - cbn [snd]. split; constructor.
  - cbn [addDocument].
    match goal with
    | |- context [run ops ?next] =>
        destruct (IH next) as (Habove & Hsorted);
        destruct (run ops next) as [final ids]
    end.
    cbn [snd lastID] in *. split.
    + constructor; [lia |].
      eapply Forall_impl; [| exact Habove]. cbn beta. intros issued Hissued. lia.
    + constructor; [exact Hsorted | exact Habove].
  - destruct (IH (fst (deleteDocument key db))) as (Habove & Hsorted).
    cbn [deleteDocument fst lastID] in Habove. split; assumption.
Qed.

(** Whatever is added and deleted, the ids that [addDocument] resolves to
    grow strictly: the id of a deleted document is never given again. *)
Theorem ids_are_never_reused (ops : list Operation) :
  StronglySorted Z.lt (snd (run ops empty))
  /\ Forall (fun issued => (0 < issued)%Z) (snd (run ops empty))
  /\ NoDup (snd (run ops empty)).
Proof.
  destruct (run_ids ops empty) as (Habove & Hsorted).
  repeat split; [exact Hsorted | exact Habove |].
  induction Hsorted as [| issued ids _ IH Hlater]; constructor.
  - intros Hin. rewrite Forall_forall in Hlater. specialize (Hlater _ Hin). lia.
  - apply IH. now apply Forall_inv_tail in Habove.
Qed.

(** [getStats] counts the rows that [getAllDocuments] lists, and gives 0
    for the count and the three totals of the empty table; storing a
    document, the first one as any other, adds one to the count and its
    numbers to the totals; in a table that calls of [addDocument] and
    [deleteDocument] made, deleting a stored document takes its numbers
    off again, and deleting an id that no row has changes nothing. *)
Theorem getStats_follows_the_table (db : State) (name text : string)
  (size words pages : Z) (uploaded : string) (emb : option EmbeddingText) :
  totalDocuments (getStats db) = Z.of_nat (List.length (getAllDocuments db))
  /\ getStats empty
     = {| totalDocuments := 0; totalWordCount := 0;
          totalPageCount := 0; totalFileSize := 0 |}
  /\ getStats (fst (addDocument name text size words pages uploaded emb db))
     = {| totalDocuments := totalDocuments (getStats db) + 1;
          totalWordCount := totalWordCount (getStats db) + words;
          totalPageCount := totalPageCount (getStats db) + pages;
          totalFileSize := totalFileSize (getStats db) + size |}
  /\ (Reachable db ->
      forall key doc,
        getDocumentById db key = Some doc ->
        getStats (fst (deleteDocument key db))
        = {| totalDocuments := totalDocuments (getStats db) - 1;
             totalWordCount := totalWordCount (getStats db) - wordCount doc;
             totalPageCount := totalPageCount (getStats db) - pageCount doc;
             totalFileSize := totalFileSize (getStats db) - fileSize doc |})
  /\ (forall key,
        getDocumentById db key = None ->
        getStats (fst (deleteDocument key db)) = getStats db).
Proof.
  split; [| split; [reflexivity | split; [| split]]].
  - unfold getStats, getAllDocuments, orderByUploadedAtDesc. cbn [totalDocuments].
    now rewrite length_map, sort_length.
  - unfold getStats. cbn [addDocument fst documents totalDocuments totalWordCount
                           totalPageCount totalFileSize].
    rewrite !sumOf_app, length_app. unfold sumOf at 2 4 6.
    cbn [fold_left wordCount pageCount fileSize List.length].
    f_equal; lia.
  - intros Hdb key doc Hdoc.
    destruct (reachable_consistent db Hdb) as ((_ & Hnodup) & _).
    unfold getStats, getDocumentById in *.
    cbn [deleteDocument fst documents totalDocuments totalWordCount
         totalPageCount totalFileSize].
    destruct (sumOf_delete wordCount key _ doc Hnodup Hdoc) as (Hwords & Hlen).
    destruct (sumOf_delete pageCount key _ doc Hnodup Hdoc) as (Hpages & _).
    destruct (sumOf_delete fileSize key _ doc Hnodup Hdoc) as (Hsize & _).
    rewrite Hwords, Hpages, Hsize. f_equal. lia.
  - intros key Hnone. unfold getStats, getDocumentById in *.
    cbn [deleteDocument fst documents].
    now rewrite (filter_missing_key key (documents db) Hnone).
Qed.

Lemma getStats_follows_the_table_witness :
  getStats (fst (addDocument "a.txt" "a cat here" 10 3 1
                   "2024-01-01T00:00:00.000Z" None empty))
  = {| totalDocuments := 1; totalWordCount := 3;
       totalPageCount := 1; totalFileSize := 10 |}
  /\ getStats (fst (addDocument "c.txt" "a dog" 5 2 1 "2024-01-03T00:00:00.000Z"
                      None twoUploads))
     = {| totalDocuments := totalDocuments (getStats twoUploads) + 1;
          totalWordCount := totalWordCount (getStats twoUploads) + 2;
          totalPageCount := totalPageCount (getStats twoUploads) + 1;
          totalFileSize := totalFileSize (getStats twoUploads) + 5 |}
  /\ getStats (fst (deleteDocument 1 twoUploads))
     = {| totalDocuments := totalDocuments (getStats twoUploads) - 1;
          totalWordCount := totalWordCount (getStats twoUploads) - 3;
          totalPageCount := totalPageCount (getStats twoUploads) - 1;
          totalFileSize := totalFileSize (getStats twoUploads) - 10 |}.
Proof.
  split; [| split].
  - destruct (getStats_follows_the_table empty "a.txt" "a cat here" 10 3 1
                "2024-01-01T00:00:00.000Z" None) as (_ & Hempty & Hadd & _).
    rewrite Hadd, Hempty. reflexivity.
  - apply (getStats_follows_the_table twoUploads "c.txt" "a dog" 5 2 1
             "2024-01-03T00:00:00.000Z" None).
  - destruct (getStats_follows_the_table twoUploads "c.txt" "a dog" 5 2 1
                "2024-01-03T00:00:00.000Z" None) as (_ & _ & _ & Hdelete & _).
    apply (Hdelete twoUploads_reachable 1%Z
             {| id := 1; filename := "a.txt"; content := "a cat here";
                fileSize := 10; wordCount := 3; pageCount := 1;
                uploadedAt := "2024-01-01T00:00:00.000Z"; embedding := None |}).
    reflexivity.
Defined.

End DocumentsTable.

(* ================================================================== *)
(** * The search history *)
(* ================================================================== *)

Section History.

Import JS.
Import SearchHistory.

Lemma strongly_sorted_app_inv {A : Type} (R0 : A -> A -> Prop) (xs ys : list A) :
  StronglySorted R0 (xs ++ ys) ->
  forall x y, In x xs -> In y ys -> R0 x y.
Proof.
  induction xs as [| a xs IH]; intros Hsorted x y Hx Hy; [destruct Hx |].
  cbn [app] in Hsorted. apply StronglySorted_inv in Hsorted as (Hrest & Hhead).
  destruct Hx as [<- | Hx].
  - rewrite Forall_forall in Hhead. apply Hhead, in_or_app. now right.
  - now apply IH.
Qed.

Lemma history_sorted (entries : list Entry) :
  StronglySorted
    (fun a b => String.leb (searched_at b) (searched_at a) = true)
    (sort (fun a b => String.ltb (searched_at a) (searched_at b)) entries).
Proof.
  eapply strongly_sorted_impl; [| apply sort_sorted].
  - cbn beta. intros a b. apply not_ltb_leb.
  - intros a b. apply ltb_asymmetric.
  - intros a b c. apply not_ltb_transitive.
Qed.

(** The newest entry goes to the front of the sorted table. *)
Lemma sort_newest (entries : list Entry) (newest : Entry) :
  Forall (fun e => String.ltb (searched_at e) (searched_at newest) = true) entries ->
  sort (fun a b => String.ltb (searched_at a) (searched_at b)) (entries ++ [newest])
  = newest :: sort (fun a b => String.ltb (searched_at a) (searched_at b)) entries.
Proof.
  intros Holder. induction Holder as [| e entries He _ IH]; [reflexivity |].
  cbn [app sort fold_right]. fold (sort (fun a b => String.ltb (searched_at a) (searched_at b)) (entries ++ [newest])).
  fold (sort (fun a b => String.ltb (searched_at a) (searched_at b)) entries).
  rewrite IH. cbn [insertSorted]. now rewrite He.
Qed.

(** [getSearchHistory] gives at most 50 rows, most recent first; they are
    rows of the table, and a row it leaves out is not more recent than any
    row it gives.  [getRecentSearches] passes them on whatever its [limit]
    is, and gives the empty list when the query fails. *)
Theorem getSearchHistory_is_recent (h : State) :
  List.length (getSearchHistory h) <= 50
  /\ RecentFirst (getSearchHistory h)
  /\ (exists kept older,
        getSearchHistory h = map rowOf kept
        /\ Permutation (kept ++ older) (search_history h)
        /\ (older = [] \/ List.length kept = 50)
        /\ forall k o, In k kept -> In o older ->
             String.leb (searched_at o) (searched_at k) = true)
  /\ (forall limit,
        getRecentSearches (Return (getSearchHistory h)) limit = getSearchHistory h)
  /\ (forall e limit, getRecentSearches (Throw e) limit = []).
Proof.
  unfold getSearchHistory.
  set (sorted := sort (fun a b => String.ltb (searched_at a) (searched_at b))
                      (search_history h)).
  assert (Hsorted : StronglySorted
                      (fun a b => String.leb (searched_at b) (searched_at a) = true)
                      sorted) by apply history_sorted.
  split; [| split; [| split; [| split]]].
  - rewrite length_map, length_firstn. lia.
  - unfold RecentFirst.
    apply (strongly_sorted_map rowOf
             (fun a b => String.leb (searchedAt b) (searchedAt a) = true)).
    apply (strongly_sorted_subsequence _ _ sorted);
      [apply subsequence_firstn | exact Hsorted].
  - exists (firstn 50 sorted), (skipn 50 sorted).
    split; [reflexivity |]. split; [| split].
    + rewrite firstn_skipn. apply sort_permutation.
    + destruct (Nat.le_gt_cases (List.length sorted) 50) as [Hfew | Hmany].
      * left. now apply skipn_all2.
      * right. rewrite length_firstn. lia.
    + rewrite <- (firstn_skipn 50 sorted) in Hsorted.
      intros k o Hk Ho.
      exact (strongly_sorted_app_inv _ _ _ Hsorted k o Hk Ho).
  - reflexivity.
  - reflexivity.
Qed.

(** A search logged at a time after every time in the table is the first
    row of the history, with its query and its count; the rows after it are
    the first 49 of the history before. *)
Theorem logSearch_then_getSearchHistory (h : State) (now query : string)
  (count : Z) :
  Forall (fun e => String.ltb (searched_at e) now = true) (search_history h) ->
  getSearchHistory (fst (logSearch now query count h))
  = {| SearchHistory.query := query; resultCount := count; searchedAt := now |}
    :: firstn 49 (getSearchHistory h).
Proof.
  intros Holder. unfold getSearchHistory, logSearch. cbn [fst search_history].
  rewrite sort_newest by exact Holder.
  rewrite firstn_cons, map_cons. f_equal.
  rewrite firstn_map, firstn_firstn. reflexivity.
Qed.

Lemma logSearch_then_getSearchHistory_witness :
  getSearchHistory
    (fst (logSearch "2024-01-02 10:00:00" "dog" 0
            (fst (logSearch "2024-01-01 09:00:00" "cat" 2 empty))))
  = [ {| SearchHistory.query := "dog"; resultCount := 0;
         searchedAt := "2024-01-02 10:00:00" |};
      {| SearchHistory.query := "cat"; resultCount := 2;
         searchedAt := "2024-01-01 09:00:00" |} ].
Proof.
  apply (logSearch_then_getSearchHistory
           (fst (logSearch "2024-01-01 09:00:00" "cat" 2 empty))
           "2024-01-02 10:00:00" "dog" 0).
  repeat constructor.
Defined.

(** [GET /search] answers what it answers without the history, logs the
    query with the number of its results when it answers 200, and leaves
    the history as it is when it answers 400 or 500. *)
Theorem get_search_logs_what_it_finds `{RegExpEngine} (now : string)
  (service : SearchService.Service) (req : Server.Request) (h : State) :
  fst (LoggingServer.get_search now service req h) = Server.get_search service req
  /\ match Server.body (Server.get_search service req) with
     | Server.Found query results total =>
         Server.status (Server.get_search service req) = 200%Z
         /\ total = SearchService.resultCount results
         /\ snd (LoggingServer.get_search now service req h)
            = fst (logSearch now query (Z.of_nat total) h)
     | Server.Failed _ _ =>
         Server.status (Server.get_search service req) <> 200%Z
         /\ snd (LoggingServer.get_search now service req h) = h
     end.
Proof.
  unfold LoggingServer.get_search, Server.get_search.
  destruct (Server.q req) as [query |]; [| split; [reflexivity | split; [discriminate | reflexivity]]].
  destruct (Server.blank (Some query));
    [split; [reflexivity | split; [discriminate | reflexivity]] |].
  destruct (SearchService.search service query (Server.limitOf req)) as [results | e].
  - split; [reflexivity |]. cbn [Server.body Server.status snd]. auto.
  - split; [reflexivity |]. cbn [Server.body Server.status snd].
    split; [discriminate | reflexivity].
Qed.

End History.

(* ================================================================== *)
(** * Boundaries and sizes of the character chunker *)
(* ================================================================== *)

Section Boundaries.

Import JS.
Import DocumentProcessor.

Lemma scanDown_found (test : Z -> bool) (steps : nat) (from found : Z) :
  scanDown test steps from = Some found ->
  test found = true /\ (from - Z.of_nat steps < found <= from)%Z.
Proof.
  revert from; induction steps as [| steps IH]; intros from; cbn [scanDown];
    [discriminate |].
  destruct (test from) eqn:Htest.
  - intros Hfound. injection Hfound as <-. split; [exact Htest | lia].
  - intros Hfound. apply IH in Hfound as (Hpass & Hrange). split; [exact Hpass | lia].
Qed.

Lemma findWordBoundary_range (text : string) (position : Z) :
  (findWordBoundary text position <= position)%Z
  /\ (position - 50 < findWordBoundary text position)%Z
  /\ ((findWordBoundary text position < position)%Z ->
      (0 < findWordBoundary text position)%Z
      /\ spaceAt text (findWordBoundary text position) = true
      /\ spaceAt text (findWordBoundary text position - 1) = false).
Proof.
  unfold findWordBoundary.
  destruct (scanDown _ _ position) as [found |] eqn:Hscan.
  - apply scanDown_found in Hscan as (Htest & Hrange).
    apply andb_true_iff in Htest as (Hspace & Hbefore).
    apply negb_true_iff in Hbefore.
    repeat split; try assumption; lia.
  - repeat split; lia.
Qed.

(** [findWordBoundary] looks backwards only: what it returns is never
    after [position], and less than 50 before it; when it is before, it is
    a white space that follows a unit that is none.  So the test
    [wordStart > start && wordStart < start + 50] of [splitIntoChunks]
    never holds, and the start of a chunk is never moved. *)
Theorem findWordBoundary_looks_back (text : string) (position : Z) :
  (findWordBoundary text position <= position)%Z
  /\ (position - 50 < findWordBoundary text position)%Z
  /\ ((findWordBoundary text position < position)%Z ->
      (0 < findWordBoundary text position)%Z
      /\ spaceAt text (findWordBoundary text position) = true
      /\ spaceAt text (findWordBoundary text position - 1) = false)
  /\ (0 <? position)%Z
     && (position <? findWordBoundary text position)%Z
     && (findWordBoundary text position <? position + 50)%Z = false.
Proof.
  destruct (findWordBoundary_range text position) as (Hle & Hgt & Hspace).
  repeat split; try assumption.
  - now apply Hspace.
  - now apply Hspace.
  - now apply Hspace.
  - replace (position <? findWordBoundary text position)%Z with false
      by (symmetry; apply Z.ltb_ge; exact Hle).
    now rewrite andb_false_r.
Qed.

Lemma charAt_some (text : string) (i : Z) (c : ascii) :
  charAt text i = Some c -> (0 <= i < length text)%Z.
Proof.
  unfold charAt, length. destruct (i <? 0)%Z eqn:Hneg; [discriminate |].
  apply Z.ltb_ge in Hneg. intros Hget.
  assert (Hlt : Z.to_nat i < String.length text).
  { revert Hget. generalize (Z.to_nat i). clear.
    induction text as [| d text IH]; intros [| n]; cbn [String.get String.length];
      try discriminate; try lia.
    intros Hget. apply IH in Hget. lia. }
  lia.
Qed.

Lemma findSentenceBoundary_range (text : string) (start end_ : Z) :
  findSentenceBoundary text start end_ = end_
  \/ ((Z.max (end_ - 100) start + 1 < findSentenceBoundary text start end_)%Z
      /\ (findSentenceBoundary text start end_ <= end_ + 51)%Z
      /\ (findSentenceBoundary text start end_ <= length text)%Z
      /\ sentenceEndAt text (findSentenceBoundary text start end_ - 1) = true
      /\ (findSentenceBoundary text start end_ = Z.min (end_ + 50) (length text)
          \/ spaceAt text (findSentenceBoundary text start end_) = true)).
Proof.
  unfold findSentenceBoundary.
  replace (start + (end_ - start) - 100)%Z with (end_ - 100)%Z by lia.
  set (searchStart := Z.max (end_ - 100) start).
  set (searchEnd := Z.min (end_ + 50) (length text)).
  destruct (scanDown _ _ searchEnd) as [found |] eqn:Hscan; [right | now left].
  apply scanDown_found in Hscan as (Htest & Hrange).
  apply andb_true_iff in Htest as (Hmark & Hnext).
  assert (Hinside : (0 <= found < length text)%Z).
  { unfold sentenceEndAt in Hmark.
    destruct (charAt text found) as [c |] eqn:Hc; [| discriminate].
    exact (charAt_some _ _ _ Hc). }
  replace (found + 1 - 1)%Z with found by lia.
  repeat split; try assumption; try lia.
  apply orb_true_iff in Hnext as [Hlast | Hspace].
  - left. apply Z.eqb_eq in Hlast. lia.
  - now right.
Qed.

(** [findSentenceBoundary] returns [end] itself, or the place after one of
    [.], [!], [?] that stands inside the text, after
    [max(end - 100, start)] and at most 50 units after [end], and that is
    followed by white space or is the last unit searched. *)
Theorem findSentenceBoundary_after_a_mark (text : string) (start end_ : Z) :
  findSentenceBoundary text start end_ = end_
  \/ ((Z.max (end_ - 100) start + 1 < findSentenceBoundary text start end_)%Z
      /\ (findSentenceBoundary text start end_ <= end_ + 51)%Z
      /\ (findSentenceBoundary text start end_ <= length text)%Z
      /\ sentenceEndAt text (findSentenceBoundary text start end_ - 1) = true
      /\ (findSentenceBoundary text start end_ = Z.min (end_ + 50) (length text)
          \/ spaceAt text (findSentenceBoundary text start end_) = true)).
Proof. apply findSentenceBoundary_range. Qed.

Lemma length_native_substring (n m : nat) (s : string) :
  String.length (String.substring n m s) <= m.
Proof.
  revert n m; induction s as [| c s IH]; intros [| n] [| m];
    cbn [String.substring String.length]; try lia.
  - specialize (IH 0 m). lia.
  - apply IH.
  - apply IH.
Qed.

Lemma length_substring (s : string) (start end_ : Z) :
  (start <= end_)%Z ->
  (length (substring s start end_) <= end_ - start)%Z.
Proof.
  intros Horder. unfold substring, length.
  match goal with
  | |- context [String.substring ?n ?m s] =>
      pose proof (length_native_substring n m s) as Hlen
  end.
  lia.
Qed.

Lemma length_trimStart (s : string) :
  String.length (trimStart s) <= String.length s.
Proof.
  induction s as [| c s IH]; cbn [trimStart String.length]; [lia |].
  destruct (isWhiteSpace c); cbn [String.length]; lia.
Qed.

Lemma length_trimEnd (s : string) :
  String.length (trimEnd s) <= String.length s.
Proof.
  induction s as [| c s IH]; cbn [trimEnd String.length]; [lia |].
  destruct (trimEnd s) as [| d kept].
  - destruct (isWhiteSpace c); cbn [String.length]; lia.
  - cbn [String.length] in *. lia.
Qed.

Lemma length_trim (s : string) : (length (trim s) <= length s)%Z.
Proof.
  unfold length, trim.
  pose proof (length_trimEnd (trimStart s)). pose proof (length_trimStart s). lia.
Qed.

Lemma trimEnd_idempotent (s : string) : trimEnd (trimEnd s) = trimEnd s.
Proof.
  induction s as [| c s IH]; [reflexivity |].
  cbn [trimEnd]. destruct (trimEnd s) as [| d kept] eqn:Hkept.
  - destruct (isWhiteSpace c) eqn:Hc; [reflexivity |].
    cbn [trimEnd]. now rewrite Hc.
  - cbn [trimEnd]. cbn [trimEnd] in IH. rewrite IH. reflexivity.
Qed.

Lemma trimEnd_head (c : ascii) (s : string) :
  isWhiteSpace c = false -> exists kept, trimEnd (String c s) = String c kept.
Proof.
  intros Hc. cbn [trimEnd]. destruct (trimEnd s) as [| d kept].
  - rewrite Hc. now exists "".
  - now exists (String d kept).
Qed.

Lemma trim_idempotent (s : string) : trim (trim s) = trim s.
Proof.
  unfold trim.
  destruct (trimStart_head s) as [-> | (c & rest & -> & Hc)]; [reflexivity |].
  destruct (trimEnd_head c rest Hc) as (kept & Hkept).
  rewrite Hkept. cbn [trimStart]. rewrite Hc, <- Hkept.
  apply trimEnd_idempotent.
Qed.

Lemma substring_whole (s : string) : substring s 0 (length s) = s.
Proof.
  unfold substring, length.
  set (len := Z.of_nat (String.length s)).
  assert (Hlen : (0 <= len)%Z) by (unfold len; lia).
  replace (Z.min (Z.max 0 0) len) with 0%Z by lia.
  replace (Z.min (Z.max len 0) len) with len by lia.
  replace (Z.min 0 len) with 0%Z by lia.
  replace (Z.max 0 len) with len by lia.
  unfold len. rewrite Z.sub_0_r, Nat2Z.id. cbn [Z.to_nat]. clear.
  induction s as [| c s IH]; [reflexivity |].
  cbn [String.length String.substring]. now rewrite IH.
Qed.

(** The loop of [splitIntoChunks] keeps trimmed pieces of the text, none
    longer than [chunkSize + 51]. *)
Lemma chunkLoop_sizes (cleanText : string) (chunkSize overlap : Z) :
  (0 <= chunkSize)%Z ->
  forall fuel start chunks,
    chunkLoop fuel cleanText chunkSize overlap start = Some chunks ->
    Forall
      (fun chunk =>
         (length chunk <= chunkSize + 51)%Z
         /\ exists from to,
              (from <= to <= from + chunkSize + 51)%Z
              /\ chunk = trim (substring cleanText from to))
      chunks.
Proof.
  intros Hsize.
  induction fuel as [| fuel IH]; intros start chunks; cbn [chunkLoop].
  - destruct (start <? length cleanText)%Z; [discriminate |].
    intros Hchunks. injection Hchunks as <-. constructor.
  - destruct (start <? length cleanText)%Z;
      [| intros Hchunks; injection Hchunks as <-; constructor].
    destruct (findWordBoundary_range cleanText start) as (Hback & _ & _).
    replace (start <? findWordBoundary cleanText start)%Z with false
      by (symmetry; apply Z.ltb_ge; exact Hback).
    rewrite andb_false_r. cbn [andb].
    match goal with
    | |- context [substring cleanText start ?e] => set (end_ := e)
    end.
    assert (Hend : (start <= end_ <= start + chunkSize + 51)%Z).
    { unfold end_.
      destruct (start + chunkSize <? length cleanText)%Z; [| lia].
      destruct (start <? findSentenceBoundary cleanText start (start + chunkSize))%Z
        eqn:Hfound; [| lia].
      apply Z.ltb_lt in Hfound.
      destruct (findSentenceBoundary_range cleanText start (start + chunkSize))
        as [-> | (_ & Hnear & _)]; lia. }
    destruct (chunkLoop fuel cleanText chunkSize overlap _) as [rest |] eqn:Hrest;
      [| discriminate].
    intros Hchunks. injection Hchunks as <-.
    specialize (IH _ _ Hrest).
    destruct (truthy (trim (substring cleanText start end_))); [| exact IH].
    constructor; [| exact IH]. split.
    + pose proof (length_trim (substring cleanText start end_)).
      pose proof (length_substring cleanText start end_ ltac:(lia)). lia.
    + exists start, end_. split; [lia | reflexivity].
Qed.

(** For a chunk size that is not negative, no chunk of [splitIntoChunks]
    is longer than [chunkSize + 51], and each is a trimmed piece of the
    normalized text. *)
Theorem splitIntoChunks_sizes (text : string) (chunkSize overlap : Z)
  (chunks : list string) :
  (0 <= chunkSize)%Z ->
  splitIntoChunks text chunkSize overlap = Some chunks ->
  Forall
    (fun chunk =>
       (length chunk <= chunkSize + 51)%Z
       /\ exists from to,
            (from <= to <= from + chunkSize + 51)%Z
            /\ chunk = trim (substring (cleanTextOf text) from to))
    chunks.
Proof.
  intros Hsize. unfold splitIntoChunks.
  destruct (negb (truthy text) || (String.length text =? 0)).
  - intros Hchunks. injection Hchunks as <-. constructor.
  - destruct (length (cleanTextOf text) <=? chunkSize)%Z eqn:Hshort.
    + intros Hchunks. injection Hchunks as <-.
      apply Z.leb_le in Hshort. constructor; [| constructor]. split; [lia |].
      exists 0%Z, (length (cleanTextOf text)). split.
      * unfold length in *. lia.
      * rewrite substring_whole. unfold cleanTextOf.
        symmetry. apply trim_idempotent.
    + apply chunkLoop_sizes. exact Hsize.
Qed.

Lemma splitIntoChunks_sizes_witness :
  Forall
    (fun chunk =>
       (length chunk <= 4 + 51)%Z
       /\ exists from to,
            (from <= to <= from + 4 + 51)%Z
            /\ chunk = trim (substring (cleanTextOf "ab  cd ef") from to))
    ["ab c"; "cd e"; "ef"].
Proof.
  apply (splitIntoChunks_sizes "ab  cd ef" 4 1); [lia | reflexivity].
Defined.

End Boundaries.

(* ================================================================== *)
(** * The text cleaned for an embedding *)
(* ================================================================== *)

Section Cleaning.

Import JS.
Import DocumentProcessor.
Import TextCleaning.

Lemma keyChar_facts (c : ascii) :
  keyChar c = true ->
  isWhiteSpace c = false /\ (code c =? 32) = false
  /\ isWordChar c = true /\ lowerChar c = c.
Proof.
  destruct c as [[] [] [] [] [] [] [] []]; vm_compute; intros Hkey;
    try discriminate Hkey; repeat split.
Qed.

Lemma lowered_word_char (c : ascii) :
  isWordChar (lowerChar c) = true -> keyChar (lowerChar c) = true.
Proof.
  destruct c as [[] [] [] [] [] [] [] []]; vm_compute; intros Hword;
    try discriminate Hword; reflexivity.
Qed.

Lemma space_unit (c : ascii) : (code c =? 32) = true -> c = " "%char.
Proof.
  destruct c as [[] [] [] [] [] [] [] []]; vm_compute; intros Hspace;
    try discriminate Hspace; reflexivity.
Qed.

Lemma space_is_white (c : ascii) : (code c =? 32) = true -> isWhiteSpace c = true.
Proof. intros Hspace. now rewrite (space_unit c Hspace). Qed.

Lemma collapse_spaced (text : string) :
  forall inRun,
    spacedFrom inRun (collapseFrom inRun (replacePunctuation (toLowerCase text)))
    = true.
Proof.
  induction text as [| c text IH]; intros inRun; [reflexivity |].
  cbn [toLowerCase replacePunctuation].
  destruct (isWordChar (lowerChar c)) eqn:Hword; cbn [orb].
  - apply lowered_word_char in Hword.
    destruct (keyChar_facts _ Hword) as (Hwhite & Hspace & _ & _).
    cbn [collapseFrom]. rewrite Hwhite. cbn [spacedFrom].
    now rewrite Hspace, Hword, IH.
  - assert (Hwhite : isWhiteSpace
                       (if isWhiteSpace (lowerChar c) then lowerChar c else " "%char)
                     = true).
    { destruct (isWhiteSpace (lowerChar c)) eqn:Hc; [exact Hc | reflexivity]. }
    cbn [collapseFrom]. rewrite Hwhite.
    destruct inRun; [apply IH |].
    cbn [spacedFrom]. change (code " " =? 32) with true. cbn [negb andb]. apply IH.
Qed.

Lemma trimStart_spaced (afterSpace : bool) (s : string) :
  spacedFrom afterSpace s = true -> spacedFrom true (trimStart s) = true.
Proof.
  destruct s as [| c rest]; [reflexivity |].
  cbn [spacedFrom trimStart].
  destruct (code c =? 32) eqn:Hspace.
  - rewrite (space_is_white c Hspace). intros Hrest.
    apply andb_true_iff in Hrest as (_ & Hrest).
    destruct rest as [| d rest]; [reflexivity |].
    cbn [spacedFrom] in Hrest. cbn [trimStart].
    destruct (code d =? 32) eqn:Hd; [discriminate Hrest |].
    apply andb_true_iff in Hrest as (Hkey & Hrest).
    destruct (keyChar_facts d Hkey) as (Hwhite & _).
    rewrite Hwhite. cbn [spacedFrom]. now rewrite Hd, Hkey, Hrest.
  - intros Hrest. apply andb_true_iff in Hrest as (Hkey & Hrest).
    destruct (keyChar_facts c Hkey) as (Hwhite & _).
    rewrite Hwhite. cbn [spacedFrom]. now rewrite Hspace, Hkey, Hrest.
Qed.

Lemma trimEnd_clean (s : string) :
  forall afterSpace,
    spacedFrom afterSpace s = true ->
    trimEnd s = "" \/ cleanFrom afterSpace (trimEnd s) = true.
Proof.
  induction s as [| c s IH]; intros afterSpace Hspaced; [now left |].
  cbn [spacedFrom] in Hspaced. cbn [trimEnd].
  destruct (code c =? 32) eqn:Hspace.
  - apply andb_true_iff in Hspaced as (Hfirst & Hrest).
    rewrite (space_is_white c Hspace).
    destruct (IH true Hrest) as [-> | Hclean]; [now left |].
    destruct (trimEnd s) as [| d kept]; [now left |]. right.
    cbn [cleanFrom]. rewrite Hspace, Hfirst. exact Hclean.
  - apply andb_true_iff in Hspaced as (Hkey & Hrest).
    destruct (keyChar_facts c Hkey) as (Hwhite & _).
    rewrite Hwhite. right.
    destruct (IH false Hrest) as [-> | Hclean].
    + cbn [cleanFrom]. now rewrite Hspace, Hkey.
    + destruct (trimEnd s) as [| d kept].
      * cbn [cleanFrom]. now rewrite Hspace, Hkey.
      * cbn [cleanFrom]. rewrite Hspace, Hkey. exact Hclean.
Qed.

Lemma cleanFrom_head (afterSpace : bool) (c : ascii) (rest : string) :
  cleanFrom true (String c rest) = true ->
  keyChar c = true /\ cleanFrom false rest = true.
Proof.
  cbn [cleanFrom]. destruct (code c =? 32); [discriminate |].
  apply andb_true_iff.
Qed.

Lemma clean_lower (s : string) :
  forall afterSpace, cleanFrom afterSpace s = true -> toLowerCase s = s.
Proof.
  induction s as [| c s IH]; intros afterSpace Hclean; [reflexivity |].
  cbn [cleanFrom] in Hclean. cbn [toLowerCase].
  destruct (code c =? 32) eqn:Hspace.
  - apply andb_true_iff in Hclean as (_ & Hrest).
    rewrite (space_unit c Hspace). now rewrite (IH true Hrest).
  - apply andb_true_iff in Hclean as (Hkey & Hrest).
    destruct (keyChar_facts c Hkey) as (_ & _ & _ & ->).
    now rewrite (IH false Hrest).
Qed.

Lemma clean_punctuation (s : string) :
  forall afterSpace, cleanFrom afterSpace s = true -> replacePunctuation s = s.
Proof.
  induction s as [| c s IH]; intros afterSpace Hclean; [reflexivity |].
  cbn [cleanFrom] in Hclean. cbn [replacePunctuation].
  destruct (code c =? 32) eqn:Hspace.
  - apply andb_true_iff in Hclean as (_ & Hrest).
    rewrite (space_is_white c Hspace), orb_true_r. now rewrite (IH true Hrest).
  - apply andb_true_iff in Hclean as (Hkey & Hrest).
    destruct (keyChar_facts c Hkey) as (_ & _ & -> & _).
    cbn [orb]. now rewrite (IH false Hrest).
Qed.

Lemma clean_collapse (s : string) :
  forall afterSpace, cleanFrom afterSpace s = true -> collapseFrom afterSpace s = s.
Proof.
  induction s as [| c s IH]; intros afterSpace Hclean; [reflexivity |].
  cbn [cleanFrom] in Hclean. cbn [collapseFrom].
  destruct (code c =? 32) eqn:Hspace.
  - apply andb_true_iff in Hclean as (Hfirst & Hrest).
    rewrite (space_is_white c Hspace).
    destruct afterSpace; [discriminate Hfirst |].
    rewrite (space_unit c Hspace). now rewrite (IH true Hrest).
  - apply andb_true_iff in Hclean as (Hkey & Hrest).
    destruct (keyChar_facts c Hkey) as (-> & _).
    now rewrite (IH false Hrest).
Qed.

Lemma clean_trimEnd (s : string) :
  forall afterSpace, cleanFrom afterSpace s = true -> trimEnd s = s.
Proof.
  induction s as [| c s IH]; intros afterSpace Hclean; [reflexivity |].
  cbn [cleanFrom] in Hclean. cbn [trimEnd].
  destruct (code c =? 32) eqn:Hspace.
  - apply andb_true_iff in Hclean as (_ & Hrest).
    rewrite (IH true Hrest).
    destruct s as [| d s]; [discriminate Hrest | reflexivity].
  - apply andb_true_iff in Hclean as (Hkey & Hrest).
    destruct (keyChar_facts c Hkey) as (Hwhite & _).
    rewrite (IH false Hrest), Hwhite.
    destruct s; reflexivity.
Qed.

Lemma clean_fixed (s : string) :
  isClean s = true -> cleanTextForEmbedding s = s.
Proof.
  destruct s as [| c rest]; [reflexivity |].
  intros Hclean. cbn [isClean] in Hclean.
  unfold cleanTextForEmbedding, collapseWhiteSpace.
  rewrite (clean_lower _ true Hclean), (clean_punctuation _ true Hclean).
  destruct (cleanFrom_head true c rest Hclean) as (Hkey & Hrest).
  destruct (keyChar_facts c Hkey) as (Hwhite & _).
  cbn [collapseFrom]. rewrite Hwhite, (clean_collapse rest false Hrest).
  unfold trim. cbn [trimStart]. rewrite Hwhite.
  exact (clean_trimEnd _ true Hclean).
Qed.

Lemma cleaned_is_clean (text : string) :
  isClean (cleanTextForEmbedding text) = true.
Proof.
  unfold cleanTextForEmbedding, collapseWhiteSpace, trim.
  pose proof (trimStart_spaced false _ (collapse_spaced text false)) as Hspaced.
  destruct (trimEnd_clean _ true Hspaced) as [-> | Hclean]; [reflexivity |].
  destruct (trimEnd _) as [| c kept]; [reflexivity | exact Hclean].
Qed.

(** What [cleanTextForEmbedding] returns is made of words of small letters,
    digits and underscores, with one space between two and none at either
    end; a text of that form it returns as it is, so cleaning twice is
    cleaning once. *)
Theorem cleanTextForEmbedding_normal_form (text : string) :
  isClean (cleanTextForEmbedding text) = true
  /\ (forall s, isClean s = true -> cleanTextForEmbedding s = s)
  /\ cleanTextForEmbedding (cleanTextForEmbedding text)
     = cleanTextForEmbedding text.
Proof.
  split; [apply cleaned_is_clean |]. split; [apply clean_fixed |].
  apply clean_fixed, cleaned_is_clean.
Qed.

End Cleaning.

(* ================================================================== *)
(** * Storing chunks *)
(* ================================================================== *)

Section StoringChunks.

Import JS.
Import DatabaseService.
Import ChunkStore.

Lemma existsb_absent {A : Type} (key : A -> string) (wanted : string) (rows : list A) :
  ~ In wanted (map key rows) ->
  existsb (fun r => String.eqb (key r) wanted) rows = false.
Proof.
  intros Habsent. induction rows as [| r rows IH]; [reflexivity |].
  cbn [existsb]. cbn [map] in Habsent.
  destruct (String.eqb (key r) wanted) eqn:Hkey.
  - apply String.eqb_eq in Hkey. exfalso. apply Habsent. now left.
  - apply IH. intros Hin. apply Habsent. now right.
Qed.

Lemma filter_absent {A : Type} (key : A -> string) (wanted : string) (rows : list A) :
  ~ In wanted (map key rows) ->
  filter (fun r => String.eqb wanted (key r)) rows = [].
Proof.
  intros Habsent. induction rows as [| r rows IH]; [reflexivity |].
  cbn [filter]. cbn [map] in Habsent.
  destruct (String.eqb wanted (key r)) eqn:Hkey.
  - apply String.eqb_eq in Hkey. exfalso. apply Habsent. now left.
  - apply IH. intros Hin. apply Habsent. now right.
Qed.

Lemma insertChunks_inserts (uuid clock : nat -> string) (chunks : list string) :
  forall position db,
    NoDup (map uuid (seq (S position) (List.length chunks))) ->
    (forall k, In k (seq (S position) (List.length chunks)) ->
       ~ In (uuid k) (map chunk_id (document_chunks db))) ->
    insertChunks uuid clock (uuid 0) position chunks db
    = ({| documents := documents db;
          document_chunks :=
            document_chunks db ++ insertedRows uuid clock position chunks |},
       Return tt).
Proof.
  induction chunks as [| chunk chunks IH]; intros position db Hdistinct Hfresh.
  - cbn [insertChunks insertedRows]. rewrite app_nil_r. now destruct db.
  - cbn [insertChunks insertedRows]. unfold insertChunk. cbn [chunk_id].
    cbn [List.length seq map] in Hdistinct, Hfresh.
    apply NoDup_cons_iff in Hdistinct as (Hfirst & Hdistinct).
    rewrite (existsb_absent chunk_id (uuid (S position)))
      by (apply Hfresh; now left).
    rewrite IH.
    + cbn [documents document_chunks]. now rewrite <- app_assoc.
    + exact Hdistinct.
    + intros k Hk. cbn [document_chunks]. rewrite map_app. cbn [map chunk_id].
      intros Hin. apply in_app_or in Hin as [Hold | [Hnew | []]].
      * apply (Hfresh k); [now right | exact Hold].
      * apply Hfirst. rewrite Hnew. apply in_map. exact Hk.
Qed.

Lemma joined_new_rows (uuid clock : nat -> string) (filename content : string)
  (docs : list DocumentRow) (chunks : list string) :
  ~ In (uuid 0) (map doc_id docs) ->
  forall position,
    flat_map
      (fun dc =>
         map (fun d =>
                {| id := chunk_id dc; DatabaseService.content := chunk_content dc;
                   chunk_index := index dc; filename := doc_filename d;
                   document_id := doc_id d; createdAt := created_at dc |})
             (filter (fun d => String.eqb (chunk_document_id dc) (doc_id d))
                     (docs ++ [ {| doc_id := uuid 0; doc_filename := filename;
                                   doc_content := content |} ])))
      (insertedRows uuid clock position chunks)
    = storedChunks uuid clock filename position chunks.
Proof.
  intros Hfresh. induction chunks as [| chunk chunks IH]; intros position;
    [reflexivity |].
  cbn [insertedRows storedChunks flat_map chunk_document_id].
  rewrite filter_app, (filter_absent doc_id (uuid 0) docs Hfresh).
  cbn [filter doc_id app]. rewrite String.eqb_refl. cbn [map app].
  now rewrite IH.
Qed.

Lemma joined_old_rows (rows : list ChunkRow) (docs : list DocumentRow)
  (newest : DocumentRow) :
  ~ In (doc_id newest) (map doc_id docs) ->
  Forall
    (fun c => existsb (fun d => String.eqb (doc_id d) (chunk_document_id c)) docs
              = true)
    rows ->
  joined {| documents := docs ++ [newest]; document_chunks := rows |}
  = joined {| documents := docs; document_chunks := rows |}.
Proof.
  intros Hfresh Hrows. unfold joined. cbn [documents document_chunks].
  induction Hrows as [| c rows Hc _ IH]; [reflexivity |].
  cbn [flat_map]. rewrite IH. f_equal.
  rewrite filter_app. cbn [filter].
  destruct (String.eqb (chunk_document_id c) (doc_id newest)) eqn:Hnew;
    [| now rewrite app_nil_r].
  apply String.eqb_eq in Hnew. exfalso. apply Hfresh.
  apply existsb_exists in Hc as (d & Hd & Hkey).
  apply String.eqb_eq in Hkey. rewrite <- Hnew, <- Hkey. now apply in_map.
Qed.

Lemma referenced_more (rows : list ChunkRow) (docs more : list DocumentRow) :
  Forall
    (fun c => existsb (fun d => String.eqb (doc_id d) (chunk_document_id c)) docs
              = true)
    rows ->
  Forall
    (fun c => existsb (fun d => String.eqb (doc_id d) (chunk_document_id c))
                      (docs ++ more)
              = true)
    rows.
Proof.
  intros Hrows. eapply Forall_impl; [| exact Hrows]. cbn beta. intros c Hc.
  rewrite existsb_app, Hc. reflexivity.
Qed.

Lemma insertedRows_referenced (uuid clock : nat -> string) (chunks : list string)
  (docs : list DocumentRow) (newest : DocumentRow) :
  doc_id newest = uuid 0 ->
  forall position,
    Forall
      (fun c => existsb (fun d => String.eqb (doc_id d) (chunk_document_id c))
                        (docs ++ [newest])
                = true)
      (insertedRows uuid clock position chunks).
Proof.
  intros Hid. induction chunks as [| chunk chunks IH]; intros position;
    constructor; [| apply IH].
  cbn [chunk_document_id]. rewrite existsb_app. cbn [existsb].
  rewrite Hid, String.eqb_refl. now rewrite orb_true_r.
Qed.

Lemma storeDocument_inserted (uuid clock : nat -> string)
  (filename content : string) (chunks : list string) (db : State) :
  Referenced db ->
  FreshIds uuid (List.length chunks) db ->
  exists db',
    storeDocument uuid clock filename content chunks db = (db', Return (uuid 0))
    /\ joined db' = joined db ++ storedChunks uuid clock filename 0 chunks
    /\ documents db'
       = documents db ++ [ {| doc_id := uuid 0; doc_filename := filename;
                              doc_content := content |} ]
    /\ Referenced db'.
Proof.
  intros Hreferenced (Hdocument & Hdistinct & Hfresh).
  unfold storeDocument, insertDocument. cbn [doc_id].
  rewrite (existsb_absent doc_id (uuid 0)) by exact Hdocument.
  rewrite insertChunks_inserts.
  - eexists. split; [reflexivity |]. cbn [documents document_chunks].
    split; [| split; [reflexivity |]].
    + unfold joined at 1. cbn [documents document_chunks].
      rewrite flat_map_app.
      rewrite (joined_new_rows uuid clock filename content _ chunks Hdocument 0).
      f_equal.
      pose proof (joined_old_rows (document_chunks db) (documents db)
                    {| doc_id := uuid 0; doc_filename := filename;
                       doc_content := content |} Hdocument Hreferenced) as Hold.
      unfold joined in Hold. cbn [documents document_chunks] in Hold.
      rewrite Hold. reflexivity.
    + unfold Referenced. cbn [documents document_chunks].
      apply Forall_app. split.
      * now apply referenced_more.
      * now apply insertedRows_referenced.
  - exact Hdistinct.
  - intros k Hk. cbn [document_chunks]. apply Hfresh.
    apply in_seq in Hk. lia.
Qed.

(** With ids that are new, [storeDocument] resolves to the id of the
    document, and the join of chunks and documents gains one row for each
    chunk, in order: its content, its index from 0, and the file name.
    Every chunk is stored, empty or not. *)
Theorem storeDocument_stores_every_chunk (uuid clock : nat -> string)
  (filename content : string) (chunks : list string) (db : State) :
  Referenced db ->
  FreshIds uuid (List.length chunks) db ->
  exists db',
    storeDocument uuid clock filename content chunks db = (db', Return (uuid 0))
    /\ joined db' = joined db ++ storedChunks uuid clock filename 0 chunks
    /\ documents db'
       = documents db ++ [ {| doc_id := uuid 0; doc_filename := filename;
                              doc_content := content |} ]
    /\ Referenced db'.
Proof. apply storeDocument_inserted. Qed.

Lemma storeDocument_stores_every_chunk_witness :
  exists db',
    storeDocument (fun k => String (ascii_of_nat (65 + k)) "")
      (fun _ => "2024-01-02 00:00:00") "b.txt" "red fox. blue jay"
      ["red fox."; "blue jay"] (notes [chunkRow "c1" "this" 0])
    = (db', Return "A")
    /\ joined db'
       = joined (notes [chunkRow "c1" "this" 0])
         ++ storedChunks (fun k => String (ascii_of_nat (65 + k)) "")
              (fun _ => "2024-01-02 00:00:00") "b.txt" 0 ["red fox."; "blue jay"]
    /\ documents db'
       = documents (notes [chunkRow "c1" "this" 0])
         ++ [ {| doc_id := "A"; doc_filename := "b.txt";
                 doc_content := "red fox. blue jay" |} ]
    /\ Referenced db'.
Proof.
  apply (storeDocument_stores_every_chunk
           (fun k => String (ascii_of_nat (65 + k)) "")
           (fun _ => "2024-01-02 00:00:00") "b.txt" "red fox. blue jay"
           ["red fox."; "blue jay"] (notes [chunkRow "c1" "this" 0])).
  - repeat constructor.
  - split; [| split].
    + cbn. intros [H | []]. discriminate H.
    + cbn. repeat constructor; cbn; intuition discriminate.
    + intros k Hk. cbn. intros [H | []].
      assert (Hcases : k = 1 \/ k = 2) by (cbn in Hk; lia).
      destruct Hcases as [-> | ->]; discriminate H.
Defined.

(** The rows of a store without their [embedding] column. *)
Lemma joined_ignores_embeddings (docs : list DocumentRow) (rows rows' : list ChunkRow) :
  map (withEmbedding None) rows' = map (withEmbedding None) rows ->
  joined {| documents := docs; document_chunks := rows' |}
  = joined {| documents := docs; document_chunks := rows |}.
Proof.
  unfold joined. cbn [documents document_chunks].
  revert rows'. induction rows as [| c rows IH]; intros [| c' rows'] Hsame;
    try discriminate Hsame; [reflexivity |].
  cbn [map] in Hsame. injection Hsame as Hid Hdoc Hindex Hcontent Hcreated Hrest.
  cbn [flat_map]. rewrite (IH rows' Hrest).
  now rewrite Hid, Hdoc, Hindex, Hcontent, Hcreated.
Qed.

Lemma updateChunks_closed_form (documentId : string)
  (embeddings : list (option string)) (chunks : list string) :
  forall position db,
    documents (updateChunks documentId embeddings position chunks db) = documents db
    /\ document_chunks (updateChunks documentId embeddings position chunks db)
       = map (fun c =>
                if String.eqb (chunk_document_id c) documentId
                   && (Z.of_nat position <=? index c)%Z
                   && (index c <? Z.of_nat (position + List.length chunks))%Z
                then withEmbedding
                       (match nth_error embeddings (Z.to_nat (index c)) with
                        | Some value => value
                        | None => None
                        end) c
                else c)
             (document_chunks db).
Proof.
  induction chunks as [| chunk chunks IH]; intros position db.
  - cbn [updateChunks List.length]. split; [reflexivity |].
    rewrite <- (map_id (document_chunks db)) at 1. apply map_ext. intros c.
    destruct (String.eqb _ _); cbn [andb]; [| reflexivity].
    destruct (Z.of_nat position <=? index c)%Z eqn:Hlow; cbn [andb]; [| reflexivity].
    apply Z.leb_le in Hlow.
    replace (index c <? Z.of_nat (position + 0))%Z with false; [reflexivity |].
    symmetry. apply Z.ltb_ge. lia.
  - cbn [updateChunks]. destruct (IH (S position) (setEmbedding
      (match nth_error embeddings position with
       | Some value => value
       | None => None
       end) documentId (Z.of_nat position) db)) as (Hdocs & Hrows).
    split; [rewrite Hdocs; reflexivity |].
    rewrite Hrows. cbn [setEmbedding document_chunks]. rewrite map_map.
    apply map_ext. intros c. cbn [List.length].
    destruct (String.eqb (chunk_document_id c) documentId) eqn:Hdoc; cbn [andb].
    + destruct (index c =? Z.of_nat position)%Z eqn:Here.
      * apply Z.eqb_eq in Here.
        cbn [withEmbedding chunk_document_id index].
        rewrite Hdoc. cbn [andb].
        replace (Z.of_nat (S position) <=? index c)%Z with false
          by (symmetry; apply Z.leb_gt; lia).
        cbn [andb].
        replace (Z.of_nat position <=? index c)%Z with true
          by (symmetry; apply Z.leb_le; lia).
        replace (index c <? Z.of_nat (position + S (List.length chunks)))%Z with true
          by (symmetry; apply Z.ltb_lt; lia).
        cbn [andb]. rewrite Here, Nat2Z.id. reflexivity.
      * apply Z.eqb_neq in Here. rewrite Hdoc. cbn [andb].
        replace (position + S (List.length chunks))
          with (S position + List.length chunks) by lia.
        replace (Z.of_nat (S position) <=? index c)%Z
          with (Z.of_nat position <=? index c)%Z; [reflexivity |].
        destruct (Z.of_nat position <=? index c)%Z eqn:Hlow.
        -- apply Z.leb_le in Hlow. symmetry. apply Z.leb_le. lia.
        -- apply Z.leb_gt in Hlow. symmetry. apply Z.leb_gt. lia.
    + rewrite Hdoc. reflexivity.
Qed.

(** [storeChunksWithEmbeddings] writes the embedding number [k] into the
    rows of the document whose index is [k], for [k] below the number of
    chunks, and changes nothing else: no document, and in no chunk row the
    id, the document, the index, the content or the date.  So the join that
    every search reads is as it was: what [getAllChunks] and
    [searchBySimilarity] return does not depend on the embeddings stored. *)
Theorem storeChunksWithEmbeddings_changes_no_search (documentId : string)
  (chunks : list string) (embeddings : list (option string)) (db : State) :
  document_chunks (storeChunksWithEmbeddings documentId chunks embeddings db)
  = map (fun c =>
           if String.eqb (chunk_document_id c) documentId
              && (0 <=? index c)%Z
              && (index c <? Z.of_nat (List.length chunks))%Z
           then withEmbedding
                  (match nth_error embeddings (Z.to_nat (index c)) with
                   | Some value => value
                   | None => None
                   end) c
           else c)
        (document_chunks db)
  /\ documents (storeChunksWithEmbeddings documentId chunks embeddings db)
     = documents db
  /\ joined (storeChunksWithEmbeddings documentId chunks embeddings db) = joined db
  /\ (forall limit,
        getAllChunks (storeChunksWithEmbeddings documentId chunks embeddings db) limit
        = getAllChunks db limit)
  /\ (forall embedding limit,
        searchBySimilarity
          (storeChunksWithEmbeddings documentId chunks embeddings db) embedding limit
        = searchBySimilarity db embedding limit).
Proof.
  unfold storeChunksWithEmbeddings.
  destruct (updateChunks_closed_form documentId embeddings chunks 0 db)
    as (Hdocs & Hrows).
  cbn [Z.of_nat Nat.add] in Hrows.
  assert (Hjoined : joined (updateChunks documentId embeddings 0 chunks db) = joined db).
  { destruct (updateChunks documentId embeddings 0 chunks db) as [docs' rows'].
    cbn [documents document_chunks] in Hdocs, Hrows. subst docs'.
    destruct db as [docs rows]. cbn [documents document_chunks] in *.
    apply joined_ignores_embeddings. rewrite Hrows, map_map. apply map_ext.
    intros c. destruct (_ && _ && _); reflexivity. }
  split; [exact Hrows |]. split; [exact Hdocs |]. split; [exact Hjoined |].
  split.
  - intros limit. unfold getAllChunks. now rewrite Hjoined.
  - intros embedding limit. unfold searchBySimilarity, getAllChunks.
    now rewrite Hjoined.
Qed.

End StoringChunks.

(* ================================================================== *)
(** * Reading chunks *)
(* ================================================================== *)

Section ChunkQueries.

Import JS.
Import DatabaseService.
Import ChunkSearchService.

Lemma permutation_filter {A : Type} (p : A -> bool) (xs ys : list A) :
  Permutation xs ys -> Permutation (filter p xs) (filter p ys).
Proof.
  induction 1 as [| x xs ys _ IH | x y xs | xs ys zs _ IH1 _ IH2]; cbn [filter].
  - constructor.
  - destruct (p x); [now constructor | exact IH].
  - destruct (p x), (p y); try reflexivity. apply perm_swap.
  - now transitivity (filter p ys).
Qed.

Lemma count_hits {A : Type} (p : A -> bool) (xs : list A) (start : nat) :
  fold_left (fun sum x => sum + (if p x then 1 else 0)) xs start
  = start + List.length (filter p xs).
Proof.
  revert start. induction xs as [| x xs IH]; intros start; cbn [fold_left filter].
  - cbn [List.length]. lia.
  - rewrite IH. destruct (p x); cbn [List.length]; lia.
Qed.

Lemma basicContentSearch_unfold (this : Service) (query : string) (limit : Z) :
  basicContentSearch this query limit
  = slice
      (sort (descendingNat score)
         (filter (fun c => 0 <? score c)
            (map (contentScore query) (getAllChunks (db this) (limit * 3)))))
      0 limit.
Proof. reflexivity. Qed.

Lemma in_sqlLimit {A : Type} (bound : Z) (rows : list A) (x : A) :
  In x (sqlLimit bound rows) -> In x rows.
Proof.
  unfold sqlLimit. destruct (bound <? 0)%Z; [auto |].
  apply subsequence_in, subsequence_firstn.
Qed.

Lemma sqlLimit_all {A : Type} (bound : Z) (rows : list A) :
  (bound < 0 \/ Z.of_nat (List.length rows) <= bound)%Z ->
  sqlLimit bound rows = rows.
Proof.
  intros Hall. unfold sqlLimit. destruct (bound <? 0)%Z eqn:Hneg; [reflexivity |].
  apply Z.ltb_ge in Hneg. apply firstn_all2. lia.
Qed.

Lemma sqlLimit_length {A : Type} (bound : Z) (rows : list A) :
  (0 <= bound)%Z -> (Z.of_nat (List.length (sqlLimit bound rows)) <= bound)%Z.
Proof.
  intros Hbound. unfold sqlLimit.
  replace (bound <? 0)%Z with false by (symmetry; apply Z.ltb_ge; lia).
  rewrite length_firstn. lia.
Qed.

Lemma in_getAllChunks (db : State) (bound : Z) (chunk : Chunk) :
  In chunk (getAllChunks db bound) -> In chunk (joined db).
Proof.
  unfold getAllChunks. intros Hin. apply in_sqlLimit in Hin.
  now apply in_sort in Hin.
Qed.

Lemma getAllChunks_all (db : State) (bound : Z) :
  (bound < 0 \/ Z.of_nat (List.length (joined db)) <= bound)%Z ->
  Permutation (getAllChunks db bound) (joined db).
Proof.
  intros Hall. unfold getAllChunks.
  rewrite sqlLimit_all by (now rewrite sort_length). apply sort_permutation.
Qed.

Lemma contentScore_hits (query : string) (chunk : Chunk) :
  score (contentScore query chunk)
  = List.length
      (filter (includes (toLowerCase (content chunk)))
              (splitWhiteSpace (toLowerCase query))).
Proof. unfold contentScore. cbn [score]. now rewrite count_hits. Qed.

Lemma basicContentSearch_results (this : Service) (query : string) (limit : Z) :
  Forall
    (fun r =>
       r = contentScore query (row r)
       /\ In (row r) (joined (db this))
       /\ 1 <= score r <= List.length (splitWhiteSpace (toLowerCase query))
       /\ exists word,
            In word (splitWhiteSpace (toLowerCase query))
            /\ includes (toLowerCase (content (row r))) word = true)
    (basicContentSearch this query limit)
  /\ NonIncreasingNat score (basicContentSearch this query limit)
  /\ ((0 <= limit)%Z ->
      (Z.of_nat (List.length (basicContentSearch this query limit)) <= limit)%Z)
  /\ ((Z.of_nat (List.length (joined (db this))) <= limit)%Z ->
      Permutation (basicContentSearch this query limit)
        (filter (fun r => 0 <? score r)
                (map (contentScore query) (joined (db this))))).
Proof.
  rewrite basicContentSearch_unfold.
  split; [| split; [| split]].
  - rewrite Forall_forall. intros r Hr.
    apply in_slice, in_sort, filter_In in Hr as (Hr & Hpositive).
    apply in_map_iff in Hr as (chunk & <- & Hchunk).
    apply Nat.ltb_lt in Hpositive.
    rewrite contentScore_hits in *.
    change (row (contentScore query chunk)) with chunk.
    split; [reflexivity |]. split; [now apply in_getAllChunks in Hchunk |].
    split.
    + split; [lia |].
      clear. induction (splitWhiteSpace (toLowerCase query)) as [| w ws IH];
        cbn [filter List.length]; [lia |].
      destruct (includes _ w); cbn [List.length]; lia.
    + destruct (filter (includes (toLowerCase (content chunk)))
                       (splitWhiteSpace (toLowerCase query))) as [| word ws] eqn:Hhits;
        [cbn in Hpositive; lia |].
      exists word.
      assert (Hin : In word (word :: ws)) by now left.
      rewrite <- Hhits in Hin. now apply filter_In in Hin.
  - apply (strongly_sorted_subsequence _ _ _ (subsequence_slice _ 0 limit)).
    apply sort_descendingNat_sorted.
  - intros Hlimit. now apply slice_prefix_length.
  - intros Hall.
    assert (Hlimit : (0 <= limit)%Z) by lia.
    rewrite slice_prefix by exact Hlimit.
    assert (Hfetched : Permutation (getAllChunks (db this) (limit * 3))
                                   (joined (db this))).
    { apply getAllChunks_all. right. lia. }
    rewrite firstn_all2.
    + rewrite sort_permutation. apply permutation_filter.
      now apply Permutation_map.
    + rewrite sort_length.
      pose proof (Permutation_length Hfetched) as Hlen.
      match goal with
      | |- List.length (filter ?p ?l) <= _ =>
          pose proof (filter_length_le p l) as Hkept
      end.
      rewrite length_map in Hkept. lia.
Qed.

(** [basicContentSearch] returns chunks of the store only, each with the
    number of query words that its lower-cased content includes, which is
    at least 1 and at most the number of query words; the results stand in
    order of non-increasing score, and are at most [limit] for a limit
    that is not negative.  When the store holds no more than [limit]
    chunks, the results are all the chunks that include a query word. *)
Theorem basicContentSearch_finds_what_matches (this : Service) (query : string)
  (limit : Z) :
  Forall
    (fun r =>
       r = contentScore query (row r)
       /\ In (row r) (joined (db this))
       /\ 1 <= score r <= List.length (splitWhiteSpace (toLowerCase query))
       /\ exists word,
            In word (splitWhiteSpace (toLowerCase query))
            /\ includes (toLowerCase (content (row r))) word = true)
    (basicContentSearch this query limit)
  /\ NonIncreasingNat score (basicContentSearch this query limit)
  /\ ((0 <= limit)%Z ->
      (Z.of_nat (List.length (basicContentSearch this query limit)) <= limit)%Z)
  /\ ((Z.of_nat (List.length (joined (db this))) <= limit)%Z ->
      Permutation (basicContentSearch this query limit)
        (filter (fun r => 0 <? score r)
                (map (contentScore query) (joined (db this))))).
Proof. apply basicContentSearch_results. Qed.

Lemma subsequence_sqlLimit {A : Type} (bound : Z) (rows : list A) :
  Subsequence (sqlLimit bound rows) rows.
Proof.
  unfold sqlLimit. destruct (bound <? 0)%Z;
    [apply subsequence_refl | apply subsequence_firstn].
Qed.

Lemma similarityOf_range (queryEmbedding : string) (chunk : Chunk) :
  (0 < similarityOf queryEmbedding chunk <= 3 / 2)%R.
Proof.
  unfold similarityOf.
  set (distance := IZR (Z.abs (length (content chunk) - length queryEmbedding))).
  assert (Hdistance : (0 <= distance)%R).
  { unfold distance. apply IZR_le. lia. }
  assert (Hclose : (0 < 1 / (1 + distance) <= 1)%R).
  { split.
    - apply Rdiv_lt_0_compat; lra.
    - apply Rmult_le_reg_r with (r := (1 + distance)%R); [lra |].
      unfold Rdiv. rewrite Rmult_assoc, Rinv_l by lra. lra. }
  destruct (includes _ _); nra.
Qed.

Lemma insertSorted_ext {A : Type} (after after' : A -> A -> bool) (x : A)
  (xs : list A) :
  (forall a b, after a b = after' a b) ->
  insertSorted after x xs = insertSorted after' x xs.
Proof.
  intros Hsame. induction xs as [| y ys IH]; [reflexivity |].
  cbn [insertSorted]. rewrite Hsame, IH. reflexivity.
Qed.

Lemma sort_ext {A : Type} (after after' : A -> A -> bool) (xs : list A) :
  (forall a b, after a b = after' a b) -> sort after xs = sort after' xs.
Proof.
  intros Hsame. induction xs as [| x xs IH]; [reflexivity |].
  cbn [sort fold_right]. fold (sort after xs). fold (sort after' xs).
  rewrite IH. now apply insertSorted_ext.
Qed.

Lemma native_prefix_length (k : nat) (s : string) :
  String.length (String.substring 0 k s) = Nat.min k (String.length s).
Proof.
  revert k. induction s as [| c s IH]; intros [| k];
    cbn [String.substring String.length Nat.min]; try reflexivity.
  now rewrite IH.
Qed.

Lemma native_prefix_prefix (j k : nat) (s : string) :
  j <= k -> String.substring 0 j (String.substring 0 k s) = String.substring 0 j s.
Proof.
  revert j k. induction s as [| c s IH]; intros [| j] [| k] Hjk;
    cbn [String.substring]; try reflexivity; try lia.
  rewrite IH by lia. reflexivity.
Qed.

Lemma substring_prefix (s : string) (n : Z) :
  (0 <= n)%Z ->
  substring s 0 n = String.substring 0 (Z.to_nat (Z.min n (length s))) s.
Proof.
  intros Hn. unfold substring.
  assert (Hlen : (0 <= length s)%Z) by (unfold length; lia).
  replace (Z.min (Z.max 0 0) (length s)) with 0%Z by lia.
  replace (Z.min (Z.max n 0) (length s)) with (Z.min n (length s)) by lia.
  replace (Z.min 0 (Z.min n (length s))) with 0%Z by lia.
  replace (Z.max 0 (Z.min n (length s))) with (Z.min n (length s)) by lia.
  now rewrite Z.sub_0_r.
Qed.

Lemma length_prefix (s : string) (n : Z) :
  (0 <= n)%Z -> length (substring s 0 n) = Z.min n (length s).
Proof.
  intros Hn. rewrite substring_prefix by exact Hn.
  unfold length at 1. rewrite native_prefix_length. unfold length. lia.
Qed.

Lemma prefix_of_prefix (s : string) (m n : Z) :
  (0 <= m <= n)%Z -> substring (substring s 0 n) 0 m = substring s 0 m.
Proof.
  intros Hmn.
  rewrite (substring_prefix (substring s 0 n)) by lia.
  rewrite length_prefix by lia.
  rewrite (substring_prefix s n), (substring_prefix s m) by lia.
  rewrite native_prefix_prefix by (unfold length; lia).
  f_equal. unfold length. lia.
Qed.

Lemma similarityOf_reads (first second : string) (chunk : Chunk) :
  Z.min (length first) 100 = Z.min (length second) 100 ->
  substring first 0 20 = substring second 0 20 ->
  similarityOf (substring first 0 100) chunk
  = similarityOf (substring second 0 100) chunk.
Proof.
  intros Hlen Hhead. unfold similarityOf.
  rewrite !length_prefix, !prefix_of_prefix by lia.
  rewrite Hhead. replace (Z.min 100 (length first)) with (Z.min 100 (length second)) by lia.
  reflexivity.
Qed.

Lemma searchBySimilarity_results (db : State) (embedding : string) (limit : Z) :
  truthy embedding = true ->
  Forall
    (fun r =>
       In (row r) (joined db)
       /\ score r = Some (similarityOf (substring embedding 0 100) (row r))
       /\ (0 < similarityOf (substring embedding 0 100) (row r) <= 3 / 2)%R)
    (searchBySimilarity db embedding limit)
  /\ NonIncreasingR
       (fun r => similarityOf (substring embedding 0 100) (row r))
       (searchBySimilarity db embedding limit)
  /\ ((0 <= limit)%Z ->
      (Z.of_nat (List.length (searchBySimilarity db embedding limit)) <= limit)%Z)
  /\ ((limit < 0)%Z ->
      Permutation (map row (searchBySimilarity db embedding limit)) (joined db))
  /\ (forall other,
        truthy other = true ->
        Z.min (length other) 100 = Z.min (length embedding) 100 ->
        substring other 0 20 = substring embedding 0 20 ->
        searchBySimilarity db other limit = searchBySimilarity db embedding limit).
Proof.
  intros Hembedding. unfold searchBySimilarity. rewrite Hembedding. cbn [negb].
  set (queryEmbedding := substring embedding 0 100).
  split; [| split; [| split; [| split]]].
  - rewrite Forall_forall. intros r Hr.
    apply in_map_iff in Hr as (chunk & <- & Hchunk). cbn [row score].
    apply in_sqlLimit, in_sort in Hchunk.
    split; [exact Hchunk |]. split; [reflexivity | apply similarityOf_range].
  - unfold NonIncreasingR.
    apply (strongly_sorted_map
             (fun r => {| row := r; score := Some (similarityOf queryEmbedding r) |})
             (fun a b => (similarityOf queryEmbedding (row b)
                          <= similarityOf queryEmbedding (row a))%R)).
    cbn [row].
    apply (strongly_sorted_subsequence _ _ _ (subsequence_sqlLimit limit _)).
    apply sort_descendingR_sorted.
  - intros Hlimit. rewrite length_map. now apply sqlLimit_length.
  - intros Hlimit. rewrite map_map. cbn [row]. rewrite map_id.
    rewrite sqlLimit_all by (left; exact Hlimit). apply sort_permutation.
  - intros other Hother Hlen Hhead. rewrite Hother. cbn [negb].
    assert (Hsame : forall chunk,
               similarityOf (substring other 0 100) chunk
               = similarityOf queryEmbedding chunk).
    { intros chunk. now apply similarityOf_reads. }
    rewrite (sort_ext (descendingR (similarityOf (substring other 0 100)))
                      (descendingR (similarityOf queryEmbedding))).
    + apply map_ext. intros chunk. now rewrite Hsame.
    + intros a b. unfold descendingR. now rewrite !Hsame.
Qed.

(** For an embedding text that is not empty, [searchBySimilarity] returns
    chunks of the store, each with a score above 0 and at most 1.5, in
    order of non-increasing score: at most [limit] of them for a limit that
    is not negative, all of them for a negative one.  The score reads the
    embedding through its length, capped at 100, and its first 20
    characters only: two embeddings that agree on these rank every store
    alike. *)
Theorem searchBySimilarity_is_ranked (db : State) (embedding : string) (limit : Z) :
  truthy embedding = true ->
  Forall
    (fun r =>
       In (row r) (joined db)
       /\ score r = Some (similarityOf (substring embedding 0 100) (row r))
       /\ (0 < similarityOf (substring embedding 0 100) (row r) <= 3 / 2)%R)
    (searchBySimilarity db embedding limit)
  /\ NonIncreasingR
       (fun r => similarityOf (substring embedding 0 100) (row r))
       (searchBySimilarity db embedding limit)
  /\ ((0 <= limit)%Z ->
      (Z.of_nat (List.length (searchBySimilarity db embedding limit)) <= limit)%Z)
  /\ ((limit < 0)%Z ->
      Permutation (map row (searchBySimilarity db embedding limit)) (joined db))
  /\ (forall other,
        truthy other = true ->
        Z.min (length other) 100 = Z.min (length embedding) 100 ->
        substring other 0 20 = substring embedding 0 20 ->
        searchBySimilarity db other limit = searchBySimilarity db embedding limit).
Proof. apply searchBySimilarity_results. Qed.

Lemma searchBySimilarity_is_ranked_witness :
  Forall
    (fun r =>
       In (row r) (joined (db embeddingService))
       /\ score r = Some (similarityOf (substring "[1]" 0 100) (row r))
       /\ (0 < similarityOf (substring "[1]" 0 100) (row r) <= 3 / 2)%R)
    (searchBySimilarity (db embeddingService) "[1]" 10)
  /\ NonIncreasingR
       (fun r => similarityOf (substring "[1]" 0 100) (row r))
       (searchBySimilarity (db embeddingService) "[1]" 10)
  /\ ((0 <= 10)%Z ->
      (Z.of_nat (List.length (searchBySimilarity (db embeddingService) "[1]" 10))
       <= 10)%Z)
  /\ ((10 < 0)%Z ->
      Permutation (map row (searchBySimilarity (db embeddingService) "[1]" 10))
                  (joined (db embeddingService)))
  /\ (forall other,
        truthy other = true ->
        Z.min (length other) 100 = Z.min (length "[1]") 100 ->
        substring other 0 20 = substring "[1]" 0 20 ->
        searchBySimilarity (db embeddingService) other 10
        = searchBySimilarity (db embeddingService) "[1]" 10).
Proof.
  apply (searchBySimilarity_is_ranked (db embeddingService) "[1]" 10).
  reflexivity.
Defined.

End ChunkQueries.

(* ================================================================== *)
(** * Indexing without embeddings *)
(* ================================================================== *)

Section Indexing.

Import JS.
Import DatabaseService.
Import ChunkSearchService.
Import ChunkIndexing.

Lemma generateEmbedding_unconfigured (this : Service) (text : string) :
  openaiConfigured this = false -> generateEmbedding this text = None.
Proof.
  unfold openaiConfigured, generateEmbedding.
  destruct (OPENAI_API_KEY this) as [key |]; [| reflexivity].
  destruct (truthy key), (String.eqb key "your_openai_api_key_here");
    cbn [negb andb orb]; intros Hoff; try discriminate Hoff; reflexivity.
Qed.

Lemma generateEmbedding_failing (this : Service) (text : string) :
  embeddings_create this text = None -> generateEmbedding this text = None.
Proof.
  unfold generateEmbedding. intros Hfails.
  destruct (OPENAI_API_KEY this) as [key |]; [| reflexivity].
  destruct (negb (truthy key) || String.eqb key "your_openai_api_key_here");
    [reflexivity | exact Hfails].
Qed.

Lemma storeDocument_plain (this : Service)
  (db_storeDocument : State -> State * Outcome string)
  (db_storeChunksWithEmbeddings :
     string -> list (option string) -> State -> State * Outcome unit)
  (chunks : list string) :
  (forall chunk, In chunk chunks -> generateEmbedding this chunk = None) ->
  storeDocument this db_storeDocument db_storeChunksWithEmbeddings chunks
  = db_storeDocument (db this).
Proof.
  intros Hnone. unfold storeDocument.
  destruct (db_storeDocument (db this)) as [db' [documentId | error]];
    [| reflexivity].
  replace (existsb _ (map (generateEmbedding this) chunks)) with false;
    [reflexivity |].
  symmetry. induction chunks as [| chunk chunks IH]; [reflexivity |].
  cbn [map existsb]. rewrite (Hnone chunk) by now left.
  cbn [orb]. apply IH. intros other Hother. apply Hnone. now right.
Qed.

(** Without an API key, or when the provider fails on every chunk,
    [storeDocument] of the search service is [storeDocument] of the store:
    it resolves or rejects as that does, and [storeChunksWithEmbeddings] is
    not called. *)
Theorem storeDocument_without_embeddings (this : Service)
  (db_storeDocument : State -> State * Outcome string)
  (db_storeChunksWithEmbeddings :
     string -> list (option string) -> State -> State * Outcome unit)
  (chunks : list string) :
  openaiConfigured this = false
  \/ (forall chunk, In chunk chunks -> embeddings_create this chunk = None) ->
  storeDocument this db_storeDocument db_storeChunksWithEmbeddings chunks
  = db_storeDocument (db this).
Proof.
  intros Hnone. apply storeDocument_plain. intros chunk Hchunk.
  destruct Hnone as [Hoff | Hfails].
  - now apply generateEmbedding_unconfigured.
  - now apply generateEmbedding_failing, Hfails.
Qed.

Lemma storeDocument_without_embeddings_witness :
  storeDocument keywordService
    (ChunkStore.storeDocument (fun k => String (ascii_of_nat (65 + k)) "")
       (fun _ => "2024-01-02 00:00:00") "b.txt" "red fox. blue jay"
       ["red fox."; "blue jay"])
    (fun _ _ store => (store, Throw (Error "not called")))
    ["red fox."; "blue jay"]
  = ChunkStore.storeDocument (fun k => String (ascii_of_nat (65 + k)) "")
      (fun _ => "2024-01-02 00:00:00") "b.txt" "red fox. blue jay"
      ["red fox."; "blue jay"] (db keywordService).
Proof.
  apply (storeDocument_without_embeddings keywordService).
  left. reflexivity.
Defined.

(** A document indexed without embeddings is found by the lexical search:
    when ids are new and the store, with the new chunks, holds no more
    than [limit] chunks, every stored chunk whose lower-cased content
    includes a word of the query is among the results of
    [basicContentSearch], and among those of [search] when it returns. *)
Theorem stored_chunks_are_found `{RegExpEngine} (this : Service)
  (uuid clock : nat -> string) (filename content : string) (chunks : list string)
  (db_storeChunksWithEmbeddings :
     string -> list (option string) -> State -> State * Outcome unit)
  (query : string) (limit : Z) :
  Referenced (db this) ->
  FreshIds uuid (List.length chunks) (db this) ->
  openaiConfigured this = false ->
  (Z.of_nat (List.length (joined (db this)) + List.length chunks) <= limit)%Z ->
  exists db',
    storeDocument this
      (ChunkStore.storeDocument uuid clock filename content chunks)
      db_storeChunksWithEmbeddings chunks
    = (db', Return (uuid 0))
    /\ forall stored,
         In stored (storedChunks uuid clock filename 0 chunks) ->
         (exists word,
            In word (splitWhiteSpace (toLowerCase query))
            /\ includes (toLowerCase (DatabaseService.content stored)) word = true) ->
         In stored
            (map row
               (basicContentSearch
                  {| db := db'; OPENAI_API_KEY := OPENAI_API_KEY this;
                     embeddings_create := embeddings_create this |}
                  query limit))
         /\ forall out,
              search
                {| db := db'; OPENAI_API_KEY := OPENAI_API_KEY this;
                   embeddings_create := embeddings_create this |}
                query limit
              = Return out ->
              exists results,
                out = ByContent results
                /\ In stored (map (fun e => row (result e)) results).
Proof.
  intros Hreferenced Hfresh Hoff Hlimit.
  destruct (storeDocument_inserted uuid clock filename content chunks (db this)
              Hreferenced Hfresh) as (db' & Hstored & Hjoined & _ & _).
  exists db'. split.
  - rewrite storeDocument_plain; [exact Hstored |].
    intros chunk _. now apply generateEmbedding_unconfigured.
  - intros stored Hin (word & Hword & Hincludes).
    set (this' := {| db := db'; OPENAI_API_KEY := OPENAI_API_KEY this;
                     embeddings_create := embeddings_create this |}).
    destruct (basicContentSearch_results this' query limit)
      as (_ & _ & _ & Hcomplete).
    assert (Hall : Permutation (basicContentSearch this' query limit)
                     (filter (fun r => 0 <? score r)
                             (map (contentScore query) (joined db')))).
    { apply Hcomplete. cbn [this' db]. rewrite Hjoined, length_app.
      assert (Hcount : forall position,
                 List.length (storedChunks uuid clock filename position chunks)
                 = List.length chunks).
      { clear. induction chunks as [| c cs IH]; intros position; [reflexivity |].
        cbn [storedChunks List.length]. now rewrite IH. }
      rewrite Hcount. exact Hlimit. }
    assert (Hfound : In stored (map row (basicContentSearch this' query limit))).
    { apply in_map_iff. exists (contentScore query stored). split; [reflexivity |].
      apply (Permutation_in _ (Permutation_sym Hall)).
      apply filter_In. split.
      - apply in_map. rewrite Hjoined. apply in_or_app. now right.
      - apply Nat.ltb_lt. rewrite contentScore_hits.
        assert (Hhit : In word
                         (filter (includes (toLowerCase (DatabaseService.content stored)))
                                 (splitWhiteSpace (toLowerCase query))))
          by (apply filter_In; now split).
        revert Hhit.
        generalize (filter (includes (toLowerCase (DatabaseService.content stored)))
                           (splitWhiteSpace (toLowerCase query))).
        intros [| hit hits]; [intros [] | cbn [List.length]; lia]. }
    split; [exact Hfound |].
    intros out Hout.
    assert (Hnone : generateEmbedding this' query = None).
    { apply generateEmbedding_unconfigured. exact Hoff. }
    pose proof (chunk_search_reranks this' query limit out Hout) as Hranked.
    destruct out as [results | results].
    + destruct Hranked as (queryEmbedding & Hsome & _). congruence.
    + destruct Hranked as (_ & Hperm & _).
      exists results. split; [reflexivity |].
      rewrite <- (map_map result row).
      apply in_map_iff in Hfound as (candidate & Hrow & Hcandidate).
      apply in_map_iff. exists candidate. split; [exact Hrow |].
      exact (Permutation_in _ (Permutation_sym Hperm) Hcandidate).
Qed.

Lemma stored_chunks_are_found_witness :
  exists db',
    storeDocument keywordService
      (ChunkStore.storeDocument (fun k => String (ascii_of_nat (65 + k)) "")
         (fun _ => "2024-01-02 00:00:00") "b.txt" "red fox. blue jay"
         ["red fox."; "blue jay"])
      (fun _ _ store => (store, Return tt)) ["red fox."; "blue jay"]
    = (db', Return "A")
    /\ forall stored,
         In stored
            (storedChunks (fun k => String (ascii_of_nat (65 + k)) "")
               (fun _ => "2024-01-02 00:00:00") "b.txt" 0 ["red fox."; "blue jay"]) ->
         (exists word,
            In word (splitWhiteSpace (toLowerCase "fox"))
            /\ includes (toLowerCase (DatabaseService.content stored)) word = true) ->
         In stored
            (map row
               (basicContentSearch
                  {| db := db'; OPENAI_API_KEY := OPENAI_API_KEY keywordService;
                     embeddings_create := embeddings_create keywordService |}
                  "fox" 10))
         /\ forall out,
              @search rejecting
                {| db := db'; OPENAI_API_KEY := OPENAI_API_KEY keywordService;
                   embeddings_create := embeddings_create keywordService |}
                "fox" 10
              = Return out ->
              exists results,
                out = ByContent results
                /\ In stored (map (fun e => row (result e)) results).
Proof.
  apply (@stored_chunks_are_found rejecting keywordService
           (fun k => String (ascii_of_nat (65 + k)) "")
           (fun _ => "2024-01-02 00:00:00") "b.txt" "red fox. blue jay"
           ["red fox."; "blue jay"] (fun _ _ store => (store, Return tt))
           "fox" 10).
  - repeat constructor.
  - split; [| split].
    + cbn. intros [H | []]. discriminate H.
    + cbn. repeat constructor; cbn; intuition discriminate.
    + intros k Hk. cbn. intros [H | []].
      assert (Hcases : k = 1 \/ k = 2) by (cbn in Hk; lia).
      destruct Hcases as [-> | ->]; discriminate H.
  - reflexivity.
  - vm_compute. discriminate.
Defined.

End Indexing.

(* ================================================================== *)
(** * The similarity of two texts by their words *)
(* ================================================================== *)

Section WordSimilarity.

Import JS.
Import TextSimilarity.

Local Open Scope Q_scope.

Lemma uniqueWords_nonempty (words1 words2 : list string) :
  words1 <> [] -> (1 <= List.length (uniqueWords words1 words2))%nat.
Proof.
  intros Hwords. destruct words1 as [| word rest]; [congruence |].
  unfold uniqueWords.
  assert (Hin : In word (nodup string_dec ((word :: rest) ++ words2))).
  { apply nodup_In. now left. }
  revert Hin. generalize (nodup string_dec ((word :: rest) ++ words2)).
  intros [| first others]; [intros [] | cbn [List.length]; lia].
Qed.

Lemma commonWords_in (words1 words2 : list string) (word : string) :
  In word (commonWords words1 words2)
  <-> In word words1 /\ In word words2 /\ (2 < String.length word)%nat.
Proof.
  unfold commonWords. rewrite filter_In, andb_true_iff, Nat.ltb_lt.
  split.
  - intros (Hfirst & Hsecond & Hlong). repeat split; try assumption.
    apply existsb_exists in Hsecond as (other & Hother & Hsame).
    apply String.eqb_eq in Hsame. now subst other.
  - intros (Hfirst & Hsecond & Hlong). repeat split; try assumption.
    apply existsb_exists. exists word. split; [exact Hsecond | apply String.eqb_refl].
Qed.

Lemma commonWords_bounded (words1 words2 : list string) :
  NoDup words1 ->
  (List.length (commonWords words1 words2)
   <= List.length (uniqueWords words1 words2))%nat.
Proof.
  intros Hnodup. apply NoDup_incl_length.
  - unfold commonWords. now apply NoDup_filter.
  - intros word Hword. apply commonWords_in in Hword as (Hfirst & _).
    unfold uniqueWords. apply nodup_In, in_or_app. now left.
Qed.

Lemma quotient_facts (common unique : nat) :
  (1 <= unique)%nat ->
  0 <= inject_Z (Z.of_nat common) / inject_Z (Z.of_nat unique)
  /\ (inject_Z (Z.of_nat common) / inject_Z (Z.of_nat unique) == 0
      <-> common = 0%nat)
  /\ ((common <= unique)%nat ->
      inject_Z (Z.of_nat common) / inject_Z (Z.of_nat unique) <= 1).
Proof.
  intros Hunique.
  assert (Hpositive : 0 < inject_Z (Z.of_nat unique)).
  { change 0 with (inject_Z 0). rewrite <- Zlt_Qlt. lia. }
  assert (Hcommon : 0 <= inject_Z (Z.of_nat common)).
  { change 0 with (inject_Z 0). rewrite <- Zle_Qle. lia. }
  split; [| split].
  - apply Qle_shift_div_l; [exact Hpositive |]. now rewrite Qmult_0_l.
  - split.
    + intros Hzero.
      assert (Hnumerator : inject_Z (Z.of_nat common) == 0).
      { rewrite <- (Qmult_div_r (inject_Z (Z.of_nat common))
                                 (inject_Z (Z.of_nat unique)))
          by (intros Heq; rewrite Heq in Hpositive; now apply Qlt_irrefl in Hpositive).
        rewrite Hzero. apply Qmult_0_r. }
      unfold Qeq in Hnumerator. cbn [Qnum Qden inject_Z] in Hnumerator. lia.
    + intros ->. reflexivity.
  - intros Hle. apply Qle_shift_div_r; [exact Hpositive |].
    rewrite Qmult_1_l, <- Zle_Qle. lia.
Qed.

(** [calculateTextSimilarity] never divides by 0: the set of words has at
    least one element.  Its value is not negative; it is 0 exactly when no
    word of the first text that is longer than 2 is a word of the second;
    and it is at most 1 when no word occurs twice in the first text. *)
Theorem calculateTextSimilarity_range (text1 text2 : string) :
  (1 <= List.length
          (uniqueWords (splitWhiteSpace (toLowerCase text1))
                       (splitWhiteSpace (toLowerCase text2))))%nat
  /\ 0 <= calculateTextSimilarity text1 text2
  /\ (calculateTextSimilarity text1 text2 == 0
      <-> forall word,
            In word (splitWhiteSpace (toLowerCase text1)) ->
            (2 < String.length word)%nat ->
            ~ In word (splitWhiteSpace (toLowerCase text2)))
  /\ (NoDup (splitWhiteSpace (toLowerCase text1)) ->
      calculateTextSimilarity text1 text2 <= 1).
Proof.
  set (words1 := splitWhiteSpace (toLowerCase text1)).
  set (words2 := splitWhiteSpace (toLowerCase text2)).
  assert (Hunique : (1 <= List.length (uniqueWords words1 words2))%nat).
  { apply uniqueWords_nonempty. apply splitLoop_nonempty. }
  destruct (quotient_facts (List.length (commonWords words1 words2))
              (List.length (uniqueWords words1 words2)) Hunique)
    as (Hnonnegative & Hzero & Hone).
  unfold calculateTextSimilarity. fold words1 words2.
  split; [exact Hunique |]. split; [exact Hnonnegative |]. split.
  - rewrite Hzero. split.
    + intros Hnone word Hfirst Hlong Hsecond.
      assert (Hin : In word (commonWords words1 words2))
        by (apply commonWords_in; repeat split; assumption).
      revert Hin Hnone. generalize (commonWords words1 words2).
      intros [| first others]; [intros [] | discriminate].
    + intros Hnone.
      destruct (commonWords words1 words2) as [| word rest] eqn:Hcommon;
        [reflexivity |].
      assert (Hin : In word (commonWords words1 words2))
        by (rewrite Hcommon; now left).
      apply commonWords_in in Hin as (Hfirst & Hsecond & Hlong).
      exfalso. exact (Hnone word Hfirst Hlong Hsecond).
  - intros Hnodup. apply Hone. now apply commonWords_bounded.
Qed.

End WordSimilarity.

(* ================================================================== *)
(** * Query words that the engine rejects *)
(* ================================================================== *)

Section RejectedWords.

Import JS.

Context `{RegExpEngine}.

Lemma for_of_throws {A S : Type} (body : S -> A -> Outcome S) (xs : list A) (x : A) :
  In x xs ->
  (forall s, exists e, body s x = Throw e) ->
  forall s, exists e, for_of xs body s = Throw e.
Proof.
  intros Hin Hthrows. induction xs as [| y ys IH]; [destruct Hin |].
  intros s. cbn [for_of].
  destruct Hin as [-> | Hin].
  - destruct (Hthrows s) as (e & ->). now exists e.
  - destruct (body s y) as [s' | e]; cbn [bind]; [now apply IH | now exists e].
Qed.

Lemma word_fits_query (query word : string) :
  In word (splitWhiteSpace (toLowerCase query)) ->
  String.length word <= nonWhiteSpace query.
Proof.
  intros Hword. unfold splitWhiteSpace in Hword.
  apply splitLoop_piece_length in Hword. cbn [List.length] in Hword.
  now rewrite nonWhiteSpace_toLowerCase in Hword.
Qed.

Lemma long_word_passes (query word : string) :
  In word (splitWhiteSpace (toLowerCase query)) ->
  2 < String.length word ->
  truthy query = true
  /\ (String.length (trim query) =? 0) = false
  /\ (String.length (trim query) <? 2) = false.
Proof.
  intros Hword Hlong. apply word_fits_query in Hword.
  split; [apply nonWhiteSpace_positive_truthy; lia |].
  split.
  - apply Nat.eqb_neq. rewrite trim_empty_iff. lia.
  - apply Nat.ltb_ge.
    destruct (Nat.lt_ge_cases (String.length (trim query)) 2) as [Hshort | Hfine];
      [| exact Hfine].
    apply trim_short_iff in Hshort. lia.
Qed.

Section ChunkBackend.

Import DatabaseService.
Import ChunkSearchService.

Variables (query word : string) (e : Exception).

Hypothesis word_of_query : In word (splitWhiteSpace (toLowerCase query)).
Hypothesis word_is_long : 2 < String.length word.
Hypothesis word_has_syntax : isLiteralSource word = false.
Hypothesis word_is_rejected :
  forall subject, regExpMatchCount word "g" subject = Throw e.

Lemma calculateRelevanceScore_throws (content : string) :
  exists e', calculateRelevanceScore query content = Throw e'.
Proof.
  unfold calculateRelevanceScore, rawScore, wordMatches.
  destruct (for_of_throws
              (fun score w =>
                 if 2 <? String.length w
                 then wordCount <- matchGlobal w (toLowerCase content) ;;
                      Return (score + wordCount)
                 else Return score)
              (splitWhiteSpace (toLowerCase query)) word word_of_query)
    with (s := if includes (toLowerCase content) (toLowerCase query) then 10 else 0)
    as (e' & Hthrows).
  - intros s. exists e.
    replace (2 <? String.length word) with true
      by (symmetry; now apply Nat.ltb_lt).
    unfold matchGlobal. now rewrite word_has_syntax, word_is_rejected.
  - exists e'. now rewrite Hthrows.
Qed.

Lemma enhance_throws {S : Type} (results : list (Scored S)) :
  results <> [] -> exists e', enhance query results = Throw e'.
Proof.
  intros Hresults. destruct results as [| candidate rest]; [congruence |].
  unfold enhance. cbn [for_of].
  destruct (calculateRelevanceScore_throws (content (row candidate))) as (e' & ->).
  now exists e'.
Qed.

Lemma rejected_word_chunk_search (this : Service) (limit : Z) :
  fetched this query limit <> [] ->
  (forall content, exists e', calculateRelevanceScore query content = Throw e')
  /\ (exists e', search this query limit = Throw e')
  /\ ApiServer.post_api_search (search this) resultCount
       {| ApiServer.query := Some query; ApiServer.limit := Some limit |}
     = {| ApiServer.status := 500;
          ApiServer.body :=
            ApiServer.Failure "Search failed"
              "An error occurred while searching documents" |}.
Proof.
  intros Hfetched.
  split; [apply calculateRelevanceScore_throws |].
  assert (Hsearch : exists e', search this query limit = Throw e').
  { rewrite chunk_search_unfold. unfold fetched in Hfetched.
    destruct (generateEmbedding this query) as [queryEmbedding |].
    - destruct (enhance_throws (searchBySimilarity (db this) queryEmbedding limit))
        as (e' & ->).
      + intros Hnone. apply Hfetched. now rewrite Hnone.
      + now exists e'.
    - destruct (enhance_throws (basicContentSearch this query limit)) as (e' & ->).
      + intros Hnone. apply Hfetched. now rewrite Hnone.
      + now exists e'. }
  split; [exact Hsearch |].
  destruct Hsearch as (e' & Hsearch).
  destruct (long_word_passes query word word_of_query word_is_long)
    as (Htruthy & Hempty & Hshort).
  unfold ApiServer.post_api_search. cbn [ApiServer.query ApiServer.limit].
  now rewrite Htruthy, Hempty, Hshort, Hsearch.
Qed.

End ChunkBackend.

(** In the chunk backend a query word longer than 2 goes into
    [new RegExp(word, 'g')] as it is.  When the engine rejects it,
    [calculateRelevanceScore] throws on every content; when at least one
    chunk was fetched, [search] rejects and [POST /api/search] answers
    status 500. *)
Theorem rejected_word_fails_chunk_search (this : ChunkSearchService.Service)
  (query word : string) (limit : Z) (e : Exception) :
  In word (splitWhiteSpace (toLowerCase query)) ->
  2 < String.length word ->
  isLiteralSource word = false ->
  (forall subject, regExpMatchCount word "g" subject = Throw e) ->
  fetched this query limit <> [] ->
  (forall content,
     exists e', ChunkSearchService.calculateRelevanceScore query content = Throw e')
  /\ (exists e', ChunkSearchService.search this query limit = Throw e')
  /\ ApiServer.post_api_search (ChunkSearchService.search this)
       ChunkSearchService.resultCount
       {| ApiServer.query := Some query; ApiServer.limit := Some limit |}
     = {| ApiServer.status := 500;
          ApiServer.body :=
            ApiServer.Failure "Search failed"
              "An error occurred while searching documents" |}.
Proof.
  intros Hword Hlong Hsyntax Hrejected Hfetched.
  exact (rejected_word_chunk_search query word e Hword Hlong Hsyntax Hrejected
           this limit Hfetched).
Qed.

End RejectedWords.

Section RejectedWordExamples.

Import JS.

Lemma rejected_word_fails_chunk_search_witness :
  (forall content,
     exists e',
       @ChunkSearchService.calculateRelevanceScore rejecting "c++" content = Throw e')
  /\ (exists e', @ChunkSearchService.search rejecting cppService "c++" 10 = Throw e')
  /\ ApiServer.post_api_search (@ChunkSearchService.search rejecting cppService)
       ChunkSearchService.resultCount
       {| ApiServer.query := Some "c++"; ApiServer.limit := Some 10%Z |}
     = {| ApiServer.status := 500;
          ApiServer.body :=
            ApiServer.Failure "Search failed"
              "An error occurred while searching documents" |}.
Proof.
  apply (@rejected_word_fails_chunk_search rejecting cppService "c++" "c++" 10
           (SyntaxError "Invalid regular expression")).
  - now left.
  - cbn. lia.
  - reflexivity.
  - reflexivity.
  - vm_compute. discriminate.
Defined.

End RejectedWordExamples.

(* ================================================================== *)
(** * Rejected words in the document backend *)
(* ================================================================== *)

Section RejectedTextWords.

Import JS.
Import SearchService.

Lemma nonWhiteSpace_concat (piece : string) (pieces : list string) :
  nonWhiteSpace (String.concat " " (piece :: pieces))
  = nonWhiteSpace piece + nonWhiteSpace (String.concat " " pieces).
Proof.
  destruct pieces as [| next rest]; [cbn; lia |].
  rewrite concat_cons by discriminate.
  rewrite !nonWhiteSpace_append. reflexivity.
Qed.

(** Where the text has a unit that is no white space, so has one of the
    first two pieces of the split. *)
Lemma split_front (s : string) :
  (forall cur inRun,
     0 < nonWhiteSpace (string_of_list_ascii (rev cur)) ->
     0 < nonWhiteSpace (hd "" (splitLoop cur inRun s)))
  /\ (0 < nonWhiteSpace s ->
      0 < nonWhiteSpace (hd "" (splitLoop [] true s)))
  /\ (0 < nonWhiteSpace s ->
      0 < nonWhiteSpace (hd "" (splitLoop [] false s))
          + nonWhiteSpace (hd "" (tl (splitLoop [] false s)))).
Proof.
  induction s as [| c s (IHcur & IHrun & IHstart)].
  - repeat split; cbn; intros; first [lia | assumption].
  - assert (Hunit : isWhiteSpace c = false ->
                    0 < nonWhiteSpace (string_of_list_ascii (rev [c]))).
    { intros Hc. cbn. rewrite Hc. lia. }
    split; [| split].
    + intros cur inRun Hcur. cbn [splitLoop].
      destruct (isWhiteSpace c) eqn:Hc.
      * destruct inRun; [now apply IHcur | exact Hcur].
      * apply IHcur. cbn [rev].
        rewrite nonWhiteSpace_string_of_list_ascii_app. lia.
    + cbn [nonWhiteSpace splitLoop]. destruct (isWhiteSpace c) eqn:Hc.
      * intros Hrest. apply IHrun. lia.
      * intros _. apply IHcur. now apply Hunit.
    + cbn [nonWhiteSpace splitLoop]. destruct (isWhiteSpace c) eqn:Hc.
      * intros Hrest. cbn [hd tl]. specialize (IHrun ltac:(lia)). cbn. lia.
      * intros _. specialize (IHcur [c] false (Hunit eq_refl)). lia.
Qed.

Lemma first_chunk_not_blank (text : string) :
  0 < nonWhiteSpace text ->
  truthy (trim (join (slice (splitWhiteSpace text) 0 500) " ")) = true.
Proof.
  intros Htext. apply nonWhiteSpace_positive_truthy.
  rewrite nonWhiteSpace_trim, slice_prefix by lia.
  destruct (split_front text) as (_ & _ & Hfront). specialize (Hfront Htext).
  unfold splitWhiteSpace, join.
  destruct (splitLoop [] false text) as [| first [| second rest]]; cbn [hd tl] in Hfront.
  - cbn in Hfront. lia.
  - cbn in Hfront. change (Z.to_nat 500) with 500. cbn [firstn].
    rewrite nonWhiteSpace_concat. lia.
  - change (Z.to_nat 500) with 500. cbn [firstn].
    rewrite !nonWhiteSpace_concat. lia.
Qed.

Lemma splitTextIntoChunks_first (text : string) :
  0 < nonWhiteSpace text ->
  exists chunk rest, splitTextIntoChunks text 500 50 = Some (chunk :: rest).
Proof.
  intros Htext. unfold splitTextIntoChunks.
  pose proof (first_chunk_not_blank text Htext) as Hfirst.
  pose proof (splitWhiteSpace_nonempty text) as Hwords.
  destruct (List.length (splitWhiteSpace text)) as [| fuel] eqn:Hlength; [lia |].
  cbn [chunkLoop].
  replace (0 <? Z.of_nat (List.length (splitWhiteSpace text)))%Z with true
    by (symmetry; apply Z.ltb_lt; lia).
  destruct (chunkLoop_returns (splitWhiteSpace text) 500 (500 - 50) ltac:(lia)
              fuel (0 + (500 - 50))%Z ltac:(lia)) as (chunks & -> & _).
  change (0 + 500)%Z with 500%Z. rewrite Hfirst. eauto.
Qed.

Context `{RegExpEngine}.

Variables (query word : string) (e : Exception).

Hypothesis word_of_query : In word (queryWordsOf query).
Hypothesis word_has_syntax : isLiteralSource word = false.
Hypothesis word_is_rejected :
  forall subject, regExpMatchCount ("\b" ++ word ++ "\b") "gi" subject = Throw e.

Lemma scoreChunk_throws (chunk : string) :
  exists e', scoreChunk (queryWordsOf query) chunk = Throw e'.
Proof.
  unfold scoreChunk. apply (for_of_throws _ _ word word_of_query).
  intros [score matched]. exists e.
  unfold matchWholeWord. now rewrite word_has_syntax, word_is_rejected.
Qed.

Lemma scoreDocument_throws (results : list TextResult) (doc : Document) :
  0 < nonWhiteSpace (content doc) ->
  exists e', scoreDocument (queryWordsOf query) results doc = Throw e'.
Proof.
  intros Hcontent. unfold scoreDocument.
  rewrite (nonWhiteSpace_positive_truthy _ Hcontent).
  destruct (splitTextIntoChunks_first (toLowerCase (content doc)))
    as (chunk & rest & ->);
    [now rewrite nonWhiteSpace_toLowerCase |].
  unfold matchChunks. cbn [for_of].
  destruct (scoreChunk_throws chunk) as (e' & ->). now exists e'.
Qed.

Lemma rejected_word_text_search (this : Service) (limit : Z) (doc : Document)
  (limitParam : option Z) :
  generateEmbedding this query = None ->
  In doc (db_getAllDocuments this) ->
  0 < nonWhiteSpace (content doc) ->
  (exists e', textSearch this query limit = Throw e')
  /\ (exists e', search this query limit = Throw e')
  /\ Server.status
       (Server.get_search this
          {| Server.q := Some query; Server.limitParam := limitParam |})
     = 500%Z.
Proof.
  intros Hnone Hdoc Hcontent.
  assert (Htext : forall bound, exists e', textSearch this query bound = Throw e').
  { intros bound. unfold textSearch.
    destruct (for_of_throws (scoreDocument (queryWordsOf query))
                (db_getAllDocuments this) doc Hdoc) with (s := @nil TextResult)
      as (e' & ->).
    - intros results. now apply scoreDocument_throws.
    - now exists e'. }
  assert (Hsearch : forall bound, exists e', search this query bound = Throw e').
  { intros bound. rewrite search_unfold, Hnone. unfold lexically.
    destruct (Htext bound) as (e' & ->). now exists e'. }
  split; [apply Htext |]. split; [apply Hsearch |].
  unfold Server.get_search. cbn [Server.q].
  assert (Hlong : In word (splitWhiteSpace (toLowerCase query))
                  /\ 2 < String.length word).
  { unfold queryWordsOf in word_of_query.
    apply filter_In in word_of_query as (Hin & Hlong).
    apply Nat.ltb_lt in Hlong. now split. }
  destruct Hlong as (Hin & Hlong).
  destruct (long_word_passes query word Hin Hlong) as (Htruthy & Hempty & _).
  unfold Server.blank. rewrite Htruthy, Hempty. cbn [negb orb].
  destruct (Hsearch (Server.limitOf
                       {| Server.q := Some query; Server.limitParam := limitParam |}))
    as (e' & ->).
  reflexivity.
Qed.

End RejectedTextWords.

Section RejectedTextWordsClaimed.

Import JS.
Import SearchService.

(** In the document backend a query word longer than 2 goes into
    [new RegExp(`\\b${queryWord}\\b`, 'gi')] as it is.  When the engine
    rejects it, no embedding is produced and some stored document has a
    content that is not blank, [textSearch] throws, [search] rejects after
    its fallback, and [GET /search] answers status 500. *)
Theorem rejected_word_fails_text_search `{RegExpEngine} (this : Service)
  (query word : string) (limit : Z) (e : Exception) (doc : Document)
  (limitParam : option Z) :
  In word (queryWordsOf query) ->
  isLiteralSource word = false ->
  (forall subject, regExpMatchCount ("\b" ++ word ++ "\b") "gi" subject = Throw e) ->
  generateEmbedding this query = None ->
  In doc (db_getAllDocuments this) ->
  0 < nonWhiteSpace (content doc) ->
  (exists e', textSearch this query limit = Throw e')
  /\ (exists e', search this query limit = Throw e')
  /\ Server.status
       (Server.get_search this
          {| Server.q := Some query; Server.limitParam := limitParam |})
     = 500%Z.
Proof.
  intros Hword Hsyntax Hrejected Hnone Hdoc Hcontent.
  exact (rejected_word_text_search query word e Hword Hsyntax Hrejected
           this limit doc limitParam Hnone Hdoc Hcontent).
Qed.

Lemma rejected_word_fails_text_search_witness :
  (exists e', @textSearch rejecting (over twoUploads None) "a c++ b" 10 = Throw e')
  /\ (exists e', @search rejecting (over twoUploads None) "a c++ b" 10 = Throw e')
  /\ Server.status
       (@Server.get_search rejecting (over twoUploads None)
          {| Server.q := Some "a c++ b"; Server.limitParam := None |})
     = 500%Z.
Proof.
  apply (@rejected_word_fails_text_search rejecting (over twoUploads None)
           "a c++ b" "c++" 10 (SyntaxError "Invalid regular expression")
           {| id := 2; filename := "b.txt"; content := "the cat sat";
              fileSize := 11; wordCount := 3; pageCount := 1;
              uploadedAt := "2024-01-02T00:00:00.000Z"; embedding := None |}
           None).
  - now left.
  - reflexivity.
  - reflexivity.
  - reflexivity.
  - now left.
  - vm_compute. lia.
Defined.

End RejectedTextWordsClaimed.

(* ================================================================== *)
(** * The length of an excerpt *)
(* ================================================================== *)

Section ExcerptLength.

Import JS.

Lemma string_length_append (s t : string) :
  String.length (s ++ t) = String.length s + String.length t.
Proof. induction s as [| c s IH]; cbn; [reflexivity | now rewrite IH]. Qed.

Lemma indexOfFrom_range (needle hay : string) :
  forall i j,
    indexOfFrom needle hay i = Some j -> i <= j <= i + String.length hay.
Proof.
  induction hay as [| c hay IH]; intros i j; cbn [indexOfFrom].
  - destruct (String.prefix needle ""); [| discriminate].
    intros Hfound. injection Hfound as <-. cbn. lia.
  - destruct (String.prefix needle (String c hay)).
    + intros Hfound. injection Hfound as <-. cbn. lia.
    + intros Hfound. apply IH in Hfound. cbn [String.length]. lia.
Qed.

Lemma indexOf_range (hay needle : string) :
  (-1 <= indexOf hay needle <= length hay)%Z.
Proof.
  unfold indexOf, length.
  destruct (indexOfFrom needle hay 0) as [j |] eqn:Hfound; [| lia].
  apply indexOfFrom_range in Hfound. lia.
Qed.

Lemma length_toLowerCase (s : string) :
  String.length (toLowerCase s) = String.length s.
Proof. induction s as [| c s IH]; cbn; [reflexivity | now rewrite IH]. Qed.

Lemma length_substring_between (s : string) (start end_ : Z) :
  (length (substring s start end_) <= Z.abs (end_ - start))%Z.
Proof.
  unfold substring, length.
  match goal with
  | |- context [String.substring ?n ?m s] =>
      pose proof (length_native_substring n m s) as Hlen
  end.
  lia.
Qed.

Local Open Scope Q_scope.

(** The window of [createExcerpt], read as [substring] reads it, holds at
    most [maxLength] units. *)
Lemma window_width (len queryIndex maxLength : Z) :
  (0 <= maxLength)%Z -> (0 <= queryIndex <= len)%Z ->
  (Z.abs
     (toInteger
        (Qminmax.Qmin (inject_Z len)
           (Qminmax.Qmax 0 (inject_Z queryIndex - inject_Z maxLength / 2)
            + inject_Z maxLength))
      - toInteger
          (Qminmax.Qmax 0 (inject_Z queryIndex - inject_Z maxLength / 2)))
   <= maxLength)%Z.
Proof.
  intros Hwidth Hindex.
  set (start := Qminmax.Qmax 0 (inject_Z queryIndex - inject_Z maxLength / 2)).
  set (end_ := Qminmax.Qmin (inject_Z len) (start + inject_Z maxLength)).
  assert (Hwide : 0 <= inject_Z maxLength)
    by (change 0 with (inject_Z 0); rewrite <- Zle_Qle; exact Hwidth).
  assert (Hstart : 0 <= start) by apply Q.le_max_l.
  assert (Hinside : start <= inject_Z len).
  { apply Q.max_lub.
    - change 0 with (inject_Z 0). rewrite <- Zle_Qle. lia.
    - apply Qle_trans with (y := inject_Z queryIndex).
      + rewrite <- (Qplus_0_r (inject_Z queryIndex)) at 2.
        unfold Qminus. apply Qplus_le_compat; [apply Qle_refl |].
        apply (Qopp_le_compat 0).
        apply Qle_shift_div_l; [reflexivity |]. now rewrite Qmult_0_l.
      + rewrite <- Zle_Qle. lia. }
  assert (Hordered : start <= end_).
  { apply Q.min_glb; [exact Hinside |].
    rewrite <- (Qplus_0_r start) at 1.
    apply Qplus_le_compat; [apply Qle_refl | exact Hwide]. }
  assert (Hend : 0 <= end_) by (apply Qle_trans with (y := start); assumption).
  assert (Hnear : end_ <= start + inject_Z maxLength) by apply Q.le_min_r.
  unfold toInteger.
  rewrite (proj2 (Qle_bool_iff 0 start) Hstart),
          (proj2 (Qle_bool_iff 0 end_) Hend).
  pose proof (Qfloor_resp_le _ _ Hordered) as Hfloors.
  assert (Hupper : (Qfloor end_ < Qfloor start + 1 + maxLength)%Z).
  { rewrite Zlt_Qlt.
    apply Qle_lt_trans with (y := end_); [apply Qfloor_le |].
    apply Qle_lt_trans with (y := start + inject_Z maxLength); [exact Hnear |].
    rewrite inject_Z_plus.
    apply Qplus_lt_le_compat; [apply Qlt_floor | apply Qle_refl]. }
  lia.
Qed.

Local Close Scope Q_scope.

Lemma createExcerpt_bounded (content query : string) (maxLength : Z) :
  (0 <= maxLength)%Z ->
  (length (ChunkSearchService.createExcerpt content query maxLength)
   <= maxLength + 6)%Z.
Proof.
  intros Hwidth. unfold ChunkSearchService.createExcerpt.
  pose proof (indexOf_range (toLowerCase content) (toLowerCase query)) as Hindex.
  unfold length in Hindex. rewrite length_toLowerCase in Hindex.
  fold (length content) in Hindex.
  destruct (indexOf (toLowerCase content) (toLowerCase query) =? -1)%Z eqn:Hfound;
    cbn [negb].
  - pose proof (length_substring_between content 0 maxLength) as Hpiece.
    unfold length in *. rewrite string_length_append.
    destruct (maxLength <? Z.of_nat (String.length content))%Z;
      cbn [ChunkSearchService.ellipsis String.length]; lia.
  - apply Z.eqb_neq in Hfound.
    pose proof (window_width (length content)
                  (indexOf (toLowerCase content) (toLowerCase query)) maxLength
                  Hwidth ltac:(lia)) as Hwindow.
    unfold substringQ.
    match goal with
    | |- context [substring content ?from ?to] =>
        pose proof (length_substring_between content from to) as Hpiece
    end.
    destruct (Qlt_le_dec 0 _), (Qlt_le_dec _ (inject_Z (length content)));
      unfold length in *; rewrite ?string_length_append;
      cbn [ChunkSearchService.ellipsis String.length]; lia.
Qed.

(** For a [maxLength] that is not negative, an excerpt has at most
    [maxLength + 6] units: at most [maxLength] of the content and the two
    ellipses. *)
Theorem createExcerpt_length (content query : string) (maxLength : Z) :
  (0 <= maxLength)%Z ->
  (length (ChunkSearchService.createExcerpt content query maxLength)
   <= maxLength + 6)%Z.
Proof. apply createExcerpt_bounded. Qed.

Lemma createExcerpt_length_witness :
  (length (ChunkSearchService.createExcerpt "abcdefghij" "d" 5) <= 5 + 6)%Z.
Proof. apply (createExcerpt_length "abcdefghij" "d" 5). lia. Defined.

End ExcerptLength.

(* ================================================================== *)
(** * No word and no character is lost *)
(* ================================================================== *)

Section Coverage.

Import JS.

Lemma in_window {A : Type} (xs : list A) :
  forall (from width j : nat) (x : A),
    nth_error xs j = Some x -> from <= j < from + width ->
    In x (firstn width (skipn from xs)).
Proof.
  induction xs as [| y ys IH]; intros from width j x Hnth Hrange.
  - destruct j; discriminate Hnth.
  - destruct from as [| from].
    + cbn [skipn]. destruct width as [| width]; [lia |].
      destruct j as [| j]; cbn [nth_error] in Hnth.
      * injection Hnth as <-. now left.
      * right. apply (IH 0 width j x Hnth). lia.
    + destruct j as [| j]; [lia |]. cbn [nth_error] in Hnth. cbn [skipn].
      apply (IH from width j x Hnth). lia.
Qed.

Lemma in_slice_window {A : Type} (xs : list A) (from width : Z) (j : nat) (x : A) :
  nth_error xs j = Some x ->
  (0 <= from <= Z.of_nat j)%Z -> (Z.of_nat j < from + width)%Z ->
  In x (slice xs from (from + width)).
Proof.
  intros Hnth Hfrom Hwidth.
  assert (Hj : j < List.length xs) by (apply nth_error_Some; congruence).
  unfold slice, relativeIndex.
  replace (from <? 0)%Z with false by (symmetry; apply Z.ltb_ge; lia).
  replace (from + width <? 0)%Z with false by (symmetry; apply Z.ltb_ge; lia).
  apply (in_window xs _ _ j x Hnth). lia.
Qed.

Lemma nonWhiteSpace_of_piece (pieces : list string) (piece : string) :
  In piece pieces ->
  nonWhiteSpace piece <= nonWhiteSpace (join pieces " ").
Proof.
  unfold join. induction pieces as [| first rest IH]; intros Hin; [destruct Hin |].
  rewrite nonWhiteSpace_concat. destruct Hin as [<- | Hin]; [lia |].
  specialize (IH Hin). lia.
Qed.

Lemma pieces_hold_no_space (s : string) :
  forall cur inRun piece,
    nonWhiteSpace (string_of_list_ascii (rev cur)) = List.length cur ->
    In piece (splitLoop cur inRun s) ->
    nonWhiteSpace piece = String.length piece.
Proof.
  induction s as [| c s IH]; intros cur inRun piece Hcur Hin; cbn [splitLoop] in Hin.
  - destruct Hin as [<- | []].
    now rewrite Hcur, length_string_of_list_ascii, length_rev.
  - destruct (isWhiteSpace c) eqn:Hc.
    + destruct inRun.
      * now apply (IH cur true).
      * destruct Hin as [<- | Hin].
        -- now rewrite Hcur, length_string_of_list_ascii, length_rev.
        -- now apply (IH [] true).
    + apply (IH (c :: cur) false); [| exact Hin].
      cbn [rev List.length].
      rewrite nonWhiteSpace_string_of_list_ascii_app, Hcur, Hc. lia.
Qed.

Lemma word_chunks_cover (words : list string) (chunkSize step : Z) :
  (1 <= step <= chunkSize)%Z ->
  forall fuel start chunks,
    (0 <= start)%Z ->
    SearchService.chunkLoop fuel words chunkSize step start = Some chunks ->
    forall j word,
      nth_error words j = Some word ->
      (start <= Z.of_nat j)%Z ->
      0 < nonWhiteSpace word ->
      exists from,
        In (join (slice words from (from + chunkSize)) " ") chunks
        /\ In word (slice words from (from + chunkSize)).
Proof.
  intros Hstep.
  induction fuel as [| fuel IH]; intros start chunks Hstart Hloop j word Hnth Hj Hword;
    cbn [SearchService.chunkLoop] in Hloop.
  - assert (Hinside : j < List.length words) by (apply nth_error_Some; congruence).
    replace (start <? Z.of_nat (List.length words))%Z with true in Hloop
      by (symmetry; apply Z.ltb_lt; lia).
    discriminate Hloop.
  - assert (Hinside : j < List.length words) by (apply nth_error_Some; congruence).
    replace (start <? Z.of_nat (List.length words))%Z with true in Hloop
      by (symmetry; apply Z.ltb_lt; lia).
    destruct (SearchService.chunkLoop fuel words chunkSize step (start + step))
      as [rest |] eqn:Hrest; [| discriminate Hloop].
    injection Hloop as <-.
    destruct (Z.lt_ge_cases (Z.of_nat j) (start + chunkSize)) as [Hhere | Hlater].
    + exists start.
      assert (Hin : In word (slice words start (start + chunkSize)))
        by (apply (in_slice_window words start chunkSize j word Hnth); lia).
      split; [| exact Hin].
      pose proof (nonWhiteSpace_of_piece _ _ Hin) as Hchunk.
      replace (truthy (trim (join (slice words start (start + chunkSize)) " ")))
        with true; [now left |].
      symmetry. apply nonWhiteSpace_positive_truthy.
      rewrite nonWhiteSpace_trim. lia.
    + destruct (IH (start + step)%Z rest ltac:(lia) Hrest j word Hnth ltac:(lia) Hword)
        as (from & Hchunk & Hin).
      exists from. split; [| exact Hin].
      destruct (truthy _); [now right | exact Hchunk].
Qed.

(** With an overlap that is not negative and below the chunk size, the
    word chunker loses no word: every word of the text that is not empty
    is one of the words of a chunk that it returns. *)
Theorem splitTextIntoChunks_keeps_every_word (text : string)
  (chunkSize overlap : Z) (chunks : list string) (word : string) :
  (0 <= overlap < chunkSize)%Z ->
  SearchService.splitTextIntoChunks text chunkSize overlap = Some chunks ->
  In word (splitWhiteSpace text) ->
  word <> "" ->
  exists pieces,
    In (join pieces " ") chunks
    /\ In word pieces
    /\ Subsequence pieces (splitWhiteSpace text).
Proof.
  intros Hoverlap Hchunks Hword Hfull.
  unfold SearchService.splitTextIntoChunks in Hchunks.
  assert (Hunits : 0 < nonWhiteSpace word).
  { unfold splitWhiteSpace in Hword.
    rewrite (pieces_hold_no_space text [] false word eq_refl Hword).
    destruct word; [congruence | cbn; lia]. }
  apply In_nth_error in Hword as (j & Hnth).
  destruct (word_chunks_cover (splitWhiteSpace text) chunkSize (chunkSize - overlap)
              ltac:(lia) _ 0%Z chunks ltac:(lia) Hchunks j word Hnth ltac:(lia) Hunits)
    as (from & Hchunk & Hin).
  exists (slice (splitWhiteSpace text) from (from + chunkSize)).
  split; [exact Hchunk |]. split; [exact Hin | apply subsequence_slice].
Qed.

Lemma splitTextIntoChunks_keeps_every_word_witness :
  exists pieces,
    In (join pieces " ") ["a b"; "b c"; "c"]
    /\ In "c" pieces
    /\ Subsequence pieces (splitWhiteSpace "a b c").
Proof.
  apply (splitTextIntoChunks_keeps_every_word "a b c" 2 1 ["a b"; "b c"; "c"] "c").
  - lia.
  - reflexivity.
  - vm_compute. right. right. left. reflexivity.
  - discriminate.
Defined.

Import DocumentProcessor.

Lemma native_substring_holds (s : string) :
  forall (from width i : nat) (c : ascii),
    String.get i s = Some c -> isWhiteSpace c = false ->
    from <= i < from + width ->
    0 < nonWhiteSpace (String.substring from width s).
Proof.
  induction s as [| d s IH]; intros from width i c Hget Hc Hrange.
  - destruct i; discriminate Hget.
  - destruct from as [| from].
    + destruct width as [| width]; [lia |].
      cbn [String.substring nonWhiteSpace].
      destruct i as [| i]; cbn [String.get] in Hget.
      * injection Hget as ->. rewrite Hc. lia.
      * pose proof (IH 0 width i c Hget Hc ltac:(lia)). lia.
    + destruct i as [| i]; [lia |]. cbn [String.get] in Hget.
      cbn [String.substring]. apply (IH from width i c Hget Hc). lia.
Qed.

Lemma substring_holds (s : string) (from to i : Z) (c : ascii) :
  charAt s i = Some c -> isWhiteSpace c = false ->
  (0 <= from <= i)%Z -> (i < to)%Z ->
  0 < nonWhiteSpace (substring s from to).
Proof.
  intros Hget Hc Hfrom Hto.
  pose proof (charAt_some s i c Hget) as Hinside.
  unfold charAt in Hget.
  replace (i <? 0)%Z with false in Hget by (symmetry; apply Z.ltb_ge; lia).
  unfold substring. unfold length in *.
  apply (native_substring_holds s _ _ (Z.to_nat i) c Hget Hc). lia.
Qed.

Lemma character_chunks_cover (cleanText : string) (chunkSize overlap : Z) :
  (1 <= chunkSize)%Z -> (100 <= overlap)%Z ->
  forall fuel start chunks,
    (0 <= start)%Z ->
    chunkLoop fuel cleanText chunkSize overlap start = Some chunks ->
    forall i c,
      charAt cleanText i = Some c -> isWhiteSpace c = false ->
      (start <= i)%Z ->
      exists from to,
        (from <= i < to)%Z
        /\ In (trim (substring cleanText from to)) chunks.
Proof.
  intros Hsize Hoverlap.
  induction fuel as [| fuel IH]; intros start chunks Hstart Hloop i c Hget Hc Hi;
    pose proof (charAt_some cleanText i c Hget) as Hinside;
    cbn [chunkLoop] in Hloop;
    replace (start <? length cleanText)%Z with true in Hloop
      by (symmetry; apply Z.ltb_lt; lia);
    [discriminate Hloop |].
  destruct (findWordBoundary_range cleanText start) as (Hback & _ & _).
  replace (start <? findWordBoundary cleanText start)%Z with false in Hloop
    by (symmetry; apply Z.ltb_ge; exact Hback).
  rewrite andb_false_r in Hloop. cbn [andb] in Hloop.
  match type of Hloop with
  | context [substring cleanText start ?e] => set (end_ := e) in Hloop
  end.
  assert (Hend : (Z.max (start + chunkSize - overlap) (start + 1) <= end_)%Z).
  { unfold end_.
    destruct (start + chunkSize <? length cleanText)%Z; [| lia].
    destruct (start <? findSentenceBoundary cleanText start (start + chunkSize))%Z
      eqn:Hfound; [| lia].
    apply Z.ltb_lt in Hfound.
    destruct (findSentenceBoundary_range cleanText start (start + chunkSize))
      as [-> | (Hfar & _)]; lia. }
  destruct (chunkLoop fuel cleanText chunkSize overlap
              (Z.max (start + chunkSize - overlap) (start + 1)))
    as [rest |] eqn:Hrest; [| discriminate Hloop].
  injection Hloop as <-.
  destruct (Z.lt_ge_cases i end_) as [Hhere | Hlater].
  - exists start, end_. split; [lia |].
    replace (truthy (trim (substring cleanText start end_))) with true; [now left |].
    symmetry. apply nonWhiteSpace_positive_truthy. rewrite nonWhiteSpace_trim.
    apply (substring_holds cleanText start end_ i c Hget Hc); lia.
  - destruct (IH (Z.max (start + chunkSize - overlap) (start + 1)) rest
                ltac:(lia) Hrest i c Hget Hc ltac:(lia))
      as (from & to & Hrange & Hin).
    exists from, to. split; [exact Hrange |].
    destruct (truthy _); [now right | exact Hin].
Qed.

(** With a chunk size of at least 1 and an overlap of at least 100 (the
    defaults are 1000 and 100), the character chunker loses no character:
    every unit of the normalized text that is no white space lies in the
    window of a chunk that is returned. *)
Theorem splitIntoChunks_keeps_every_character (text : string)
  (chunkSize overlap : Z) (chunks : list string) (i : Z) (c : ascii) :
  (1 <= chunkSize)%Z -> (100 <= overlap)%Z ->
  splitIntoChunks text chunkSize overlap = Some chunks ->
  charAt (cleanTextOf text) i = Some c ->
  isWhiteSpace c = false ->
  exists from to,
    (from <= i < to)%Z
    /\ In (trim (substring (cleanTextOf text) from to)) chunks.
Proof.
  intros Hsize Hoverlap Hchunks Hget Hc.
  pose proof (charAt_some _ _ _ Hget) as Hinside.
  unfold splitIntoChunks in Hchunks.
  destruct (negb (truthy text) || (String.length text =? 0)) eqn:Hempty.
  - exfalso. destruct text as [| d text]; [| discriminate Hempty].
    cbn in Hinside. lia.
  - destruct (length (cleanTextOf text) <=? chunkSize)%Z.
    + injection Hchunks as <-.
      exists 0%Z, (length (cleanTextOf text)). split; [lia |].
      rewrite substring_whole. left. unfold cleanTextOf.
      symmetry. apply trim_idempotent.
    + apply (character_chunks_cover (cleanTextOf text) chunkSize overlap
               Hsize Hoverlap _ 0%Z chunks ltac:(lia) Hchunks i c Hget Hc).
      lia.
Qed.

Lemma splitIntoChunks_keeps_every_character_witness :
  exists from to,
    (from <= 3 < to)%Z
    /\ In (trim (substring (cleanTextOf "ab cd") from to)) ["ab"; "b"; "c"; "cd"; "d"].
Proof.
  apply (splitIntoChunks_keeps_every_character "ab cd" 2 100
           ["ab"; "b"; "c"; "cd"; "d"] 3 "c"%char).
  - lia.
  - lia.
  - reflexivity.
  - reflexivity.
  - reflexivity.
Defined.

End Coverage.
